(** * The Ariadne <-> Notion synchronisation engine

    A shallow embedding of [scripts/notion-sync.js] and the verification of
    the properties its specification states about it.

    Reading guide.  JavaScript objects whose shape the data model fixes are
    records; an object used as a dictionary ([syncMap.jobs],
    [syncMap.notionToLocal], [page.properties]) is a [gmap] over its own
    string keys; a [Set] of keys is a [gset].  A field that holds a string,
    [null], or is missing is a [jsval].  Everything the script obtains from
    Node (SHA-256, the HTTPS exchange, the folder tree, the clock, ICU
    collation) is a member of the class [NodeRuntime]; the script's own code
    is translated function by function and keeps its JavaScript names.
    Strings are byte strings: the white space and letter classes of the
    regular expressions are the ASCII ones.

    What the embedding leaves out.  A record has the fields of the data
    model and no others, so a property that a user adds by hand to a local
    document is not represented.  The members that every object inherits
    from [Object.prototype] are modelled where the script indexes a literal
    object with a name read from Notion ([arrayMap]), and nowhere else.  The
    order of [Object.entries] over a dictionary is the order of
    [map_to_list].  A query that is paginated is followed for a given number
    of pages (the budget of [fetchLoop]); a run that needs more ends in
    [PageBudgetExhausted] instead of going on.  Of the console output only
    the warning about deletion candidates is recorded in the trace, next to
    the requests sent and the timers waited on.

    The file has three parts: the embedding; a scripted [NodeRuntime] with
    the concrete inputs of the examples; the predicates of the verification,
    followed by its lemmas and theorems. *)

From Stdlib Require Import ZArith Ascii String DecimalString.
From stdpp Require Import base option list strings gmap sorting.
From Equations Require Import Equations.

Set Warnings "-register-all".

Open Scope Z_scope.

(* ------------------------------------------------------------------------- *)
(** ** JavaScript values of optional string fields *)
(* ------------------------------------------------------------------------- *)

(** The value of a property that the data model types as an optional string:
    the property is missing ([Undefined]), holds [null], or holds a string. *)
Inductive jsval :=
| Undefined
| Null
| Str (s : string).

#[global] Instance jsval_eq_dec : EqDecision jsval.
Proof. solve_decision. Defined.

#[global] Instance jsval_countable : Countable jsval :=
  inj_countable'
    (λ v, match v with
          | Undefined => inl false
          | Null => inl true
          | Str s => inr s
          end)
    (λ x, match x with
          | inl false => Undefined
          | inl true => Null
          | inr s => Str s
          end)
    (λ v, match v with Undefined | Null | Str _ => eq_refl end).

(** ToBoolean: the empty string is falsy, like [undefined] and [null]. *)
Definition truthy (v : jsval) : bool :=
  match v with
  | Str s => negb (String.eqb s EmptyString)
  | _ => false
  end.

(** ToString, as applied by template literals. *)
Definition ToString (v : jsval) : string :=
  match v with
  | Undefined => "undefined"
  | Null => "null"
  | Str s => s
  end.

(** [a || b] *)
Definition or_else (a b : jsval) : jsval := if truthy a then a else b.
Infix "|||" := or_else (at level 50, left associativity).

(** [v === s] for a string [s] *)
Definition strict_eq (v : jsval) (s : string) : bool :=
  match v with
  | Str s' => String.eqb s' s
  | _ => false
  end.

(** [a > b] on strings compares UTF-16 code units, here bytes. *)
Definition str_gt (a b : string) : bool := String.ltb b a.

Definition chr (n : nat) : string := String (ascii_of_nat n) EmptyString.

(** ToString of an integer: its decimal digits. *)
Definition Number_toString (n : Z) : string := NilZero.string_of_int (Z.to_int n).

(** The first binding of a key in an insertion-ordered property list. *)
Fixpoint assoc {A} (k : string) (l : list (string * A)) : option A :=
  match l with
  | [] => None
  | (k', v) :: l => if String.eqb k' k then Some v else assoc k l
  end.

Fixpoint drop_while {A} (p : A → bool) (l : list A) : list A :=
  match l with
  | x :: l' => if p x then drop_while p l' else l
  | [] => []
  end.

(* ------------------------------------------------------------------------- *)
(** ** JSON values and [JSON.stringify] with an array replacer *)
(* ------------------------------------------------------------------------- *)

(** The values the local documents and the request bodies hold.  The only
    numbers are integers.  An object lists its own properties in insertion
    order. *)
Inductive json :=
| JNull
| JBool (b : bool)
| JNum (n : Z)
| JStr (s : string)
| JArr (xs : list json)
| JObj (kvs : list (string * json)).

Definition hexDigit (n : nat) : string :=
  String.substring n 1 "0123456789abcdef".

(** QuoteJSONString, one code unit at a time (ECMA-262, 25.5.2.3). *)
Definition QuoteJSONChar (c : ascii) : string :=
  let n := nat_of_ascii c in
  if (n =? 34)%nat then chr 92 +:+ chr 34
  else if (n =? 92)%nat then chr 92 +:+ chr 92
  else if (n =? 8)%nat then chr 92 +:+ "b"
  else if (n =? 9)%nat then chr 92 +:+ "t"
  else if (n =? 10)%nat then chr 92 +:+ "n"
  else if (n =? 12)%nat then chr 92 +:+ "f"
  else if (n =? 13)%nat then chr 92 +:+ "r"
  else if (n <? 32)%nat
       then chr 92 +:+ "u00" +:+ hexDigit (n / 16)%nat +:+ hexDigit (n mod 16)%nat
  else String c EmptyString.

Definition QuoteJSONString (s : string) : string :=
  chr 34 +:+ String.concat EmptyString (map QuoteJSONChar (list_ascii_of_string s))
         +:+ chr 34.

(** SerializeJSONProperty with a PropertyList [K] and an empty gap.  For an
    object the keys written are those of [K], in the order of [K], that the
    object has; the same [K] applies to every nested object.  Array elements
    are all written. *)
Fixpoint SerializeJSONProperty (K : list string) (v : json) : string :=
  match v with
  | JNull => "null"
  | JBool b => if b then "true" else "false"
  | JNum n => Number_toString n
  | JStr s => QuoteJSONString s
  | JArr xs =>
      "[" +:+ String.concat "," (map (SerializeJSONProperty K) xs) +:+ "]"
  | JObj kvs =>
      let members :=
        map (λ kv, let '(k, x) := kv in (k, SerializeJSONProperty K x)) kvs in
      let partial :=
        omap (λ P, (λ strP, QuoteJSONString P +:+ ":" +:+ strP) <$> assoc P members) K in
      "{" +:+ String.concat "," partial +:+ "}"
  end.

(** The PropertyList of an array replacer keeps the first occurrence of each
    name. *)
Fixpoint PropertyList (seen names : list string) : list string :=
  match names with
  | [] => []
  | n :: names =>
      if bool_decide (n ∈ seen) then PropertyList seen names
      else n :: PropertyList (n :: seen) names
  end.

(** [JSON.stringify(value, replacer)] for an array [replacer]. *)
Definition JSON_stringify (value : json) (replacer : list string) : string :=
  SerializeJSONProperty (PropertyList [] replacer) value.

(** [Object.keys(item)] *)
Definition Object_keys (item : list (string * json)) : list string :=
  map fst item.

(** [keys.sort()]: ascending by code units. *)
Definition sort_strings (keys : list string) : list string :=
  merge_sort (λ a b, String.leb a b) keys.

(* ------------------------------------------------------------------------- *)
(** ** What the script takes from Node *)
(* ------------------------------------------------------------------------- *)

(** One request of [https.request]. *)
Record Request := mkRequest {
  req_method : string;
  req_path : string;          (* the endpoint after [/v1] *)
  req_body : option json;
  req_bearer : string;        (* the API key of the Authorization header *)
}.

(** A Notion property value, by its [type] tag. *)
Inductive NotionProp :=
| PTitle (plain_text : list string)
| PRichText (plain_text : list string)
| PSelect (name : option string)      (* [select: null] or [select.name] *)
| PDate (start : option string)       (* [date: null] or [date.start] *)
| PCheckbox (checked : bool)
| PUrl (url : option string)
| PEmail (email : option string)
| POther.

(** A page of a database query. *)
Record Page := mkPage {
  page_id : string;
  page_last_edited_time : string;
  page_properties : gmap string NotionProp;
}.

(** The parsed JSON body of a response, with the members the script reads. *)
Record NotionJson := mkNotionJson {
  res_id : jsval;
  res_last_edited_time : jsval;
  res_results : list Page;
  res_has_more : bool;
  res_next_cursor : jsval;
  res_message : jsval;
  res_properties : list string;    (* [Object.keys(db.properties || {})] *)
}.

(** What one HTTPS exchange delivers: a response with its status code, its
    [retry-after] header and its body ([None] when [JSON.parse] throws), or
    the request's [error] event. *)
Inductive HttpOutcome :=
| Response (statusCode : Z) (retry_after : option string) (data : string)
           (parsed : option NotionJson)
| RequestError.

Class NodeRuntime := {
  (** [crypto.createHash('sha256').update(s).digest('hex')] *)
  sha256hex : string → string;
  (** [a.localeCompare(b)]: negative, zero or positive *)
  localeCompare : string → string → Z;
  (** the remote service, the folder tree and the clock *)
  World : Type;
  https_request : Request → World → HttpOutcome * World;
  setTimeout : Z → World → World;
  fs_existsSync : string → World → bool;
  fs_mkdirSync : string → World → option World;        (* [None]: throws *)
  fs_renameSync : string → string → World → option World;
  (** [new Date().toISOString()] and [Date.now().toString(36)] *)
  toISOString : World → string;
  now_base36 : World → string;
  (** [__dirname], the directory of the script *)
  script_dirname : string;
}.

(* ------------------------------------------------------------------------- *)
(** ** Hashing *)
(* ------------------------------------------------------------------------- *)

Definition hashItem `{NodeRuntime} (item : list (string * json)) : string :=
  let sorted := JSON_stringify (JObj item) (sort_strings (Object_keys item)) in
  String.substring 0 16 (sha256hex sorted).

(* ------------------------------------------------------------------------- *)
(** ** Data model: the three local documents *)
(* ------------------------------------------------------------------------- *)

(** The encoding of an optional string field as an object member. *)
Definition member (k : string) (v : jsval) : list (string * json) :=
  match v with
  | Undefined => []
  | Null => [(k, JNull)]
  | Str s => [(k, JStr s)]
  end.

Definition member_strings (k : string) (v : option (list string)) : list (string * json) :=
  match v with
  | None => []
  | Some l => [(k, JArr (JStr <$> l))]
  end.

(** A job of [tracker.json].  Its status is the bucket that holds it. *)
Module Job.
Record t := mk {
  company : jsval;
  role : jsval;
  url : jsval;
  added : jsval;
  updated : jsval;
  stage : jsval;
  next : jsval;
  outcome : jsval;
  reason : jsval;
  closed : jsval;
  folder : jsval;
}.

Definition set_added (v : jsval) (j : t) : t :=
  mk (company j) (role j) (url j) v (updated j) (stage j) (next j)
     (outcome j) (reason j) (closed j) (folder j).
Definition set_updated (v : jsval) (j : t) : t :=
  mk (company j) (role j) (url j) (added j) v (stage j) (next j)
     (outcome j) (reason j) (closed j) (folder j).
Definition set_folder (v : jsval) (j : t) : t :=
  mk (company j) (role j) (url j) (added j) (updated j) (stage j) (next j)
     (outcome j) (reason j) (closed j) v.

(** The object as [JSON.parse] or the pull converter builds it. *)
Definition toObject (j : t) : list (string * json) :=
  member "company" (company j) ++ member "role" (role j) ++
  member "url" (url j) ++ member "added" (added j) ++
  member "updated" (updated j) ++ member "stage" (stage j) ++
  member "next" (next j) ++ member "outcome" (outcome j) ++
  member "reason" (reason j) ++ member "closed" (closed j) ++
  member "folder" (folder j).

#[global] Instance eq_dec : EqDecision t.
Proof. solve_decision. Defined.
End Job.

(** One entry of a contact's interaction log. *)
Module Interaction.
Record t := mk {
  date : string;
  type : string;
  summary : string;
  linkedJobs : option (list string);
}.

Definition toObject (i : t) : list (string * json) :=
  [("date", JStr (date i)); ("type", JStr (type i)); ("summary", JStr (summary i))]
  ++ member_strings "linkedJobs" (linkedJobs i).

#[global] Instance eq_dec : EqDecision t.
Proof. solve_decision. Defined.
End Interaction.

(** A contact of [network.json]. *)
Module Contact.
Record t := mk {
  id : jsval;
  name : jsval;
  company : jsval;
  title : jsval;
  email : jsval;
  linkedin : jsval;
  source : jsval;
  introducedBy : jsval;
  added : jsval;
  interactions : option (list Interaction.t);
}.

Definition toObject (c : t) : list (string * json) :=
  member "id" (id c) ++ member "name" (name c) ++
  member "company" (company c) ++ member "title" (title c) ++
  member "email" (email c) ++ member "linkedin" (linkedin c) ++
  member "source" (source c) ++ member "introducedBy" (introducedBy c) ++
  member "added" (added c) ++
  match interactions c with
  | None => []
  | Some l => [("interactions", JArr ((λ i, JObj (Interaction.toObject i)) <$> l))]
  end.

#[global] Instance eq_dec : EqDecision t.
Proof. solve_decision. Defined.
End Contact.

(** A task of [tasks.json]. *)
Module Task.
Record t := mk {
  id : jsval;
  task : jsval;
  due : jsval;
  linkedContacts : option (list string);
  linkedJobs : option (list string);
  status : jsval;
  created : jsval;
  completed : jsval;
}.

Definition toObject (x : t) : list (string * json) :=
  member "id" (id x) ++ member "task" (task x) ++ member "due" (due x) ++
  member_strings "linkedContacts" (linkedContacts x) ++
  member_strings "linkedJobs" (linkedJobs x) ++
  member "status" (status x) ++ member "created" (created x) ++
  member "completed" (completed x).

#[global] Instance eq_dec : EqDecision t.
Proof. solve_decision. Defined.
End Task.

(** [tracker.json]: [{active, skipped, closed}]. *)
Record Tracker := mkTracker {
  active : list Job.t;
  skipped : list Job.t;
  closed : list Job.t;
}.

(** The names of the three arrays of the tracker. *)
Inductive ArrayName := active_ | skipped_ | closed_.

#[global] Instance ArrayName_eq_dec : EqDecision ArrayName.
Proof. solve_decision. Defined.

(** [tracker[arrayName]] *)
Definition bucket (tracker : Tracker) (a : ArrayName) : list Job.t :=
  match a with
  | active_ => active tracker
  | skipped_ => skipped tracker
  | closed_ => closed tracker
  end.

(** [tracker[arrayName] = jobs], the only way an array of the tracker changes *)
Definition set_bucket (a : ArrayName) (jobs : list Job.t) (tracker : Tracker) : Tracker :=
  match a with
  | active_ => mkTracker jobs (skipped tracker) (closed tracker)
  | skipped_ => mkTracker (active tracker) jobs (closed tracker)
  | closed_ => mkTracker (active tracker) (skipped tracker) jobs
  end.

(** [network.json] and [tasks.json] hold one array each. *)
Record Network := mkNetwork { contacts : list Contact.t }.
Record TasksData := mkTasksData { tasks : list Task.t }.

(* ------------------------------------------------------------------------- *)
(** ** Data model: the sync map *)
(* ------------------------------------------------------------------------- *)

(** A Sync State Entry.  Job entries also carry [company] and [role]; an
    entry that [migrateSyncMap] made has neither hash nor edit time. *)
Record SyncEntry := mkEntry {
  notionId : jsval;
  localHash : jsval;
  notionLastEdited : jsval;
  entry_company : jsval;
  entry_role : jsval;
}.

#[global] Instance SyncEntry_eq_dec : EqDecision SyncEntry.
Proof. solve_decision. Defined.

(** [syncEntry.notionLastEdited = v] *)
Definition set_notionLastEdited (v : jsval) (e : SyncEntry) : SyncEntry :=
  mkEntry (notionId e) (localHash e) v (entry_company e) (entry_role e).

(** An entry of the reverse index [notionToLocal]. *)
Record ReverseEntry := mkReverse {
  rev_type : string;
  rev_key : jsval;
}.

#[global] Instance ReverseEntry_eq_dec : EqDecision ReverseEntry.
Proof. solve_decision. Defined.

Record SyncMap := mkSyncMap {
  lastSyncTime : jsval;
  jobs : gmap string SyncEntry;
  contacts_ : gmap string SyncEntry;
  tasks_ : gmap string SyncEntry;
  notionToLocal : gmap string ReverseEntry;
}.

Definition set_jobs (m : gmap string SyncEntry) (s : SyncMap) : SyncMap :=
  mkSyncMap (lastSyncTime s) m (contacts_ s) (tasks_ s) (notionToLocal s).
Definition set_contacts (m : gmap string SyncEntry) (s : SyncMap) : SyncMap :=
  mkSyncMap (lastSyncTime s) (jobs s) m (tasks_ s) (notionToLocal s).
Definition set_tasks (m : gmap string SyncEntry) (s : SyncMap) : SyncMap :=
  mkSyncMap (lastSyncTime s) (jobs s) (contacts_ s) m (notionToLocal s).
Definition set_notionToLocal (m : gmap string ReverseEntry) (s : SyncMap) : SyncMap :=
  mkSyncMap (lastSyncTime s) (jobs s) (contacts_ s) (tasks_ s) m.
Definition set_lastSyncTime (v : jsval) (s : SyncMap) : SyncMap :=
  mkSyncMap v (jobs s) (contacts_ s) (tasks_ s) (notionToLocal s).

(** [data/config.json], once [loadConfig] has accepted it. *)
Record Config := mkConfig {
  apiKey : string;
  db_jobs : jsval;
  db_contacts : jsval;
  db_tasks : jsval;
}.

(** The command-line flags. *)
Record Flags := mkFlags {
  DRY_RUN : bool;
  PULL_ONLY : bool;
  PUSH_ONLY : bool;
  FULL_SYNC : bool;
  APPLY_DELETES : bool;
}.

(* ------------------------------------------------------------------------- *)
(** ** Effects: a state and exception monad over the outside world *)
(* ------------------------------------------------------------------------- *)

(** What a rejected promise or a thrown exception carries. *)
Inductive Error :=
| NotionApiError (statusCode : Z) (message : string)
| ParseFailure (data : string)
| NetworkError
| TypeError
| FsError
| ConfigError
| PageBudgetExhausted.   (* the page budget of the model ran out, see [fetchLoop] *)

(** What the run does that an observer can see: the requests it sends, the
    timers it waits on, and the warning that lists deletion candidates.  The
    other console lines are not modelled. *)
Inductive Event :=
| EvRequest (r : Request)
| EvSleep (ms : Z)
| EvWarnDeletions (entityType : string) (keys : list string).

(** The sync map file in the old flat format maps a local key to a page id;
    an enriched file has the [lastSyncTime] key. *)
Inductive RawValue :=
| RawString (pageId : string)
| RawEntry (entry : SyncEntry).

Record LegacySyncMap := mkLegacy {
  raw_jobs : list (string * RawValue);
  raw_contacts : list (string * RawValue);
  raw_tasks : list (string * RawValue);
}.

Inductive SyncMapFile :=
| Enriched (syncMap : SyncMap)
| Legacy (raw : LegacySyncMap).

(** The JSON files under [data/]; [None] when the file does not exist. *)
Record Disk := mkDisk {
  file_config : option Config;
  file_tracker : option Tracker;
  file_network : option Network;
  file_tasks : option TasksData;
  file_syncmap : option SyncMapFile;
}.

Inductive Res (A : Type) :=
| Ok (a : A)
| Throw (e : Error).
Arguments Ok {A} a.
Arguments Throw {A} e.

(** The variables a pull loop updates: the sync map, the local collection and
    the two counters. *)
Record PullState (L : Type) := mkPull {
  ps_syncMap : SyncMap;
  ps_local : L;
  pulled : nat;
  skipped_count : nat;
}.
Arguments mkPull {L}.
Arguments ps_syncMap {L}.
Arguments ps_local {L}.
Arguments pulled {L}.
Arguments skipped_count {L}.

Section Engine.
Context `{NodeRuntime}.

Record Sys := mkSys {
  world : World;
  trace : list Event;
  disk : Disk;
}.

Definition M (A : Type) : Type := Sys → Res A * Sys.

#[global] Instance M_ret : MRet M := λ A a s, (Ok a, s).
#[global] Instance M_bind : MBind M := λ A B f m s,
  match m s with
  | (Ok a, s') => f a s'
  | (Throw e, s') => (Throw e, s')
  end.

Definition throw {A} (e : Error) : M A := λ s, (Throw e, s).

(** [try { body } catch (err) { handler }] *)
Definition try_catch {A} (body : M A) (handler : Error → M A) : M A := λ s,
  match body s with
  | (Ok a, s') => (Ok a, s')
  | (Throw e, s') => handler e s'
  end.

Definition emit (ev : Event) : M unit := λ s,
  (Ok tt, mkSys (world s) (trace s ++ [ev]) (disk s)).

(** Node's timers run a delay that is not in [1 .. 2^31-1], or is NaN, as a
    delay of 1 ms. *)
Definition timerDelay (ms : option Z) : Z :=
  match ms with
  | Some n => if bool_decide (1 ≤ n ≤ 2147483647) then n else 1
  | None => 1
  end.

(** [await new Promise(r => setTimeout(r, ms))] *)
Definition sleep (ms : option Z) : M unit := λ s,
  (Ok tt, mkSys (setTimeout (timerDelay ms) (world s))
                (trace s ++ [EvSleep (timerDelay ms)]) (disk s)).

(** One exchange with [api.notion.com]. *)
Definition exchange (req : Request) (s : Sys) : HttpOutcome * Sys :=
  let '(out, w) := https_request req (world s) in
  (out, mkSys w (trace s ++ [EvRequest req]) (disk s)).

(** The loop of a [for (const x of xs)] whose body threads a state. *)
Fixpoint for_of {A S} (xs : list A) (body : A → S → M S) (st : S) : M S :=
  match xs with
  | [] => mret st
  | x :: xs => st' ← body x st; for_of xs body st'
  end.

(* ------------------------------------------------------------------------- *)
(** ** Notion API with retry *)
(* ------------------------------------------------------------------------- *)

Definition MAX_RETRIES : nat := 3.

Definition is_white_space (c : ascii) : bool :=
  bool_decide (nat_of_ascii c ∈ [9; 10; 11; 12; 13; 32]%nat).

Definition is_digit (c : ascii) : bool :=
  let n := nat_of_ascii c in (48 <=? n)%nat && (n <=? 57)%nat.

(** The value of the longest prefix of digits, [None] when there is none. *)
Fixpoint leading_digits (acc : option Z) (cs : list ascii) : option Z :=
  match cs with
  | c :: cs =>
      if is_digit c
      then leading_digits (Some (default 0 acc * 10 + Z.of_nat (nat_of_ascii c) - 48)) cs
      else acc
  | [] => acc
  end.

(** [parseInt(s, 10)]; [None] is NaN. *)
Definition parseInt (s : string) : option Z :=
  match drop_while is_white_space (list_ascii_of_string s) with
  | c :: cs =>
      if (nat_of_ascii c =? 45)%nat then Z.opp <$> leading_digits None cs
      else if (nat_of_ascii c =? 43)%nat then leading_digits None cs
      else leading_digits None (c :: cs)
  | [] => None
  end.

(** [res.headers['retry-after'] || '1'] *)
Definition retry_after_header (h : option string) : string :=
  match h with
  | Some v => if String.eqb v EmptyString then "1" else v
  | None => "1"
  end.

(** [retryAfter * 1000 + (attempt + 1) * 500] *)
Definition waitMs (retry_after : option string) (attempt : nat) : option Z :=
  (λ retryAfter, retryAfter * 1000 + (Z.of_nat attempt + 1) * 500)
    <$> parseInt (retry_after_header retry_after).

(** The body of the [end] handler once no retry is due. *)
Definition settle (statusCode : Z) (data : string) (parsed : option NotionJson)
  : Res NotionJson :=
  match parsed with
  | Some json =>
      if bool_decide (400 ≤ statusCode)
      then Throw (NotionApiError statusCode
                    (ToString (res_message json ||| Str data)))
      else Ok json
  | None => Throw (ParseFailure data)
  end.

Equations? notionRequestWithRetry (req : Request) (attempt : nat) (s : Sys)
  : Res NotionJson * Sys by wf (MAX_RETRIES - attempt)%nat lt :=
  notionRequestWithRetry req attempt s with exchange req s := {
    | (RequestError, s1) => (Throw NetworkError, s1)
    | (Response statusCode retry_after data parsed, s1)
        with decide (statusCode = 429 ∧ (attempt < MAX_RETRIES)%nat) := {
        | left _ =>
            notionRequestWithRetry req (attempt + 1)
              (sleep (waitMs retry_after attempt) s1).2
        | right _ => (settle statusCode data parsed, s1) } }.
Proof. lia. Qed.

Definition notionRequest (method endpoint : string) (body : option json)
  (apiKey : string) : M NotionJson :=
  notionRequestWithRetry (mkRequest method endpoint body apiKey) 0.

(* ------------------------------------------------------------------------- *)
(** ** Fetching pages, with pagination *)
(* ------------------------------------------------------------------------- *)

(** The [do ... while (startCursor)] loop of [fetchChangedPages].  The remote
    decides how long it runs, so the model gives it a budget of pages;
    [PageBudgetExhausted] stands for a run that is still fetching. *)
Fixpoint fetchLoop (budget : nat) (dbId : string) (apiKey : string)
  (filter : list (string * json)) (startCursor : jsval) (pages : list Page)
  : M (list Page) :=
  match budget with
  | O => throw PageBudgetExhausted
  | S budget =>
      let body := JObj ([("page_size", JNum 100)] ++ filter
                        ++ (if truthy startCursor
                            then member "start_cursor" startCursor else [])) in
      result ← notionRequest "POST" ("/databases/" +:+ dbId +:+ "/query")
                 (Some body) apiKey;
      let pages := pages ++ res_results result in
      let startCursor :=
        if res_has_more result then res_next_cursor result else Undefined in
      _ ← (if res_has_more result then sleep (Some 350) else mret tt);
      if truthy startCursor
      then fetchLoop budget dbId apiKey filter startCursor pages
      else mret pages
  end.

Definition fetchChangedPages (budget : nat) (dbId apiKey : string) (since : jsval)
  : M (list Page) :=
  let filter :=
    if truthy since
    then [("filter", JObj [("timestamp", JStr "last_edited_time");
                           ("last_edited_time", JObj (member "after" since))])]
    else [] in
  fetchLoop budget dbId apiKey filter Undefined [].

Definition fetchAllPages (budget : nat) (dbId apiKey : string) : M (list Page) :=
  fetchChangedPages budget dbId apiKey Null.


(* ------------------------------------------------------------------------- *)
(** ** String and path helpers of the JavaScript and Node libraries *)
(* ------------------------------------------------------------------------- *)

Definition ascii_is (n : nat) (c : ascii) : bool := (nat_of_ascii c =? n)%nat.

Fixpoint take_while {A} (p : A → bool) (l : list A) : list A :=
  match l with
  | x :: l' => if p x then x :: take_while p l' else []
  | [] => []
  end.

(** [s.split(sep)] for a one-character separator *)
Fixpoint split_chars (sep : nat) (cs : list ascii) : list (list ascii) :=
  match cs with
  | [] => [[]]
  | c :: cs =>
      if ascii_is sep c then [] :: split_chars sep cs
      else match split_chars sep cs with
           | part :: parts => (c :: part) :: parts
           | [] => [[c]]
           end
  end.

Definition split (sep : nat) (s : string) : list string :=
  string_of_list_ascii <$> split_chars sep (list_ascii_of_string s).

(** [s.trim()] *)
Definition trim_chars (cs : list ascii) : list ascii :=
  rev (drop_while is_white_space (rev (drop_while is_white_space cs))).

(** [s.toLowerCase()] *)
Definition toLowerCase_char (c : ascii) : ascii :=
  let n := nat_of_ascii c in
  if (65 <=? n)%nat && (n <=? 90)%nat then ascii_of_nat (n + 32) else c.

(** [s.replace(/\s+/g, '-')] *)
Fixpoint dash_white_space (cs : list ascii) : list ascii :=
  match cs with
  | [] => []
  | c :: cs' =>
      if is_white_space c
      then match cs' with
           | c' :: _ => if is_white_space c' then dash_white_space cs'
                        else ascii_of_nat 45 :: dash_white_space cs'
           | [] => [ascii_of_nat 45]
           end
      else c :: dash_white_space cs'
  end.

(** the class [[a-z0-9-]] *)
Definition is_slug_char (c : ascii) : bool :=
  let n := nat_of_ascii c in
  ((97 <=? n)%nat && (n <=? 122)%nat) || is_digit c || (n =? 45)%nat.

(** [name.toLowerCase().replace(/\s+/g, '-').replace(/[^a-z0-9-]/g, '')] *)
Definition slug (name : string) : string :=
  string_of_list_ascii
    (filter (λ c, is_slug_char c)
       (dash_white_space (toLowerCase_char <$> list_ascii_of_string name))).

Definition slash : nat := 47.

(** [path.basename(p)] of [path.posix] *)
Definition path_basename (p : string) : string :=
  string_of_list_ascii
    (rev (take_while (λ c, negb (ascii_is slash c))
            (drop_while (ascii_is slash) (rev (list_ascii_of_string p))))).

(** [path.dirname(p)] of [path.posix]: scanning from the end down to index 1,
    [end] is the first slash met after a character that is not one. *)
Definition path_dirname (p : string) : string :=
  match list_ascii_of_string p with
  | [] => "."
  | c0 :: rest =>
      let hasRoot := ascii_is slash c0 in
      match drop_while (λ c, negb (ascii_is slash c))
              (drop_while (ascii_is slash) (rev rest)) with
      | [] => if hasRoot then "/" else "."
      | _ :: before =>
          if hasRoot && bool_decide (before = []) then "//"
          else string_of_list_ascii (c0 :: rev before)
      end
  end.

(** [normalizeString]: the segments of a path with [.] and [..] resolved. *)
Fixpoint normalize_segments (allowAboveRoot : bool) (res : list string)
  (segs : list string) : list string :=
  match segs with
  | [] => res
  | seg :: segs =>
      if bool_decide (seg = EmptyString ∨ seg = ".")
      then normalize_segments allowAboveRoot res segs
      else if bool_decide (seg = "..")
      then match rev res with
           | last :: front =>
               if bool_decide (last = "..")
               then normalize_segments allowAboveRoot
                      (if allowAboveRoot then res ++ [".."] else res) segs
               else normalize_segments allowAboveRoot (rev front) segs
           | [] =>
               normalize_segments allowAboveRoot
                 (if allowAboveRoot then [".."] else []) segs
           end
      else normalize_segments allowAboveRoot (res ++ [seg]) segs
  end.

(** [path.normalize(p)] of [path.posix] *)
Definition path_normalize (p : string) : string :=
  let cs := list_ascii_of_string p in
  match cs with
  | [] => "."
  | c :: _ =>
      let isAbsolute := ascii_is slash c in
      let trailingSeparator :=
        match rev cs with c' :: _ => ascii_is slash c' | [] => false end in
      let body := String.concat "/"
                    (normalize_segments (negb isAbsolute) [] (split slash p)) in
      if String.eqb body EmptyString
      then (if isAbsolute then "/" else if trailingSeparator then "./" else ".")
      else (if isAbsolute then "/" else EmptyString) +:+ body
           +:+ (if trailingSeparator then "/" else EmptyString)
  end.

(** [path.join(...paths)] of [path.posix] *)
Definition path_join (paths : list string) : string :=
  let joined := String.concat "/"
                  (filter (λ p, p ≠ EmptyString) paths) in
  if String.eqb joined EmptyString then "." else path_normalize joined.

(* ------------------------------------------------------------------------- *)
(** ** Local -> Notion property converters (push direction) *)
(* ------------------------------------------------------------------------- *)

(** [[{ text: { content: s } }]] *)
Definition text_content (s : string) : json :=
  JArr [JObj [("text", JObj [("content", JStr s)])]].

Definition rich_text (s : string) : json := JObj [("rich_text", text_content s)].
Definition select_name (s : string) : json := JObj [("select", JObj [("name", JStr s)])].
Definition date_start (s : string) : json := JObj [("date", JObj [("start", JStr s)])].

(** [if (v) props[k] = mk(v)] *)
Definition prop_if (k : string) (v : jsval) (mk : string → json) : list (string * json) :=
  if truthy v then [(k, mk (ToString v))] else [].

Definition jobToNotionProperties (job : Job.t) (status : string) : json :=
  JObj ([("Role", JObj [("title", text_content (ToString (Job.role job ||| Str EmptyString)))]);
         ("Company", rich_text (ToString (Job.company job ||| Str EmptyString)));
         ("Status", select_name status);
         ("URL", if truthy (Job.url job)
                 then JObj [("url", JStr (ToString (Job.url job)))]
                 else JObj [("url", JNull)])]
        ++ prop_if "Stage" (Job.stage job) select_name
        ++ prop_if "Next Action" (Job.next job) rich_text
        ++ prop_if "Outcome" (Job.outcome job) select_name
        ++ prop_if "Skip Reason" (Job.reason job) rich_text
        ++ prop_if "Added" (Job.added job) date_start
        ++ prop_if "Updated" (Job.updated job) date_start
        ++ prop_if "Closed" (Job.closed job) date_start
        ++ prop_if "Folder" (Job.folder job) rich_text).

(** [`[${i.date}] ${i.type}: ${i.summary}`] *)
Definition interaction_line (i : Interaction.t) : string :=
  "[" +:+ Interaction.date i +:+ "] " +:+ Interaction.type i +:+ ": "
      +:+ Interaction.summary i.

Definition contactToNotionProperties (contact : Contact.t) : json :=
  JObj ([("Name", JObj [("title", text_content (ToString (Contact.name contact ||| Str EmptyString)))])]
        ++ prop_if "Company" (Contact.company contact) rich_text
        ++ prop_if "Title" (Contact.title contact) rich_text
        ++ prop_if "Email" (Contact.email contact) (λ s, JObj [("email", JStr s)])
        ++ prop_if "LinkedIn" (Contact.linkedin contact) (λ s, JObj [("url", JStr s)])
        ++ prop_if "Source" (Contact.source contact) rich_text
        ++ prop_if "Added" (Contact.added contact) date_start
        ++ match Contact.interactions contact with
           | Some (i :: l) =>
               let notes := String.concat (chr 10) (interaction_line <$> (i :: l)) in
               [("Notes", rich_text (String.substring 0 2000 notes))]
           | _ => []
           end).

Definition taskToNotionProperties (task : Task.t) : json :=
  JObj ([("Task", JObj [("title", text_content (ToString (Task.task task ||| Str EmptyString)))]);
         ("Done", JObj [("checkbox", JBool (strict_eq (Task.status task) "completed"))])]
        ++ prop_if "Due" (Task.due task) date_start
        ++ prop_if "Created" (Task.created task) date_start).

(* ------------------------------------------------------------------------- *)
(** ** Notion -> local property converters (pull direction) *)
(* ------------------------------------------------------------------------- *)

Definition of_option (o : option string) : jsval :=
  match o with
  | Some s => Str s
  | None => Null
  end.

Definition getNotionText (prop : option NotionProp) : string :=
  match prop with
  | Some (PTitle texts) => String.concat EmptyString texts
  | Some (PRichText texts) => String.concat EmptyString texts
  | _ => EmptyString
  end.

Definition getNotionSelect (prop : option NotionProp) : jsval :=
  match prop with
  | Some (PSelect (Some name)) => Str name
  | _ => Null
  end.

Definition getNotionDate (prop : option NotionProp) : jsval :=
  match prop with
  | Some (PDate (Some start)) => Str start ||| Null
  | _ => Null
  end.

Definition getNotionCheckbox (prop : option NotionProp) : bool :=
  match prop with
  | Some (PCheckbox b) => b
  | _ => false
  end.

Definition getNotionUrl (prop : option NotionProp) : jsval :=
  match prop with
  | Some (PUrl u) => of_option u
  | _ => Null
  end.

Definition getNotionEmail (prop : option NotionProp) : jsval :=
  match prop with
  | Some (PEmail e) => of_option e
  | _ => Null
  end.

(** [const x = get(..); if (x) job.x = x]: the property is set when truthy. *)
Definition when_truthy (v : jsval) : jsval := if truthy v then v else Undefined.

Definition notionPropertiesToJob (p : gmap string NotionProp) : Job.t * string :=
  let job :=
    {| Job.company := Str (getNotionText (p !! "Company"));
       Job.role := Str (getNotionText (p !! "Role"));
       Job.url := getNotionUrl (p !! "URL");
       Job.added := getNotionDate (p !! "Added");
       Job.updated := getNotionDate (p !! "Updated");
       Job.stage := when_truthy (getNotionSelect (p !! "Stage"));
       Job.next := when_truthy (Str (getNotionText (p !! "Next Action")));
       Job.outcome := when_truthy (getNotionSelect (p !! "Outcome"));
       Job.reason := when_truthy (Str (getNotionText (p !! "Skip Reason")));
       Job.closed := when_truthy (getNotionDate (p !! "Closed"));
       Job.folder := when_truthy (Str (getNotionText (p !! "Folder"))) |} in
  let status := ToString (getNotionSelect (p !! "Status") ||| Str "Active") in
  (job, status).

(** [new Date().toISOString().slice(0, 10)] *)
Definition today (w : World) : string := String.substring 0 10 (toISOString w).

(* ------------------------------------------------------------------------- *)
(** ** Interaction parsing and merge *)
(* ------------------------------------------------------------------------- *)

(** the class [\w] *)
Definition is_word_char (c : ascii) : bool :=
  let n := nat_of_ascii c in
  ((97 <=? n)%nat && (n <=? 122)%nat) || ((65 <=? n)%nat && (n <=? 90)%nat)
  || is_digit c || (n =? 95)%nat.

(** what [.] does not match *)
Definition is_line_terminator (c : ascii) : bool :=
  let n := nat_of_ascii c in (n =? 10)%nat || (n =? 13)%nat.

(** [\s+(.+)$] on the rest of the line: the white space is taken greedily and
    gives characters back only when nothing is left for the summary. *)
Definition match_summary (cs : list ascii) : option (list ascii) :=
  let ws := take_while is_white_space cs in
  let rest := drop_while is_white_space cs in
  match ws, rest with
  | [], _ => None
  | _ :: _, _ :: _ =>
      if forallb (λ c, negb (is_line_terminator c)) rest then Some rest else None
  | _ :: _, [] =>
      match rev ws with
      | c :: _ :: _ => if is_line_terminator c then None else Some [c]
      | _ => None
      end
  end.

(** [line.match(/^\[(\d{4}-\d{2}-\d{2})\]\s+(\w+):\s+(.+)$/)] *)
Definition match_interaction (cs : list ascii) : option Interaction.t :=
  match cs with
  | lb :: y1 :: y2 :: y3 :: y4 :: h1 :: m1 :: m2 :: h2 :: d1 :: d2 :: rb :: cs =>
      if ascii_is 91 lb && forallb is_digit [y1; y2; y3; y4] && ascii_is 45 h1
         && forallb is_digit [m1; m2] && ascii_is 45 h2 && forallb is_digit [d1; d2]
         && ascii_is 93 rb
      then
        match take_while is_white_space cs, drop_while is_white_space cs with
        | _ :: _, cs1 =>
            match take_while is_word_char cs1, drop_while is_word_char cs1 with
            | (_ :: _) as type, colon :: cs2 =>
                if ascii_is 58 colon
                then (λ summary,
                        {| Interaction.date :=
                             string_of_list_ascii [y1; y2; y3; y4; h1; m1; m2; h2; d1; d2];
                           Interaction.type := string_of_list_ascii type;
                           Interaction.summary := string_of_list_ascii summary;
                           Interaction.linkedJobs := None |})
                     <$> match_summary cs2
                else None
            | _, _ => None
            end
        | [], _ => None
        end
      else None
  | _ => None
  end.

(** Parse [[date] type: summary] lines from the Notes field; only complete
    lines match. *)
Definition parseInteractionsFromNotes (text : string) : list Interaction.t :=
  if String.eqb text EmptyString then []
  else omap (λ line, match_interaction (trim_chars (list_ascii_of_string line)))
            (split 10 text).

(** [`${i.date}|${i.type}|${i.summary}`] *)
Definition interaction_key (i : Interaction.t) : string :=
  Interaction.date i +:+ "|" +:+ Interaction.type i +:+ "|" +:+ Interaction.summary i.

(** [arr.sort(cmp)]: the stable sort of a consistent comparator; [cmp a b ≤ 0]
    keeps [a] before [b]. *)
Fixpoint insert_sorted {A} (cmp : A → A → Z) (x : A) (l : list A) : list A :=
  match l with
  | [] => [x]
  | y :: l' => if bool_decide (cmp x y ≤ 0) then x :: l
               else y :: insert_sorted cmp x l'
  end.

Definition Array_sort {A} (cmp : A → A → Z) (l : list A) : list A :=
  foldr (insert_sorted cmp) [] l.

(** The [for (const interaction of parsed)] loop of [mergeInteractions]. *)
Fixpoint merge_loop (parsed : list Interaction.t) (existingKeys : gset string)
  (merged : list Interaction.t) : list Interaction.t :=
  match parsed with
  | [] => merged
  | interaction :: parsed =>
      let key := interaction_key interaction in
      if bool_decide (key ∈ existingKeys)
      then merge_loop parsed existingKeys merged
      else merge_loop parsed ({[key]} ∪ existingKeys) (merged ++ [interaction])
  end.

(** [(a, b) => a.date.localeCompare(b.date)] *)
Definition by_date (a b : Interaction.t) : Z :=
  localeCompare (Interaction.date a) (Interaction.date b).

(** Append-only merge: add the interactions of the Notes that do not exist
    locally, matched on date, type and summary. *)
Definition mergeInteractions (existing : list Interaction.t) (notesText : string)
  : list Interaction.t :=
  let parsed := parseInteractionsFromNotes notesText in
  match parsed with
  | [] => existing
  | _ :: _ =>
      let existingKeys : gset string := list_to_set (interaction_key <$> existing) in
      Array_sort by_date (merge_loop parsed existingKeys existing)
  end.

Definition notionPropertiesToContact (w : World) (p : gmap string NotionProp)
  (existingContact : option Contact.t) : Contact.t :=
  let existing (f : Contact.t → jsval) : jsval :=
    match existingContact with Some c => f c | None => Undefined end in
  let name := getNotionText (p !! "Name") in
  let id := existing Contact.id ||| Null in
  let interactions :=
    default [] (existingContact ≫= Contact.interactions) in
  let notesText := getNotionText (p !! "Notes") in
  {| Contact.id := if truthy id then id else Str (slug name);
     Contact.name := Str name;
     Contact.company := Str (getNotionText (p !! "Company")) ||| Null;
     Contact.title := Str (getNotionText (p !! "Title")) ||| Null;
     Contact.email := getNotionEmail (p !! "Email") ||| Null;
     Contact.linkedin := getNotionUrl (p !! "LinkedIn") ||| Null;
     Contact.source := Str (getNotionText (p !! "Source")) ||| Null;
     Contact.introducedBy := existing Contact.introducedBy ||| Null;
     Contact.added := getNotionDate (p !! "Added") ||| existing Contact.added
                      ||| Str (today w);
     Contact.interactions :=
       Some (if String.eqb notesText EmptyString then interactions
             else mergeInteractions interactions notesText) |}.

Definition notionPropertiesToTask (w : World) (p : gmap string NotionProp)
  (existingTask : option Task.t) : Task.t :=
  let existing (f : Task.t → jsval) : jsval :=
    match existingTask with Some t => f t | None => Undefined end in
  let done := getNotionCheckbox (p !! "Done") in
  let id := existing Task.id ||| Null in
  {| Task.id := if truthy id then id else Str ("task-" +:+ now_base36 w);
     Task.task := Str (getNotionText (p !! "Task"));
     Task.due := getNotionDate (p !! "Due") ||| Null;
     Task.linkedContacts := Some (default [] (existingTask ≫= Task.linkedContacts));
     Task.linkedJobs := Some (default [] (existingTask ≫= Task.linkedJobs));
     Task.status := Str (if done then "completed" else "pending");
     Task.created := getNotionDate (p !! "Created") ||| existing Task.created
                     ||| Str (today w);
     Task.completed :=
       if done then existing Task.completed ||| Str (today w) else Undefined |}.

(* ------------------------------------------------------------------------- *)
(** ** Job local ID helpers *)
(* ------------------------------------------------------------------------- *)

Definition getJobLocalId (job : Job.t) (status : string) : string :=
  status +:+ ":" +:+ ToString (Job.company job) +:+ ":" +:+ ToString (Job.role job).

(** What [arrayMap[status]] evaluates to, for the object literal
    [{ 'Active': 'active', 'Skipped': 'skipped', 'Closed': 'closed' }]:
    one of its three own properties, a member inherited from
    [Object.prototype] (truthy, and not the name of an array of the tracker),
    or [undefined]. *)
Inductive Lookup :=
| Own (a : ArrayName)
| Inherited
| Missing.

Definition Object_prototype_names : list string :=
  ["constructor"; "__proto__"; "hasOwnProperty"; "isPrototypeOf";
   "propertyIsEnumerable"; "toLocaleString"; "toString"; "valueOf";
   "__defineGetter__"; "__defineSetter__"; "__lookupGetter__";
   "__lookupSetter__"].

Definition arrayMap (status : string) : Lookup :=
  if String.eqb status "Active" then Own active_
  else if String.eqb status "Skipped" then Own skipped_
  else if String.eqb status "Closed" then Own closed_
  else if bool_decide (status ∈ Object_prototype_names) then Inherited
  else Missing.

Record Found := mkFound {
  arrayName : ArrayName;
  index : nat;
  job : Job.t;
}.

(** The [i]-th variable of a destructuring [[a, b, c] = parts]. *)
Definition part (parts : list string) (i : nat) : jsval :=
  match parts !! i with
  | Some s => Str s
  | None => Undefined
  end.

(** Find a job in the tracker by composite key (Status:Company:Role). *)
Definition findJobInTracker (tracker : Tracker) (localKey : string) : option Found :=
  let parts := split 58 localKey in
  let status := part parts 0 in
  let company := part parts 1 in
  let role := part parts 2 in
  match arrayMap (ToString status) with
  | Own arrayName =>
      (λ '(index, job), mkFound arrayName index job)
        <$> list_find (λ j, Job.company j = company ∧ Job.role j = role)
              (bucket tracker arrayName)
  | _ => None
  end.

(** Stage-to-directory mapping for folder moves. *)
Definition stageToDirectory (stage : jsval) (status : string) : string :=
  if bool_decide (status ∈ ["Closed"; "Rejected"; "Withdrew"; "Expired"])
  then "Rejected"
  else if negb (truthy stage) || strict_eq stage "Sourced" then "InProgress"
  else "Applied".

Definition DATA_DIR : string := path_join [script_dirname; ".."; "data"].

(* ------------------------------------------------------------------------- *)
(** ** PULL: Notion -> local *)
(* ------------------------------------------------------------------------- *)

Context (flags : Flags).

(** [skipped++; continue] *)
Definition skip {L} (syncMap : SyncMap) (st : PullState L) : M (PullState L) :=
  mret (mkPull syncMap (ps_local st) (pulled st) (S (skipped_count st))).

Definition get_world : M World := λ s, (Ok (world s), s).

(** An operation of [fs] that changes the folder tree or throws. *)
Definition fs_do (op : World → option World) : M unit := λ s,
  match op (world s) with
  | Some w => (Ok tt, mkSys w (trace s) (disk s))
  | None => (Throw FsError, s)
  end.

(** The lookup that opens each pull loop:
    [reverseEntry = syncMap.notionToLocal[pageId]],
    [existingKey = reverseEntry?.type === type ? reverseEntry.key : null] and
    [syncEntry = existingKey ? entries[existingKey] : null]. *)
Definition existingKey_of (type : string) (syncMap : SyncMap) (pageId : string)
  : option string :=
  match notionToLocal syncMap !! pageId with
  | Some reverseEntry =>
      if String.eqb (rev_type reverseEntry) type then
        match rev_key reverseEntry with
        | Str key => Some key
        | _ => None           (* falsy, and not used as a key *)
        end
      else None
  | None => None
  end.

Definition syncEntry_of (entries : gmap string SyncEntry) (existingKey : option string)
  : option SyncEntry :=
  match existingKey with
  | Some k => if truthy (Str k) then entries !! k else None
  | None => None
  end.

(** [!syncEntry.notionLastEdited || pageEdited > syncEntry.notionLastEdited] *)
Definition notionChanged (syncEntry : SyncEntry) (pageEdited : string) : bool :=
  negb (truthy (notionLastEdited syncEntry))
  || str_gt pageEdited (ToString (notionLastEdited syncEntry)).

(** The folder move of a reclassified job; yields the job to insert. *)
Definition moveFolder (found : option Found) (notionJob : Job.t) (notionStatus : string)
  : M Job.t :=
  let oldDir := match found with Some f => Job.folder (job f) | None => Undefined end in
  let newDirName := stageToDirectory (Job.stage notionJob) notionStatus in
  if truthy (Job.folder notionJob) || truthy oldDir then
    let baseName :=
      path_basename
        (ToString (oldDir ||| Job.folder notionJob
                   ||| Str (ToString (Job.company notionJob) +:+ " - "
                            +:+ ToString (Job.role notionJob)))) in
    let newFolder := path_join ["data"; newDirName; baseName] in
    w ← get_world;
    _ ← (if truthy oldDir
            && fs_existsSync (path_join [DATA_DIR; ".."; ToString oldDir]) w
         then
           let newPath := path_join [DATA_DIR; ".."; newFolder] in
           _ ← fs_do (fs_mkdirSync (path_dirname newPath));
           if bool_decide (ToString oldDir ≠ newFolder)
           then fs_do (fs_renameSync (path_join [DATA_DIR; ".."; ToString oldDir]) newPath)
           else mret tt
         else mret tt);
    mret (Job.set_folder (Str newFolder) notionJob)
  else mret notionJob.

(** [tracker[arrayMap[notionStatus] || 'active'].push(notionJob)]; an
    inherited member is truthy and names no array, so the call throws. *)
Definition push_to_target (notionStatus : string) (notionJob : Job.t) (tracker : Tracker)
  : M Tracker :=
  match arrayMap notionStatus with
  | Own targetArray =>
      mret (set_bucket targetArray (bucket tracker targetArray ++ [notionJob]) tracker)
  | Missing =>
      mret (set_bucket active_ (bucket tracker active_ ++ [notionJob]) tracker)
  | Inherited => throw TypeError
  end.

(** The entry a pulled job gets in [syncMap.jobs]. *)
Definition job_entry (pageId pageEdited : string) (notionJob : Job.t) : SyncEntry :=
  mkEntry (Str pageId) (Str (hashItem (Job.toObject notionJob))) (Str pageEdited)
          (Job.company notionJob) (Job.role notionJob).

(** The body of the [for (const page of pages)] loop of [pullJobs]. *)
Definition pullJobs_page (isBaseline : bool) (page : Page) (st : PullState Tracker)
  : M (PullState Tracker) :=
  let syncMap := ps_syncMap st in
  let tracker := ps_local st in
  let pageId := page_id page in
  let pageEdited := page_last_edited_time page in
  let '(notionJob, notionStatus) := notionPropertiesToJob (page_properties page) in
  let notionLocalKey := getJobLocalId notionJob notionStatus in
  (* Look up by reverse map first (handles status changes in Notion) *)
  let existingKey := existingKey_of "jobs" syncMap pageId in
  match syncEntry_of (jobs syncMap) existingKey, existingKey with
  | Some syncEntry, Some existingKey =>
      let touch :=
        set_jobs (<[existingKey := set_notionLastEdited (Str pageEdited) syncEntry]>
                    (jobs syncMap)) syncMap in
      if isBaseline then
        (* Baseline: record Notion timestamps but don't overwrite local data *)
        skip touch st
      else
        (* Known item: check if both changed *)
        let currentHash := localHash syncEntry in
        if negb (notionChanged syncEntry pageEdited) && negb (FULL_SYNC flags) then
          skip syncMap st
        else
          let conflict :=
            truthy currentHash &&
            match findJobInTracker tracker existingKey with
            | Some found =>
                negb (strict_eq currentHash (hashItem (Job.toObject (job found))))
            | None => false
            end in
          if conflict then
            (* Both changed: local wins, skip pull *)
            skip touch st
          else if DRY_RUN flags then skip syncMap st
          else if bool_decide (existingKey ≠ notionLocalKey) then
            (* Status changed in Notion: move job between arrays *)
            let found := findJobInTracker tracker existingKey in
            let tracker :=
              match found with
              | Some found =>
                  set_bucket (arrayName found)
                    (delete (index found) (bucket tracker (arrayName found))) tracker
              | None => tracker
              end in
            notionJob ← moveFolder found notionJob notionStatus;
            tracker ← push_to_target notionStatus notionJob tracker;
            let syncMap :=
              set_notionToLocal
                (<[pageId := mkReverse "jobs" (Str notionLocalKey)]> (notionToLocal syncMap))
                (set_jobs (<[notionLocalKey := job_entry pageId pageEdited notionJob]>
                             (delete existingKey (jobs syncMap))) syncMap) in
            mret (mkPull syncMap tracker (S (pulled st)) (skipped_count st))
          else
            (* Same status: update in place *)
            let tracker :=
              match findJobInTracker tracker existingKey with
              | Some found =>
                  set_bucket (arrayName found)
                    (<[index found := notionJob]> (bucket tracker (arrayName found)))
                    tracker
              | None => tracker
              end in
            let syncEntry :=
              mkEntry (notionId syncEntry) (Str (hashItem (Job.toObject notionJob)))
                      (Str pageEdited) (entry_company syncEntry) (entry_role syncEntry) in
            mret (mkPull (set_jobs (<[existingKey := syncEntry]> (jobs syncMap)) syncMap)
                         tracker (S (pulled st)) (skipped_count st))
  | _, _ =>
      (* Unknown page: new item from Notion *)
      if isBaseline then skip syncMap st
      else if DRY_RUN flags then skip syncMap st
      else
        w ← get_world;
        let notionJob :=
          if truthy (Job.added notionJob) then notionJob
          else Job.set_added (Str (today w)) notionJob in
        let notionJob :=
          if String.eqb notionStatus "Active" && negb (truthy (Job.updated notionJob))
          then Job.set_updated (Str (today w)) notionJob
          else notionJob in
        tracker ← push_to_target notionStatus notionJob tracker;
        let syncMap :=
          set_notionToLocal
            (<[pageId := mkReverse "jobs" (Str notionLocalKey)]> (notionToLocal syncMap))
            (set_jobs (<[notionLocalKey := job_entry pageId pageEdited notionJob]>
                         (jobs syncMap)) syncMap) in
        mret (mkPull syncMap tracker (S (pulled st)) (skipped_count st))
  end.

(** [FULL_SYNC || isBaseline ? fetchAllPages(..) : fetchChangedPages(.., lastSyncTime)] *)
Definition fetchForPull (budget : nat) (dbId : jsval) (config : Config)
  (syncMap : SyncMap) : M (list Page) :=
  if FULL_SYNC flags || negb (truthy (lastSyncTime syncMap))
  then fetchAllPages budget (ToString dbId) (apiKey config)
  else fetchChangedPages budget (ToString dbId) (apiKey config) (lastSyncTime syncMap).

Definition pullJobs (budget : nat) (config : Config) (syncMap : SyncMap)
  (tracker : Tracker) : M (PullState Tracker) :=
  let dbId := db_jobs config in
  if negb (truthy dbId) then mret (mkPull syncMap tracker 0 0)
  else
    let isBaseline := negb (truthy (lastSyncTime syncMap)) in
    pages ← fetchForPull budget dbId config syncMap;
    for_of pages (pullJobs_page isBaseline) (mkPull syncMap tracker 0 0).

(** [(c.id || c.name) === existingKey] *)
Definition contact_has_key (existingKey : string) (c : Contact.t) : Prop :=
  strict_eq (Contact.id c ||| Contact.name c) existingKey = true.

#[global] Instance contact_has_key_dec k c : Decision (contact_has_key k c).
Proof. unfold contact_has_key. apply _. Defined.

(** The entry a pulled or pushed contact or task gets. *)
Definition plain_entry (notionId : jsval) (hash : string) (edited : jsval) : SyncEntry :=
  mkEntry notionId (Str hash) edited Undefined Undefined.

(** The body of the [for (const page of pages)] loop of [pullContacts]. *)
Definition pullContacts_page (isBaseline : bool) (page : Page)
  (st : PullState (list Contact.t)) : M (PullState (list Contact.t)) :=
  let syncMap := ps_syncMap st in
  let contacts := ps_local st in
  let pageId := page_id page in
  let pageEdited := page_last_edited_time page in
  let existingKey := existingKey_of "contacts" syncMap pageId in
  match syncEntry_of (contacts_ syncMap) existingKey, existingKey with
  | Some syncEntry, Some existingKey =>
      let existingContact := snd <$> list_find (contact_has_key existingKey) contacts in
      let touch :=
        set_contacts (<[existingKey := set_notionLastEdited (Str pageEdited) syncEntry]>
                        (contacts_ syncMap)) syncMap in
      if isBaseline then skip touch st
      else if negb (notionChanged syncEntry pageEdited) && negb (FULL_SYNC flags) then
        skip syncMap st
      else
        (* Check local change *)
        let conflict :=
          truthy (localHash syncEntry) &&
          match existingContact with
          | Some existingContact =>
              negb (strict_eq (localHash syncEntry)
                      (hashItem (Contact.toObject existingContact)))
          | None => false
          end in
        if conflict then skip touch st
        else if DRY_RUN flags then skip syncMap st
        else
          w ← get_world;
          let updated := notionPropertiesToContact w (page_properties page) existingContact in
          let contacts :=
            match list_find (contact_has_key existingKey) contacts with
            | Some (idx, _) => <[idx := updated]> contacts
            | None => contacts
            end in
          let syncEntry :=
            mkEntry (notionId syncEntry) (Str (hashItem (Contact.toObject updated)))
                    (Str pageEdited) (entry_company syncEntry) (entry_role syncEntry) in
          mret (mkPull (set_contacts (<[existingKey := syncEntry]> (contacts_ syncMap)) syncMap)
                       contacts (S (pulled st)) (skipped_count st))
  | _, _ =>
      if isBaseline then skip syncMap st
      else if DRY_RUN flags then skip syncMap st
      else
        w ← get_world;
        let newContact := notionPropertiesToContact w (page_properties page) None in
        let localId := Contact.id newContact ||| Contact.name newContact in
        let syncMap :=
          set_notionToLocal
            (<[pageId := mkReverse "contacts" localId]> (notionToLocal syncMap))
            (set_contacts
               (<[ToString localId := plain_entry (Str pageId)
                               (hashItem (Contact.toObject newContact)) (Str pageEdited)]>
                  (contacts_ syncMap)) syncMap) in
        mret (mkPull syncMap (contacts ++ [newContact]) (S (pulled st)) (skipped_count st))
  end.

Definition pullContacts (budget : nat) (config : Config) (syncMap : SyncMap)
  (network : Network) : M (PullState Network) :=
  let dbId := db_contacts config in
  if negb (truthy dbId) then mret (mkPull syncMap network 0 0)
  else
    let isBaseline := negb (truthy (lastSyncTime syncMap)) in
    pages ← fetchForPull budget dbId config syncMap;
    st ← for_of pages (pullContacts_page isBaseline)
           (mkPull syncMap (contacts network) 0 0);
    (* [network.contacts = contacts] *)
    mret (mkPull (ps_syncMap st) (mkNetwork (ps_local st)) (pulled st) (skipped_count st)).

(** [t.id === existingKey] *)
Definition task_has_key (existingKey : string) (t : Task.t) : Prop :=
  strict_eq (Task.id t) existingKey = true.

#[global] Instance task_has_key_dec k t : Decision (task_has_key k t).
Proof. unfold task_has_key. apply _. Defined.

(** The body of the [for (const page of pages)] loop of [pullTasks]. *)
Definition pullTasks_page (isBaseline : bool) (page : Page)
  (st : PullState (list Task.t)) : M (PullState (list Task.t)) :=
  let syncMap := ps_syncMap st in
  let tasks := ps_local st in
  let pageId := page_id page in
  let pageEdited := page_last_edited_time page in
  let existingKey := existingKey_of "tasks" syncMap pageId in
  match syncEntry_of (tasks_ syncMap) existingKey, existingKey with
  | Some syncEntry, Some existingKey =>
      let existingTask := snd <$> list_find (task_has_key existingKey) tasks in
      let touch :=
        set_tasks (<[existingKey := set_notionLastEdited (Str pageEdited) syncEntry]>
                     (tasks_ syncMap)) syncMap in
      if isBaseline then skip touch st
      else if negb (notionChanged syncEntry pageEdited) && negb (FULL_SYNC flags) then
        skip syncMap st
      else
        let conflict :=
          truthy (localHash syncEntry) &&
          match existingTask with
          | Some existingTask =>
              negb (strict_eq (localHash syncEntry)
                      (hashItem (Task.toObject existingTask)))
          | None => false
          end in
        if conflict then skip touch st
        else if DRY_RUN flags then skip syncMap st
        else
          w ← get_world;
          let updated := notionPropertiesToTask w (page_properties page) existingTask in
          let tasks :=
            match list_find (task_has_key existingKey) tasks with
            | Some (idx, _) => <[idx := updated]> tasks
            | None => tasks
            end in
          let syncEntry :=
            mkEntry (notionId syncEntry) (Str (hashItem (Task.toObject updated)))
                    (Str pageEdited) (entry_company syncEntry) (entry_role syncEntry) in
          mret (mkPull (set_tasks (<[existingKey := syncEntry]> (tasks_ syncMap)) syncMap)
                       tasks (S (pulled st)) (skipped_count st))
  | _, _ =>
      if isBaseline then skip syncMap st
      else if DRY_RUN flags then skip syncMap st
      else
        w ← get_world;
        let newTask := notionPropertiesToTask w (page_properties page) None in
        let localId := Task.id newTask in
        let syncMap :=
          set_notionToLocal
            (<[pageId := mkReverse "tasks" localId]> (notionToLocal syncMap))
            (set_tasks
               (<[ToString localId := plain_entry (Str pageId)
                               (hashItem (Task.toObject newTask)) (Str pageEdited)]>
                  (tasks_ syncMap)) syncMap) in
        mret (mkPull syncMap (tasks ++ [newTask]) (S (pulled st)) (skipped_count st))
  end.

Definition pullTasks (budget : nat) (config : Config) (syncMap : SyncMap)
  (tasksData : TasksData) : M (PullState TasksData) :=
  let dbId := db_tasks config in
  if negb (truthy dbId) then mret (mkPull syncMap tasksData 0 0)
  else
    let isBaseline := negb (truthy (lastSyncTime syncMap)) in
    pages ← fetchForPull budget dbId config syncMap;
    st ← for_of pages (pullTasks_page isBaseline)
           (mkPull syncMap (tasks tasksData) 0 0);
    (* [tasksData.tasks = tasks] *)
    mret (mkPull (ps_syncMap st) (mkTasksData (ps_local st)) (pulled st) (skipped_count st)).

(* ------------------------------------------------------------------------- *)
(** ** Deletion detection and handling *)
(* ------------------------------------------------------------------------- *)

(** [syncMap[entityType] || {}] *)
Definition entries_of (entityType : string) (syncMap : SyncMap) : gmap string SyncEntry :=
  if String.eqb entityType "jobs" then jobs syncMap
  else if String.eqb entityType "contacts" then contacts_ syncMap
  else if String.eqb entityType "tasks" then tasks_ syncMap
  else ∅.

(** [delete syncMap[entityType][key]] *)
Definition delete_entry (entityType key : string) (syncMap : SyncMap) : SyncMap :=
  if String.eqb entityType "jobs" then set_jobs (delete key (jobs syncMap)) syncMap
  else if String.eqb entityType "contacts"
  then set_contacts (delete key (contacts_ syncMap)) syncMap
  else if String.eqb entityType "tasks" then set_tasks (delete key (tasks_ syncMap)) syncMap
  else syncMap.

(** A deletion candidate [{ key, notionId }]. *)
Record Deletion := mkDeletion {
  del_key : string;
  del_notionId : string;
}.

(** Find sync map entries that no longer exist in local data.  The keys of
    the sync map are strings, so [currentLocalKeys.has(key)] looks for the
    string.  The order of [Object.entries] is represented by the order of
    [map_to_list]. *)
Definition detectLocalDeletions (syncMap : SyncMap) (entityType : string)
  (currentLocalKeys : gset jsval) : list Deletion :=
  omap (λ '(key, entry),
          if negb (bool_decide (Str key ∈ currentLocalKeys)) && truthy (notionId entry)
          then Some (mkDeletion key (ToString (notionId entry)))
          else None)
       (map_to_list (entries_of entityType syncMap)).

(** The body of the [for (const { key, notionId } of deletions)] loop. *)
Definition handleDeletions_item (entityType : string) (config : Config) (d : Deletion)
  (syncMap : SyncMap) : M SyncMap :=
  try_catch
    (if DRY_RUN flags then mret syncMap
     else
       _ ← notionRequest "PATCH" ("/pages/" +:+ del_notionId d)
             (Some (JObj [("archived", JBool true)])) (apiKey config);
       (* Clean up sync map *)
       let syncMap :=
         set_notionToLocal (delete (del_notionId d) (notionToLocal syncMap))
           (delete_entry entityType (del_key d) syncMap) in
       _ ← sleep (Some 350);
       mret syncMap)
    (λ err, mret syncMap).

Definition handleDeletions (deletions : list Deletion) (entityType : string)
  (config : Config) (syncMap : SyncMap) : M SyncMap :=
  match deletions with
  | [] => mret syncMap
  | _ :: _ =>
      if APPLY_DELETES flags
      then for_of deletions (handleDeletions_item entityType config) syncMap
      else
        _ ← emit (EvWarnDeletions entityType (del_key <$> deletions));
        mret syncMap
  end.

(* ------------------------------------------------------------------------- *)
(** ** PUSH: local -> Notion (incremental) *)
(* ------------------------------------------------------------------------- *)

(** The variables a push loop updates. *)
Record PushState := mkPush {
  push_syncMap : SyncMap;
  localKeys : gset jsval;      (* the [Set] holds the ids as they are *)
  created : nat;
  updated : nat;
  unchanged : nat;
  errors : nat;
}.

(** [!FULL_SYNC && syncEntry?.localHash === currentHash && syncEntry.notionId] *)
Definition is_unchanged (syncEntry : option SyncEntry) (currentHash : string) : bool :=
  negb (FULL_SYNC flags) &&
  match syncEntry with
  | Some e => strict_eq (localHash e) currentHash && truthy (notionId e)
  | None => false
  end.

(** [syncEntry?.notionId] *)
Definition notionId_of (syncEntry : option SyncEntry) : jsval :=
  match syncEntry with
  | Some e => notionId e
  | None => Undefined
  end.

(** [catch (err) { errors++ }] *)
Definition count_error (st : PushState) (err : Error) : M PushState :=
  mret (mkPush (push_syncMap st) (localKeys st) (created st) (updated st)
               (unchanged st) (S (errors st))).

(** The body of the inner [for (const job of jobs)] loop of [pushJobs]. *)
Definition pushJobs_item (config : Config) (status : string) (job : Job.t)
  (st : PushState) : M PushState :=
  let syncMap := push_syncMap st in
  let localId := getJobLocalId job status in
  let st := mkPush syncMap ({[Str localId]} ∪ localKeys st) (created st) (updated st)
                   (unchanged st) (errors st) in
  let syncEntry := jobs syncMap !! localId in
  let currentHash := hashItem (Job.toObject job) in
  (* Skip if unchanged (unless --full) *)
  if is_unchanged syncEntry currentHash then
    mret (mkPush syncMap (localKeys st) (created st) (updated st)
                 (S (unchanged st)) (errors st))
  else
    let properties := jobToNotionProperties job status in
    let notionId := notionId_of syncEntry in
    try_catch
      (if DRY_RUN flags then mret st
       else if truthy notionId then
         result ← notionRequest "PATCH" ("/pages/" +:+ ToString notionId)
                    (Some (JObj [("properties", properties)])) (apiKey config);
         let entry := mkEntry notionId (Str currentHash) (res_last_edited_time result)
                              (Job.company job) (Job.role job) in
         _ ← sleep (Some 350);
         mret (mkPush (set_jobs (<[localId := entry]> (jobs syncMap)) syncMap)
                      (localKeys st) (created st) (S (updated st))
                      (unchanged st) (errors st))
       else
         result ← notionRequest "POST" "/pages"
                    (Some (JObj [("parent", JObj (member "database_id" (db_jobs config)));
                                 ("properties", properties)])) (apiKey config);
         let entry := mkEntry (res_id result) (Str currentHash)
                              (res_last_edited_time result)
                              (Job.company job) (Job.role job) in
         let syncMap :=
           set_notionToLocal
             (<[ToString (res_id result) := mkReverse "jobs" (Str localId)]>
                (notionToLocal syncMap))
             (set_jobs (<[localId := entry]> (jobs syncMap)) syncMap) in
         _ ← sleep (Some 350);
         mret (mkPush syncMap (localKeys st) (S (created st)) (updated st)
                      (unchanged st) (errors st)))
      (count_error st).

(** The tail of each push: detect deletions and handle them. *)
Definition reconcile (entityType : string) (config : Config) (st : PushState)
  : M PushState :=
  let deletions := detectLocalDeletions (push_syncMap st) entityType (localKeys st) in
  syncMap ← handleDeletions deletions entityType config (push_syncMap st);
  mret (mkPush syncMap (localKeys st) (created st) (updated st)
               (unchanged st) (errors st)).

Definition pushJobs (config : Config) (syncMap : SyncMap) (tracker : Tracker)
  : M SyncMap :=
  if negb (truthy (db_jobs config)) then mret syncMap
  else
    let jobLists := [(active tracker, "Active"); (skipped tracker, "Skipped");
                     (closed tracker, "Closed")] in
    st ← for_of jobLists
           (λ '(jobs, status), for_of jobs (pushJobs_item config status))
           (mkPush syncMap ∅ 0 0 0 0);
    st ← reconcile "jobs" config st;
    mret (push_syncMap st).

(** The body of the [for (const contact of contacts)] loop of [pushContacts]. *)
Definition pushContacts_item (config : Config) (contact : Contact.t)
  (st : PushState) : M PushState :=
  let syncMap := push_syncMap st in
  let localId := Contact.id contact ||| Contact.name contact in
  let st := mkPush syncMap ({[localId]} ∪ localKeys st) (created st) (updated st)
                   (unchanged st) (errors st) in
  let syncEntry := contacts_ syncMap !! ToString localId in
  let currentHash := hashItem (Contact.toObject contact) in
  if is_unchanged syncEntry currentHash then
    mret (mkPush syncMap (localKeys st) (created st) (updated st)
                 (S (unchanged st)) (errors st))
  else
    let properties := contactToNotionProperties contact in
    let notionId := notionId_of syncEntry in
    try_catch
      (if DRY_RUN flags then mret st
       else if truthy notionId then
         result ← notionRequest "PATCH" ("/pages/" +:+ ToString notionId)
                    (Some (JObj [("properties", properties)])) (apiKey config);
         let entry :=
           mkEntry notionId (Str currentHash) (res_last_edited_time result)
                   (default Undefined (entry_company <$> syncEntry))
                   (default Undefined (entry_role <$> syncEntry)) in
         _ ← sleep (Some 350);
         mret (mkPush (set_contacts (<[ToString localId := entry]> (contacts_ syncMap)) syncMap)
                      (localKeys st) (created st) (S (updated st))
                      (unchanged st) (errors st))
       else
         result ← notionRequest "POST" "/pages"
                    (Some (JObj [("parent", JObj (member "database_id" (db_contacts config)));
                                 ("properties", properties)])) (apiKey config);
         let syncMap :=
           set_notionToLocal
             (<[ToString (res_id result) := mkReverse "contacts" localId]>
                (notionToLocal syncMap))
             (set_contacts
                (<[ToString localId := plain_entry (res_id result) currentHash
                                (res_last_edited_time result)]>
                   (contacts_ syncMap)) syncMap) in
         _ ← sleep (Some 350);
         mret (mkPush syncMap (localKeys st) (S (created st)) (updated st)
                      (unchanged st) (errors st)))
      (count_error st).

Definition pushContacts (config : Config) (syncMap : SyncMap) (network : Network)
  : M SyncMap :=
  if negb (truthy (db_contacts config)) then mret syncMap
  else
    st ← for_of (contacts network) (pushContacts_item config)
           (mkPush syncMap ∅ 0 0 0 0);
    st ← reconcile "contacts" config st;
    mret (push_syncMap st).

(** The body of the [for (const task of tasks)] loop of [pushTasks]. *)
Definition pushTasks_item (config : Config) (task : Task.t)
  (st : PushState) : M PushState :=
  let syncMap := push_syncMap st in
  let localId := Task.id task ||| Task.task task in
  let st := mkPush syncMap ({[localId]} ∪ localKeys st) (created st) (updated st)
                   (unchanged st) (errors st) in
  let syncEntry := tasks_ syncMap !! ToString localId in
  let currentHash := hashItem (Task.toObject task) in
  if is_unchanged syncEntry currentHash then
    mret (mkPush syncMap (localKeys st) (created st) (updated st)
                 (S (unchanged st)) (errors st))
  else
    let properties := taskToNotionProperties task in
    let notionId := notionId_of syncEntry in
    try_catch
      (if DRY_RUN flags then mret st
       else if truthy notionId then
         result ← notionRequest "PATCH" ("/pages/" +:+ ToString notionId)
                    (Some (JObj [("properties", properties)])) (apiKey config);
         let entry :=
           mkEntry notionId (Str currentHash) (res_last_edited_time result)
                   (default Undefined (entry_company <$> syncEntry))
                   (default Undefined (entry_role <$> syncEntry)) in
         _ ← sleep (Some 350);
         mret (mkPush (set_tasks (<[ToString localId := entry]> (tasks_ syncMap)) syncMap)
                      (localKeys st) (created st) (S (updated st))
                      (unchanged st) (errors st))
       else
         result ← notionRequest "POST" "/pages"
                    (Some (JObj [("parent", JObj (member "database_id" (db_tasks config)));
                                 ("properties", properties)])) (apiKey config);
         let syncMap :=
           set_notionToLocal
             (<[ToString (res_id result) := mkReverse "tasks" localId]>
                (notionToLocal syncMap))
             (set_tasks
                (<[ToString localId := plain_entry (res_id result) currentHash
                                (res_last_edited_time result)]>
                   (tasks_ syncMap)) syncMap) in
         _ ← sleep (Some 350);
         mret (mkPush syncMap (localKeys st) (S (created st)) (updated st)
                      (unchanged st) (errors st)))
      (count_error st).

Definition pushTasks (config : Config) (syncMap : SyncMap) (tasksData : TasksData)
  : M SyncMap :=
  if negb (truthy (db_tasks config)) then mret syncMap
  else
    st ← for_of (tasks tasksData) (pushTasks_item config)
           (mkPush syncMap ∅ 0 0 0 0);
    st ← reconcile "tasks" config st;
    mret (push_syncMap st).

(* ------------------------------------------------------------------------- *)
(** ** Config and sync map *)
(* ------------------------------------------------------------------------- *)

Definition read_disk : M Disk := λ s, (Ok (disk s), s).

Definition write_disk (f : Disk → Disk) : M unit := λ s,
  (Ok tt, mkSys (world s) (trace s) (f (disk s))).

(** [process.exit(1)] when the file or the API key is missing. *)
Definition loadConfig : M Config :=
  d ← read_disk;
  match file_config d with
  | Some config =>
      if truthy (Str (apiKey config)) then mret config else throw ConfigError
  | None => throw ConfigError
  end.

Definition empty_syncMap : SyncMap := mkSyncMap Null ∅ ∅ ∅ ∅.

(** [migrated[entityType][key] = entry] *)
Definition set_entry (entityType key : string) (entry : SyncEntry) (syncMap : SyncMap)
  : SyncMap :=
  if String.eqb entityType "jobs" then set_jobs (<[key := entry]> (jobs syncMap)) syncMap
  else if String.eqb entityType "contacts"
  then set_contacts (<[key := entry]> (contacts_ syncMap)) syncMap
  else set_tasks (<[key := entry]> (tasks_ syncMap)) syncMap.

Definition migrate_entries (entityType : string) (old : list (string * RawValue))
  (migrated : SyncMap) : SyncMap :=
  foldl (λ migrated '(key, value),
           match value with
           | RawString pageId =>
               (* Old format: value is the Notion page ID *)
               set_notionToLocal
                 (<[pageId := mkReverse entityType (Str key)]> (notionToLocal migrated))
                 (set_entry entityType key (mkEntry (Str pageId) Null Null Undefined Undefined)
                    migrated)
           | RawEntry entry =>
               (* Already enriched entry *)
               let migrated := set_entry entityType key entry migrated in
               if truthy (notionId entry)
               then set_notionToLocal
                      (<[ToString (notionId entry) := mkReverse entityType (Str key)]>
                         (notionToLocal migrated)) migrated
               else migrated
           end)
        migrated old.

(** Migrate a flat sync map to the enriched format; already migrated if the
    [lastSyncTime] key exists (even if null). *)
Definition migrateSyncMap (raw : SyncMapFile) : SyncMap :=
  match raw with
  | Enriched syncMap => syncMap
  | Legacy raw =>
      migrate_entries "tasks" (raw_tasks raw)
        (migrate_entries "contacts" (raw_contacts raw)
           (migrate_entries "jobs" (raw_jobs raw) empty_syncMap))
  end.

Definition loadSyncMap : M SyncMap :=
  d ← read_disk;
  match file_syncmap d with
  | Some raw => mret (migrateSyncMap raw)
  | None => mret empty_syncMap
  end.

Definition saveSyncMap (map : SyncMap) : M unit :=
  write_disk (λ d, mkDisk (file_config d) (file_tracker d) (file_network d)
                          (file_tasks d) (Some (Enriched map))).

(* ------------------------------------------------------------------------- *)
(** ** Schema management *)
(* ------------------------------------------------------------------------- *)

Definition empty_object : json := JObj [].
Definition options (names : list (list (string * json))) : json :=
  JObj [("select", JObj [("options", JArr (JObj <$> names))])].
Definition named (n : string) : list (string * json) := [("name", JStr n)].
Definition coloured (n c : string) : list (string * json) :=
  [("name", JStr n); ("color", JStr c)].

Definition needed_jobs : list (string * json) :=
  [("Company", JObj [("rich_text", empty_object)]);
   ("Status", options [coloured "Active" "green"; coloured "Skipped" "gray";
                       coloured "Closed" "red"]);
   ("Stage", options (named <$> ["Sourced"; "Applied"; "Phone Screen"; "Technical";
                                 "Onsite"; "Offer"; "Negotiating"]));
   ("URL", JObj [("url", empty_object)]);
   ("Next Action", JObj [("rich_text", empty_object)]);
   ("Outcome", options (named <$> ["Rejected"; "Withdrew"; "Accepted"; "Expired"]));
   ("Skip Reason", JObj [("rich_text", empty_object)]);
   ("Added", JObj [("date", empty_object)]);
   ("Updated", JObj [("date", empty_object)]);
   ("Closed", JObj [("date", empty_object)]);
   ("Folder", JObj [("rich_text", empty_object)])].

Definition needed_contacts : list (string * json) :=
  [("Company", JObj [("rich_text", empty_object)]);
   ("Title", JObj [("rich_text", empty_object)]);
   ("Email", JObj [("email", empty_object)]);
   ("LinkedIn", JObj [("url", empty_object)]);
   ("Source", JObj [("rich_text", empty_object)]);
   ("Added", JObj [("date", empty_object)]);
   ("Notes", JObj [("rich_text", empty_object)])].

Definition needed_tasks : list (string * json) :=
  [("Done", JObj [("checkbox", empty_object)]);
   ("Due", JObj [("date", empty_object)]);
   ("Created", JObj [("date", empty_object)])].

(** One of the three blocks of [ensureSchemas]: read the database, rename
    the default title property to [title] when the block does so, and create
    the missing properties. *)
Definition ensureSchema (db : jsval) (title : option string)
  (needed : list (string * json)) (apiKey : string) : M unit :=
  if negb (truthy db) then mret tt
  else
    let endpoint := "/databases/" +:+ ToString db in
    result ← notionRequest "GET" endpoint None apiKey;
    let existing : gset string := list_to_set (res_properties result) in
    existing ←
      match title with
      | Some title =>
          if bool_decide ("Name" ∈ existing) && negb (bool_decide (title ∈ existing))
          then
            _ ← notionRequest "PATCH" endpoint
                  (Some (JObj [("properties",
                                JObj [("Name", JObj [("name", JStr title)])])])) apiKey;
            mret ({[title]} ∪ existing ∖ {["Name"]})
          else mret existing
      | None => mret existing
      end;
    let toCreate := filter (λ kv, kv.1 ∉ existing) needed in
    match toCreate with
    | _ :: _ =>
        _ ← notionRequest "PATCH" endpoint
              (Some (JObj [("properties", JObj toCreate)])) apiKey;
        mret tt
    | [] => mret tt
    end.

Definition ensureSchemas (config : Config) : M unit :=
  _ ← ensureSchema (db_jobs config) (Some "Role") needed_jobs (apiKey config);
  _ ← ensureSchema (db_contacts config) None needed_contacts (apiKey config);
  ensureSchema (db_tasks config) (Some "Task") needed_tasks (apiKey config).

(* ------------------------------------------------------------------------- *)
(** ** Main *)
(* ------------------------------------------------------------------------- *)

(** [saveJSON] of the three local documents. *)
Definition saveLocal (tracker : Tracker) (network : Network) (tasksData : TasksData)
  : M unit :=
  write_disk (λ d, mkDisk (file_config d) (Some tracker) (Some network)
                          (Some tasksData) (file_syncmap d)).

(** What [main] holds in memory when it returns. *)
Record Run := mkRun {
  run_syncMap : SyncMap;
  run_tracker : Tracker;
  run_network : Network;
  run_tasksData : TasksData;
}.

(** The PULL phase of [main]. *)
Definition pullPhase (budget : nat) (config : Config) (r : Run) : M (Run * bool) :=
  if PUSH_ONLY flags then mret (r, false)
  else
    jobPull ← pullJobs budget config (run_syncMap r) (run_tracker r);
    contactPull ← pullContacts budget config (ps_syncMap jobPull) (run_network r);
    taskPull ← pullTasks budget config (ps_syncMap contactPull) (run_tasksData r);
    let totalPulled := (pulled jobPull + pulled contactPull + pulled taskPull)%nat in
    mret (mkRun (ps_syncMap taskPull) (ps_local jobPull) (ps_local contactPull)
                (ps_local taskPull),
          bool_decide (0 < totalPulled)%nat && negb (DRY_RUN flags)).

(** The PUSH phase of [main]. *)
Definition pushPhase (config : Config) (r : Run) : M Run :=
  if PULL_ONLY flags then mret r
  else
    syncMap ← pushJobs config (run_syncMap r) (run_tracker r);
    syncMap ← pushContacts config syncMap (run_network r);
    syncMap ← pushTasks config syncMap (run_tasksData r);
    mret (mkRun syncMap (run_tracker r) (run_network r) (run_tasksData r)).

Definition main (budget : nat) : M Run :=
  config ← loadConfig;
  syncMap ← loadSyncMap;
  _ ← ensureSchemas config;
  (* Load local data *)
  d ← read_disk;
  let tracker := default (mkTracker [] [] []) (file_tracker d) in
  let network := default (mkNetwork []) (file_network d) in
  let tasksData := default (mkTasksData []) (file_tasks d) in
  '(r, localDataChanged) ← pullPhase budget config (mkRun syncMap tracker network tasksData);
  (* Save pulled changes to local files before push *)
  _ ← (if localDataChanged : bool
       then saveLocal (run_tracker r) (run_network r) (run_tasksData r)
       else mret tt);
  r ← pushPhase config r;
  (* Update sync time and save *)
  if DRY_RUN flags then mret r
  else
    w ← get_world;
    let syncMap := set_lastSyncTime (Str (toISOString w)) (run_syncMap r) in
    _ ← saveSyncMap syncMap;
    mret (mkRun syncMap (run_tracker r) (run_network r) (run_tasksData r)).

End Engine.

(* ------------------------------------------------------------------------- *)
(** ** A scripted runtime, to run the model on concrete inputs *)
(* ------------------------------------------------------------------------- *)

(** A remote that answers from a script and then fails, a folder tree that is
    a list of paths, and a clock that stands still. *)
Record ScriptedWorld := mkScripted {
  script : list HttpOutcome;
  folders : list string;
  clock : string;
}.

(** A stand-in for SHA-256: the decimal digits, lowest first, of a
    polynomial checksum of the characters. *)
Definition checksum (s : string) : string :=
  string_of_list_ascii
    (rev (list_ascii_of_string
            (Number_toString
               (foldl (λ acc c, acc * 3 + Z.of_nat (nat_of_ascii c)) 7
                      (list_ascii_of_string s))))).

(** Comparison by code units, as ICU orders ISO dates. *)
Definition compare_code_units (a b : string) : Z :=
  match String.compare a b with
  | Lt => -1
  | Eq => 0
  | Gt => 1
  end.

#[global] Instance scripted_runtime : NodeRuntime := {|
  sha256hex := checksum;
  localeCompare := compare_code_units;
  World := ScriptedWorld;
  https_request := λ _ w,
    match script w with
    | out :: rest => (out, mkScripted rest (folders w) (clock w))
    | [] => (RequestError, w)
    end;
  setTimeout := λ _ w, w;
  fs_existsSync := λ p w, bool_decide (p ∈ folders w);
  fs_mkdirSync := λ p w, Some (mkScripted (script w) (p :: folders w) (clock w));
  fs_renameSync := λ old new w,
    Some (mkScripted (script w) (new :: filter (λ p, p ≠ old) (folders w)) (clock w));
  toISOString := clock;
  now_base36 := λ _, "m2z4k8q1";
  script_dirname := "/home/ariadne/scripts";
|}.

(** A successful response with the given body. *)
Definition ok_response (body : NotionJson) : HttpOutcome :=
  Response 200 None "{}" (Some body).

Definition body_of_page (id edited : string) : NotionJson :=
  mkNotionJson (Str id) (Str edited) [] false Null Undefined [].

Definition body_of_query (pages : list Page) : NotionJson :=
  mkNotionJson Undefined Undefined pages false Null Undefined [].

Definition body_of_database (properties : list string) : NotionJson :=
  mkNotionJson Undefined Undefined [] false Null Undefined properties.

Definition rate_limited (retry_after : option string) : HttpOutcome :=
  Response 429 retry_after "{}"
    (Some (mkNotionJson Undefined Undefined [] false Null (Str "Rate limited") [])).

(* ------------------------------------------------------------------------- *)
(** ** Concrete inputs used by the examples below *)
(* ------------------------------------------------------------------------- *)

Definition no_flags : Flags := mkFlags false false false false false.
Definition dry_run_flags : Flags := mkFlags true false false false false.
Definition apply_deletes_flags : Flags := mkFlags false false false false true.

Definition all_databases : Config := mkConfig "secret_key" (Str "db-jobs") (Str "db-contacts") (Str "db-tasks").
Definition jobs_only : Config := mkConfig "secret_key" (Str "db-jobs") Null Null.
Definition tasks_only : Config := mkConfig "secret_key" Null Null (Str "db-tasks").

Definition no_files : Disk := mkDisk None None None None None.

(** A system whose remote answers with [script]. *)
Definition scripted (script : list HttpOutcome) (d : Disk) : Sys :=
  mkSys (mkScripted script [] "2026-03-02T12:00:00.000Z") [] d.

(** A contact with one logged interaction. *)
Definition jane (summary : string) : Contact.t :=
  {| Contact.id := Str "jane-doe"; Contact.name := Str "Jane Doe";
     Contact.company := Str "Acme"; Contact.title := Null; Contact.email := Null;
     Contact.linkedin := Null; Contact.source := Null; Contact.introducedBy := Null;
     Contact.added := Str "2026-01-20";
     Contact.interactions :=
       Some [Interaction.mk "2026-01-26" "email" summary None] |}.

Definition plain_job (company role : string) : Job.t :=
  Job.mk (Str company) (Str role) Null Null Null
         Undefined Undefined Undefined Undefined Undefined Undefined.

Definition plain_task (id text : string) : Task.t :=
  Task.mk (Str id) (Str text) Null (Some []) (Some []) (Str "pending")
          (Str "2026-02-01") Undefined.

(** The page of a job, with its three identifying properties. *)
Definition job_page (id edited company role : string) (status : option string) : Page :=
  mkPage id edited
    (<["Company" := PRichText [company]]>
       (<["Role" := PTitle [role]]> {["Status" := PSelect status]})).

(** The requests of a trace. *)
Definition requests (t : list Event) : list Request :=
  omap (λ ev, match ev with EvRequest r => Some r | _ => None end) t.

(* ------------------------------------------------------------------------- *)
(** * Vocabulary of the verification: predicates and scenarios *)
(* ------------------------------------------------------------------------- *)

(** ** Vocabulary: the pull loop, one page at a time *)

(** The page is a known item: the reverse index maps it to the local key [k]
    of the given entity type and [entries] holds the entry [e] under [k]. *)
Definition known (type : string) (entries : gmap string SyncEntry) (syncMap : SyncMap)
  (page : Page) (k : string) (e : SyncEntry) : Prop :=
  existingKey_of type syncMap (page_id page) = Some k ∧
  syncEntry_of entries (Some k) = Some e.

(** [e] with the edit time of [page], and nothing else changed. *)
Definition acknowledge (page : Page) (e : SyncEntry) : SyncEntry :=
  set_notionLastEdited (Str (page_last_edited_time page)) e.


(** A stale entry of a job whose stored hash is [hash], and the state around it. *)
Definition c1_local : Job.t := Job.set_updated (Str "2026-03-01") (plain_job "Acme" "Engineer").
Definition c1_page : Page :=
  job_page "page-1" "2026-03-02T09:00:00.000Z" "Acme" "Engineer" (Some "Active").

(** ** Vocabulary: remote-only changes of a job *)

(** No conflict is detected for the item: no hash is stored, or the local
    record is not found under the stored key, or it still has the stored
    hash. *)
Definition no_conflict `{NodeRuntime} (tracker : Tracker) (k : string) (e : SyncEntry) : Prop :=
  truthy (localHash e) = false ∨
  match findJobInTracker tracker k with
  | Some found => localHash e = Str (hashItem (Job.toObject (job found)))
  | None => True
  end.

(** The tracker without the job that [findJobInTracker] found. *)
Definition without (found : option Found) (tracker : Tracker) : Tracker :=
  match found with
  | Some found =>
      set_bucket (arrayName found)
        (delete (index found) (bucket tracker (arrayName found))) tracker
  | None => tracker
  end.

(** The sync map after a reclassification of the page from [k] to [k']. *)
Definition rekeyed `{NodeRuntime} (page : Page) (k k' : string) (notionJob : Job.t)
  (syncMap : SyncMap) : SyncMap :=
  set_notionToLocal
    (<[page_id page := mkReverse "jobs" (Str k')]> (notionToLocal syncMap))
    (set_jobs (<[k' := job_entry (page_id page) (page_last_edited_time page) notionJob]>
                 (delete k (jobs syncMap))) syncMap).

(** A job whose company name holds a colon, in sync with its page. *)
Definition c6_local : Job.t := plain_job "Re:Build" "Engineer".
Definition c6_key : string := "Active:Re:Build:Engineer".
Definition c6_state `{NodeRuntime} : PullState Tracker :=
  mkPull
    (mkSyncMap (Str "2026-03-01T00:00:00.000Z")
       {[c6_key :=
           mkEntry (Str "page-7") (Str (hashItem (Job.toObject c6_local)))
                   (Str "2026-03-01T00:00:00.000Z") (Str "Re:Build") (Str "Engineer")]}
       ∅ ∅ {["page-7" := mkReverse "jobs" (Str c6_key)]})
    (mkTracker [c6_local] [] []) 0 0.
(** Its page, after the status was set to Closed in Notion. *)
Definition c6_page : Page :=
  job_page "page-7" "2026-03-02T09:00:00.000Z" "Re:Build" "Engineer" (Some "Closed").

(** ** Vocabulary: what a computation leaves alone *)

(** [m] writes no file, and a value it returns satisfies [Q]. *)
Definition leaves_disk `{NodeRuntime} {A} (m : M A) (Q : A → Prop) : Prop :=
  ∀ s r s', m s = (r, s') → disk s' = disk s ∧ ∀ a, r = Ok a → Q a.

(** ** Vocabulary: pulls that only acknowledge edit times *)

(** The two dictionaries have the same keys, and the entries under a key
    differ at most in [notionLastEdited]. *)
Definition same_but_edit_time (a b : gmap string SyncEntry) : Prop :=
  ∀ k, match a !! k, b !! k with
       | Some e, Some e' => e' = set_notionLastEdited (notionLastEdited e') e
       | None, None => True
       | _, _ => False
       end.

(** The sync map [m'] is [m] up to the edit times of its entries: same
    watermark, same reverse index, same keys, same [notionId], [localHash],
    [company] and [role] under each key. *)
Definition edit_times_only (m m' : SyncMap) : Prop :=
  lastSyncTime m' = lastSyncTime m ∧
  notionToLocal m' = notionToLocal m ∧
  same_but_edit_time (jobs m) (jobs m') ∧
  same_but_edit_time (contacts_ m) (contacts_ m') ∧
  same_but_edit_time (tasks_ m) (tasks_ m').

(** What such a pull step keeps: the local collection, the count of pulled
    items, and the sync map up to edit times. *)
Definition pull_inv {L} (st st' : PullState L) : Prop :=
  ps_local st' = ps_local st ∧
  pulled st' = pulled st ∧
  edit_times_only (ps_syncMap st) (ps_syncMap st').

(** The pull phase, in memory, changed at most edit times: nothing is to be
    saved, the three local documents are as before and the sync map is the
    same up to edit times. *)
Definition acknowledged (r : Run) (outcome : Run * bool) : Prop :=
  outcome.2 = false ∧
  run_tracker outcome.1 = run_tracker r ∧
  run_network outcome.1 = run_network r ∧
  run_tasksData outcome.1 = run_tasksData r ∧
  edit_times_only (run_syncMap r) (run_syncMap outcome.1).

(** Dry-run or baseline: the mode in which a pull only acknowledges. *)
Definition acknowledging (flags : Flags) (syncMap : SyncMap) : Prop :=
  DRY_RUN flags = true ∨ truthy (lastSyncTime syncMap) = false.

(** ** Vocabulary: a dry run *)

(** What [main] loads from the files [d]. *)
Definition loaded (d : Disk) : Run :=
  mkRun (match file_syncmap d with
         | Some raw => migrateSyncMap raw
         | None => empty_syncMap
         end)
        (default (mkTracker [] [] []) (file_tracker d))
        (default (mkNetwork []) (file_network d))
        (default (mkTasksData []) (file_tasks d)).

(** Started on the files [d], [m] ends on the files [d], and a value it
    returns satisfies [Q]. *)
Definition on_disk `{NodeRuntime} {A} (d : Disk) (m : M A) (Q : A → Prop) : Prop :=
  ∀ s r s', disk s = d → m s = (r, s') → disk s' = d ∧ ∀ a, r = Ok a → Q a.

(** A first run after an upgrade from the flat sync map: one job, mapped to
    its page, and a remote that describes the database and answers the query
    with that page and with a page that is not mapped. *)
Definition legacy_files : Disk :=
  mkDisk (Some jobs_only) (Some (mkTracker [c1_local] [] [])) None None
         (Some (Legacy (mkLegacy [("Active:Acme:Engineer", RawString "page-1")] [] []))).

Definition first_run_script : list HttpOutcome :=
  [ok_response (body_of_database ("Role" :: needed_jobs.*1));
   ok_response (body_of_query
                  [c1_page;
                   job_page "page-2" "2026-03-02T10:00:00.000Z" "Globex" "Analyst"
                            (Some "Active")])].

(** ** Vocabulary: the baseline pull *)

(** What a baseline step does with one page: for a known key it stores the
    edit time of the page in the entry, for an unknown key it changes
    nothing; either way it only counts the page as skipped. *)
Definition baseline_step `{NodeRuntime} {L} (type : string)
  (entries : SyncMap → gmap string SyncEntry)
  (set_entries : gmap string SyncEntry → SyncMap → SyncMap)
  (step : Page → PullState L → M (PullState L)) : Prop :=
  ∀ page st s,
    (∀ k e,
       known type (entries (ps_syncMap st)) (ps_syncMap st) page k e →
       step page st s
       = (Ok (mkPull (set_entries (<[k := acknowledge page e]> (entries (ps_syncMap st)))
                        (ps_syncMap st))
                     (ps_local st) (pulled st) (S (skipped_count st))), s)) ∧
    (syncEntry_of (entries (ps_syncMap st))
       (existingKey_of type (ps_syncMap st) (page_id page)) = None →
     step page st s
     = (Ok (mkPull (ps_syncMap st) (ps_local st) (pulled st) (S (skipped_count st))), s)).

(** ** Vocabulary: deletion handling *)

(** The request that archives the page of a deletion candidate. *)
Definition archive `{NodeRuntime} (config : Config) (d : Deletion) : M NotionJson :=
  notionRequest "PATCH" ("/pages/" +:+ del_notionId d)
    (Some (JObj [("archived", JBool true)])) (apiKey config).

(** The sync map without the entry and the reverse-index entry of [d]. *)
Definition forgotten (entityType : string) (d : Deletion) (syncMap : SyncMap) : SyncMap :=
  set_notionToLocal (delete (del_notionId d) (notionToLocal syncMap))
    (delete_entry entityType (del_key d) syncMap).

(** A sync map that still maps a job that is gone from the tracker. *)
Definition c7_syncMap : SyncMap :=
  mkSyncMap (Str "2026-03-01T00:00:00.000Z")
    {["Active:Initech:Analyst" :=
        mkEntry (Str "page-3") (Str "0123456789abcdef") (Str "2026-02-20T00:00:00.000Z")
                (Str "Initech") (Str "Analyst")]}
    ∅ ∅ {["page-3" := mkReverse "jobs" (Str "Active:Initech:Analyst")]}.

(** ** Vocabulary: pushing twice *)

(** The entry under [localId] stores the hash [hash] and a remote id. *)
Definition synced (entries : gmap string SyncEntry) (localId hash : string) : Prop :=
  ∃ e, entries !! localId = Some e ∧ localHash e = Str hash ∧ truthy (notionId e) = true.

(** [unchanged++; continue], with the key noted in [localKeys]. *)
Definition counted_unchanged (localId : jsval) (st : PushState) : PushState :=
  mkPush (push_syncMap st) ({[localId]} ∪ localKeys st) (created st) (updated st)
         (S (unchanged st)) (errors st).

(** The local keys of the three loops. *)
Definition task_key (task : Task.t) : jsval := Task.id task ||| Task.task task.
Definition contact_key (contact : Contact.t) : jsval :=
  Contact.id contact ||| Contact.name contact.
Definition job_key (item : Job.t * string) : jsval := Str (getJobLocalId item.1 item.2).

(** The jobs of the tracker with their status, in the order [pushJobs] meets them. *)
Definition job_items (tracker : Tracker) : list (Job.t * string) :=
  ((λ job, (job, "Active")) <$> active tracker)
  ++ ((λ job, (job, "Skipped")) <$> skipped tracker)
  ++ ((λ job, (job, "Closed")) <$> closed tracker).

(** What the three push loops have in common, for a loop over records of
    type [A] with the given key and hash, whose entries are [entries] of the
    sync map: the body of the loop never throws; it leaves the entries under
    other keys alone; when it counts the record as created or updated in a
    run that is not a dry run, the entry stores the current hash, and after
    an update a remote id; and when the entry is [synced] and the run is not
    a full resync, it only counts the record as unchanged, and sends
    nothing. *)
Record push_step `{NodeRuntime} (flags : Flags) {A} (entries : SyncMap → gmap string SyncEntry)
  (key : A → jsval) (hash : A → string) (step : A → PushState → M PushState) : Prop := {
  step_total x st s : ∃ st' s', step x st s = (Ok st', s');
  step_frame x st s st' s' k :
    step x st s = (Ok st', s') → k ≠ ToString (key x) →
    entries (push_syncMap st') !! k = entries (push_syncMap st) !! k;
  step_stores x st s st' s' :
    DRY_RUN flags = false →
    step x st s = (Ok st', s') →
    (created st' + updated st')%nat ≠ (created st + updated st)%nat →
    ∃ e, entries (push_syncMap st') !! ToString (key x) = Some e ∧
         localHash e = Str (hash x) ∧
         (updated st' ≠ updated st → truthy (notionId e) = true);
  step_skips x st s :
    FULL_SYNC flags = false →
    synced (entries (push_syncMap st)) (ToString (key x)) (hash x) →
    step x st s = (Ok (counted_unchanged (key x) st), s);
}.

(** Scenario A of the specification: a job without entry is pushed, which
    creates its page; the sync map that this push returns is pushed again. *)
Definition scenario_A_tracker : Tracker := mkTracker [plain_job "Acme" "Engineer"] [] [].

(** ** Vocabulary: retry on a capacity-exceeded response *)

(** How many requests the system has sent. *)
Definition sent `{NodeRuntime} (s : Sys) : nat := length (requests (trace s)).

(** The delays of the timers the system has waited on. *)
Definition waits `{NodeRuntime} (s : Sys) : list Z :=
  omap (λ ev, match ev with EvSleep ms => Some ms | _ => None end) (trace s).



(** ** Vocabulary: the merge of interactions *)

(** Each interaction is at most as late as the next one, in the order of
    [localeCompare] on the dates. *)
Definition date_ascending `{NodeRuntime} (l : list Interaction.t) : Prop :=
  Sorted (λ a b, by_date a b ≤ 0) l.

(** Two interactions, the later one first. *)
Definition c5_existing : list Interaction.t :=
  [Interaction.mk "2026-02-01" "call" "Discussed referral" None;
   Interaction.mk "2026-01-05" "email" "Sent resume" None].

(** ** Vocabulary: the canonical form and the interaction log *)

(** A date of the shape [dddd-dd-dd]. *)
Definition is_iso_date (s : string) : bool :=
  match list_ascii_of_string s with
  | [y1; y2; y3; y4; h1; m1; m2; h2; d1; d2] =>
      forallb is_digit [y1; y2; y3; y4; m1; m2; d1; d2] && ascii_is 45 h1 && ascii_is 45 h2
  | _ => false
  end.

(** A summary that fits on a line of the Notes: ASCII, not empty, without
    line terminator, and without white space at either end. *)
Definition is_summary (cs : list ascii) : bool :=
  match cs, rev cs with
  | first :: _, last :: _ =>
      negb (is_white_space first) && negb (is_white_space last)
      && forallb (λ c, negb (is_line_terminator c) && (nat_of_ascii c <? 128)%nat) cs
  | _, _ => false
  end.

(** An interaction that a line of the Notes can hold: what the pattern of
    [parseInteractionsFromNotes] matches. *)
Definition loggable (i : Interaction.t) : Prop :=
  is_iso_date (Interaction.date i) = true ∧
  Interaction.type i ≠ EmptyString ∧
  forallb is_word_char (list_ascii_of_string (Interaction.type i)) = true ∧
  is_summary (list_ascii_of_string (Interaction.summary i)) = true.

(** The interaction as the Notes hold it: without its links to jobs. *)
Definition logged (i : Interaction.t) : Interaction.t :=
  Interaction.mk (Interaction.date i) (Interaction.type i) (Interaction.summary i) None.

(** No colon in the string. *)
Definition colon_free (s : string) : Prop :=
  forallb (λ c, negb (ascii_is 58 c)) (list_ascii_of_string s) = true.

(** ** Vocabulary: the migration of a flat sync map *)

(** The entry that [migrateSyncMap] makes of a value of the flat file. *)
Definition migrated_entry (value : RawValue) : SyncEntry :=
  match value with
  | RawString pageId => mkEntry (Str pageId) Null Null Undefined Undefined
  | RawEntry entry => entry
  end.

(** The page id that a value of the flat file names, if any. *)
Definition raw_page_id (value : RawValue) : option string :=
  match value with
  | RawString pageId => Some pageId
  | RawEntry entry => if truthy (notionId entry) then Some (ToString (notionId entry)) else None
  end.

(** The three dictionaries of a flat file, with their entity types. *)
Definition legacy_files_of (raw : LegacySyncMap) : list (string * list (string * RawValue)) :=
  [("jobs", raw_jobs raw); ("contacts", raw_contacts raw); ("tasks", raw_tasks raw)].

Definition entity_type (type : string) : Prop := type ∈ ["jobs"; "contacts"; "tasks"].

(** A flat file with a job and a contact. *)
Definition flat_file : LegacySyncMap :=
  mkLegacy [("Active:Acme:Engineer", RawString "page-1")]
           [("jane-doe", RawString "page-2")] [].

(** ** Vocabulary: what a run sends and writes *)

(** Whatever [m] does, it writes no file, and the requests it sends all
    satisfy [P]. *)
Definition tame `{NodeRuntime} {A} (P : Request → Prop) (m : M A) : Prop :=
  ∀ s r s', m s = (r, s') →
    disk s' = disk s ∧
    ∃ sent, requests (trace s') = requests (trace s) ++ sent ∧ Forall P sent.

(** [m] returns: it does not throw. *)
Definition returns `{NodeRuntime} {A} (m : M A) : Prop :=
  ∀ s, ∃ a s', m s = (Ok a, s').

(** The query of one page of results of the database [dbId]. *)
Definition is_query (apiKey dbId : string) (r : Request) : Prop :=
  req_method r = "POST" ∧ req_path r = "/databases/" +:+ dbId +:+ "/query" ∧
  req_bearer r = apiKey.

(** A read or an update of the schema of the database [dbId]. *)
Definition is_schema_request (apiKey dbId : string) (r : Request) : Prop :=
  req_method r ∈ ["GET"; "PATCH"] ∧ req_path r = "/databases/" +:+ dbId ∧
  req_bearer r = apiKey.

(** The creation of a page, or the update of a page (which archives it when
    the body says so). *)
Definition is_page_write (apiKey : string) (r : Request) : Prop :=
  ((req_method r = "POST" ∧ req_path r = "/pages")
   ∨ (req_method r = "PATCH" ∧ ∃ pageId, req_path r = "/pages/" +:+ pageId)) ∧
  req_bearer r = apiKey.

(** The database ids of the configuration. *)
Definition databases (config : Config) : list string :=
  omap (λ db, if truthy db then Some (ToString db) else None)
       [db_jobs config; db_contacts config; db_tasks config].

(** A query of one of the configured databases. *)
Definition queries (config : Config) (r : Request) : Prop :=
  ∃ dbId, dbId ∈ databases config ∧ is_query (apiKey config) dbId r.

(** A read or an update of the schema of one of the configured databases. *)
Definition schema_requests (config : Config) (r : Request) : Prop :=
  ∃ dbId, dbId ∈ databases config ∧ is_schema_request (apiKey config) dbId r.


(** The update of the page [pageId] with the given properties. *)
Definition page_update (apiKey : string) (pageId : jsval) (properties : json) : Request :=
  mkRequest "PATCH" ("/pages/" +:+ ToString pageId)
            (Some (JObj [("properties", properties)])) apiKey.

(** The creation of a page with the given properties in the database [db]. *)
Definition page_creation (apiKey : string) (db : jsval) (properties : json) : Request :=
  mkRequest "POST" "/pages"
            (Some (JObj [("parent", JObj (member "database_id" db));
                         ("properties", properties)])) apiKey.

(** What a step of a push loop sends for a record whose entry is [entry]:
    the update of its page when the entry has a page id, the creation of a
    page otherwise. *)
Definition push_request (apiKey : string) (db : jsval) (entry : option SyncEntry)
  (properties : json) : Request :=
  match entry with
  | Some e => if truthy (notionId e) then page_update apiKey (notionId e) properties
              else page_creation apiKey db properties
  | None => page_creation apiKey db properties
  end.

(** The step keeps the page id of the entry under [key]. *)
Definition keeps_page_id (entries : SyncMap → gmap string SyncEntry) (key : string)
  (st st' : PushState) : Prop :=
  ∀ e, entries (push_syncMap st) !! key = Some e → truthy (notionId e) = true →
       ∃ e', entries (push_syncMap st') !! key = Some e' ∧ notionId e' = notionId e.

(** [skipped++], and nothing else. *)
Definition skipped_once {L} (st : PullState L) : PullState L :=
  mkPull (ps_syncMap st) (ps_local st) (pulled st) (S (skipped_count st)).


(** A first run on one local job: the remote describes a complete schema,
    answers the query with no page and creates the page of the job. *)
Definition first_push : Sys :=
  scripted [ok_response (body_of_database ("Role" :: needed_jobs.*1));
            ok_response (body_of_query []);
            ok_response (body_of_page "page-1" "2026-03-02T12:00:01.000Z")]
           (mkDisk (Some jobs_only) (Some scenario_A_tracker) None None None).

(** A retry-after header that holds a date. *)
Definition http_date : string := "Wed, 21 Oct 2026 07:28:00 GMT".

(** ** Vocabulary: what a query asks for *)

(** The query has no filter: it asks for every page of the database. *)
Definition asks_for_all (r : Request) : Prop :=
  ∃ members, req_body r = Some (JObj members) ∧ assoc "filter" members = None.

(** The query asks for the pages edited after [since]. *)
Definition asks_for_edits_after (since : string) (r : Request) : Prop :=
  ∃ members,
    req_body r = Some (JObj members) ∧
    assoc "filter" members
    = Some (JObj [("timestamp", JStr "last_edited_time");
                  ("last_edited_time", JObj [("after", JStr since)])]).

(** The contact with another interaction log. *)
Definition with_interactions (l : list Interaction.t) (c : Contact.t) : Contact.t :=
  Contact.mk (Contact.id c) (Contact.name c) (Contact.company c) (Contact.title c)
             (Contact.email c) (Contact.linkedin c) (Contact.source c)
             (Contact.introducedBy c) (Contact.added c) (Some l).

(** ** Vocabulary: what a step leaves alone *)

(** The sync maps agree on the watermark and on the dictionaries of the
    entity types other than [type]. *)
Definition same_elsewhere (type : string) (m m' : SyncMap) : Prop :=
  lastSyncTime m' = lastSyncTime m ∧
  ∀ type', type' ∈ ["jobs"; "contacts"; "tasks"] → type' ≠ type →
           entries_of type' m' = entries_of type' m.

(** The page of [entry] is known to a pull of the entity type [type]: the
    reverse index leads from the id of the page to the key [key], and the
    dictionary of the type holds [entry] under that key. *)
Definition known_page (type : string) (syncMap : SyncMap) (key : string)
  (entry : SyncEntry) : Prop :=
  existingKey_of type syncMap (ToString (notionId entry)) = Some key ∧
  syncEntry_of (entries_of type syncMap) (Some key) = Some entry.

(* ------------------------------------------------------------------------- *)
(** ** Verification: the canonical hash *)
(* ------------------------------------------------------------------------- *)

(** C2.  Two contacts that differ in the summary of an interaction have the
    same canonical hash, whatever the digest: the array replacer that sorts
    the keys of the record is also the allowlist for the keys of every nested
    object, so an interaction is serialised as an empty object. *)
Theorem hashItem_blind_to_interaction_summary `{NodeRuntime} :
  jane "Sent resume" ≠ jane "Discussed referral" ∧
  hashItem (Contact.toObject (jane "Sent resume"))
  = hashItem (Contact.toObject (jane "Discussed referral")).
Proof.
  split; [discriminate |].
  unfold hashItem. do 2 f_equal.
Qed.

(* ------------------------------------------------------------------------- *)
(** ** Verification: the pull loop, one page at a time *)
(* ------------------------------------------------------------------------- *)

Section PullPages.
Context `{NodeRuntime} (flags : Flags).

Lemma known_lookup type entries syncMap page k e :
  known type entries syncMap page k e →
  syncEntry_of entries (existingKey_of type syncMap (page_id page)) = Some e ∧
  existingKey_of type syncMap (page_id page) = Some k.
Proof. intros [-> ->]. done. Qed.

(** Baseline, known key: only the edit time of the entry is recorded. *)
Lemma pullJobs_page_baseline_known page st k e :
  known "jobs" (jobs (ps_syncMap st)) (ps_syncMap st) page k e →
  pullJobs_page flags true page st
  = skip (set_jobs (<[k := acknowledge page e]> (jobs (ps_syncMap st))) (ps_syncMap st)) st.
Proof.
  intros [He Hk]%known_lookup. unfold pullJobs_page.
  destruct (notionPropertiesToJob _) as [notionJob notionStatus].
  rewrite He, Hk. done.
Qed.

(** Baseline, unknown key: the page is skipped. *)
Lemma pullJobs_page_baseline_unknown page st :
  syncEntry_of (jobs (ps_syncMap st))
    (existingKey_of "jobs" (ps_syncMap st) (page_id page)) = None →
  pullJobs_page flags true page st = skip (ps_syncMap st) st.
Proof.
  intros He. unfold pullJobs_page.
  destruct (notionPropertiesToJob _) as [notionJob notionStatus].
  by rewrite He.
Qed.

Lemma pullContacts_page_baseline_known page st k e :
  known "contacts" (contacts_ (ps_syncMap st)) (ps_syncMap st) page k e →
  pullContacts_page flags true page st
  = skip (set_contacts (<[k := acknowledge page e]> (contacts_ (ps_syncMap st)))
            (ps_syncMap st)) st.
Proof.
  intros [He Hk]%known_lookup. unfold pullContacts_page. rewrite He, Hk. done.
Qed.

Lemma pullContacts_page_baseline_unknown page st :
  syncEntry_of (contacts_ (ps_syncMap st))
    (existingKey_of "contacts" (ps_syncMap st) (page_id page)) = None →
  pullContacts_page flags true page st = skip (ps_syncMap st) st.
Proof.
  intros He. unfold pullContacts_page. by rewrite He.
Qed.

Lemma pullTasks_page_baseline_known page st k e :
  known "tasks" (tasks_ (ps_syncMap st)) (ps_syncMap st) page k e →
  pullTasks_page flags true page st
  = skip (set_tasks (<[k := acknowledge page e]> (tasks_ (ps_syncMap st)))
            (ps_syncMap st)) st.
Proof.
  intros [He Hk]%known_lookup. unfold pullTasks_page. rewrite He, Hk. done.
Qed.

Lemma pullTasks_page_baseline_unknown page st :
  syncEntry_of (tasks_ (ps_syncMap st))
    (existingKey_of "tasks" (ps_syncMap st) (page_id page)) = None →
  pullTasks_page flags true page st = skip (ps_syncMap st) st.
Proof.
  intros He. unfold pullTasks_page. by rewrite He.
Qed.




End PullPages.




(* ------------------------------------------------------------------------- *)
(** ** Verification: remote-only changes of a job *)
(* ------------------------------------------------------------------------- *)

Section RemoteOnly.
Context `{NodeRuntime} (flags : Flags).

Lemma no_conflict_false tracker k e :
  no_conflict tracker k e →
  truthy (localHash e) &&
  match findJobInTracker tracker k with
  | Some found => negb (strict_eq (localHash e) (hashItem (Job.toObject (job found))))
  | None => false
  end = false.
Proof.
  intros [-> | Hfound]; [done |].
  destruct (findJobInTracker tracker k) as [found|]; [| by rewrite andb_false_r].
  rewrite Hfound. cbn. by rewrite String.eqb_refl, andb_false_r.
Qed.

(** The reclassification branch, as one equation. *)
Lemma pullJobs_page_reclassify page st k e notionJob notionStatus :
  known "jobs" (jobs (ps_syncMap st)) (ps_syncMap st) page k e →
  notionPropertiesToJob (page_properties page) = (notionJob, notionStatus) →
  notionChanged e (page_last_edited_time page) = true →
  no_conflict (ps_local st) k e →
  DRY_RUN flags = false →
  k ≠ getJobLocalId notionJob notionStatus →
  pullJobs_page flags false page st
  = (let found := findJobInTracker (ps_local st) k in
     notionJob' ← moveFolder found notionJob notionStatus;
     tracker ← push_to_target notionStatus notionJob' (without found (ps_local st));
     mret (mkPull (rekeyed page k (getJobLocalId notionJob notionStatus) notionJob'
                     (ps_syncMap st))
                  tracker (S (pulled st)) (skipped_count st))).
Proof.
  intros [He Hk]%known_lookup Hjob Hchanged Hconflict Hdry Hne. unfold pullJobs_page.
  rewrite Hjob, He, Hk. cbn zeta.
  rewrite Hchanged, (no_conflict_false _ _ _ Hconflict), Hdry. cbn.
  by rewrite bool_decide_true.
Qed.

(** A job without folder, whose local copy has none either, moves no folder. *)
Lemma moveFolder_none found notionJob notionStatus :
  truthy (Job.folder notionJob) = false →
  truthy (match found with Some f => Job.folder (job f) | None => Undefined end) = false →
  moveFolder found notionJob notionStatus = mret notionJob.
Proof. intros Hnew Hold. unfold moveFolder. by rewrite Hnew, Hold. Qed.

(** The folder move changes at most the [folder] of the job. *)
Lemma moveFolder_keeps_identity found notionJob notionStatus s notionJob' s' :
  moveFolder found notionJob notionStatus s = (Ok notionJob', s') →
  Job.company notionJob' = Job.company notionJob ∧
  Job.role notionJob' = Job.role notionJob.
Proof.
  unfold moveFolder.
  destruct (truthy (Job.folder notionJob) || truthy _).
  - unfold mbind, M_bind, get_world.
    destruct (_ && _).
    + unfold fs_do. destruct (fs_mkdirSync _ _); [| done]. cbn.
      destruct (bool_decide _); cbn.
      * destruct (fs_renameSync _ _ _); [| done]. by intros [= <- _].
      * by intros [= <- _].
    + by intros [= <- _].
  - by intros [= <- _].
Qed.

(** Where [push_to_target] puts a job. *)
Lemma push_to_target_own status a notionJob tracker :
  arrayMap status = Own a →
  push_to_target status notionJob tracker
  = mret (set_bucket a (bucket tracker a ++ [notionJob]) tracker).
Proof. intros Ha. unfold push_to_target. by rewrite Ha. Qed.




End RemoteOnly.

(** C6, at a failing input.  The stored key is the key of the local job, the
    stored hash is its current hash (only the remote side changed) and the
    page now derives another key; yet the job stays in the active bucket
    while a copy is inserted into the closed bucket.  [findJobInTracker]
    splits the key at every colon and so looks for company "Re" and role
    "Build". *)
Theorem reclassification_duplicates_job_with_colon `{NodeRuntime} (s : Sys) :
  getJobLocalId c6_local "Active" = c6_key ∧
  no_conflict (ps_local c6_state) c6_key
    (mkEntry (Str "page-7") (Str (hashItem (Job.toObject c6_local)))
             (Str "2026-03-01T00:00:00.000Z") (Str "Re:Build") (Str "Engineer")) ∧
  findJobInTracker (ps_local c6_state) c6_key = None ∧
  ∃ st',
    pullJobs_page no_flags false c6_page c6_state s = (Ok st', s) ∧
    active (ps_local st') = [c6_local] ∧
    closed (ps_local st') = [c6_local] ∧
    jobs (ps_syncMap st') !! c6_key = None ∧
    notionToLocal (ps_syncMap st') !! "page-7"
    = Some (mkReverse "jobs" (Str "Closed:Re:Build:Engineer")).
Proof.
  assert (findJobInTracker (ps_local c6_state) c6_key = None) as Hfind
    by (vm_compute; reflexivity).
  split; [reflexivity |]. split; [right; by rewrite Hfind |]. split; [done |].
  erewrite (pullJobs_page_reclassify no_flags c6_page c6_state c6_key); cycle 1.
  - split; vm_compute; reflexivity.
  - reflexivity.
  - vm_compute; reflexivity.
  - right. by rewrite Hfind.
  - reflexivity.
  - vm_compute. discriminate.
  - rewrite Hfind. cbn zeta. rewrite moveFolder_none by done.
    eexists. split; [reflexivity |]. repeat split; vm_compute; reflexivity.
Qed.

(** When the local job is found, a reclassification whose folder move does
    not throw removes it from its bucket, appends the pulled job to the
    bucket of the remote status, drops the entry under the old key, stores
    one under the new key and points the reverse index to the new key. *)
Lemma reclassification_moves_found_job `{NodeRuntime} (flags : Flags) page st k e
  notionJob notionStatus found a s st' s' :
  known "jobs" (jobs (ps_syncMap st)) (ps_syncMap st) page k e →
  notionPropertiesToJob (page_properties page) = (notionJob, notionStatus) →
  notionChanged e (page_last_edited_time page) = true →
  findJobInTracker (ps_local st) k = Some found →
  localHash e = Str (hashItem (Job.toObject (job found))) →
  DRY_RUN flags = false →
  k ≠ getJobLocalId notionJob notionStatus →
  arrayMap notionStatus = Own a →
  pullJobs_page flags false page st s = (Ok st', s') →
  ∃ notionJob',
    ps_local st'
    = set_bucket a (bucket (without (Some found) (ps_local st)) a ++ [notionJob'])
        (without (Some found) (ps_local st)) ∧
    Job.company notionJob' = Job.company notionJob ∧
    Job.role notionJob' = Job.role notionJob ∧
    jobs (ps_syncMap st') !! k = None ∧
    jobs (ps_syncMap st') !! getJobLocalId notionJob notionStatus
    = Some (job_entry (page_id page) (page_last_edited_time page) notionJob') ∧
    notionToLocal (ps_syncMap st') !! page_id page
    = Some (mkReverse "jobs" (Str (getJobLocalId notionJob notionStatus))).
Proof.
  intros Hknown Hjob Hchanged Hfound Hhash Hdry Hne Ha.
  rewrite (pullJobs_page_reclassify flags page st k e notionJob notionStatus);
    [| done | done | done | right; by rewrite Hfound | done | done].
  rewrite Hfound. cbn zeta. unfold mbind, M_bind.
  destruct (moveFolder _ _ _ s) as [[notionJob'|err] s1] eqn:Hmove; [| done].
  rewrite push_to_target_own with (a := a) by done.
  intros [= <- <-]. exists notionJob'. split; [done |].
  destruct (moveFolder_keeps_identity _ _ _ _ _ _ Hmove) as [Hc Hr].
  repeat split; [done | done | | |]; cbn.
  - rewrite lookup_insert_ne by done. apply lookup_delete_eq.
  - apply lookup_insert_eq.
  - apply lookup_insert_eq.
Qed.

(* ------------------------------------------------------------------------- *)
(** ** Verification: the status of a pulled job *)
(* ------------------------------------------------------------------------- *)




(* ------------------------------------------------------------------------- *)
(** ** Verification: what a computation leaves alone *)
(* ------------------------------------------------------------------------- *)

Section LeavesDisk.
Context `{NodeRuntime}.

Lemma leaves_disk_ret {A} (a : A) (Q : A → Prop) : Q a → leaves_disk (mret a) Q.
Proof. intros HQ s r s' [= <- <-]. split; [done |]. by intros ? [= <-]. Qed.

Lemma leaves_disk_throw {A} e (Q : A → Prop) : leaves_disk (throw e) Q.
Proof. intros s r s' [= <- <-]. done. Qed.

Lemma leaves_disk_mono {A} (m : M A) (Q R : A → Prop) :
  leaves_disk m Q → (∀ a, Q a → R a) → leaves_disk m R.
Proof. intros Hm HQR s r s' Hrun. destruct (Hm _ _ _ Hrun). naive_solver. Qed.

Lemma leaves_disk_bind {A B} (m : M A) (k : A → M B) (Q : A → Prop) (R : B → Prop) :
  leaves_disk m Q → (∀ a, Q a → leaves_disk (k a) R) → leaves_disk (m ≫= k) R.
Proof.
  intros Hm Hk s r s'. unfold mbind, M_bind.
  destruct (m s) as [[a|e] s1] eqn:Hrun; destruct (Hm _ _ _ Hrun) as [Hdisk HQ].
  - intros Hrun'. destruct (Hk a (HQ a eq_refl) _ _ _ Hrun') as [Hdisk' HR].
    split; [congruence | done].
  - intros [= <- <-]. done.
Qed.

Lemma leaves_disk_try_catch {A} (body : M A) (handler : Error → M A) (Q : A → Prop) :
  leaves_disk body Q → (∀ e, leaves_disk (handler e) Q) →
  leaves_disk (try_catch body handler) Q.
Proof.
  intros Hbody Hhandler s r s'. unfold try_catch.
  destruct (body s) as [[a|e] s1] eqn:Hrun; destruct (Hbody _ _ _ Hrun) as [Hdisk HQ].
  - intros [= <- <-]. done.
  - intros Hrun'. destruct (Hhandler e _ _ _ Hrun'). split; [congruence | done].
Qed.

Lemma leaves_disk_for_of {A S} (xs : list A) (body : A → S → M S) (I : S → Prop) st :
  (∀ x st, I st → leaves_disk (body x st) I) → I st →
  leaves_disk (for_of xs body st) I.
Proof.
  intros Hbody. revert st. induction xs as [|x xs IH]; intros st Hst; cbn.
  - by apply leaves_disk_ret.
  - eapply leaves_disk_bind; [by apply Hbody |]. intros st' Hst'. by apply IH.
Qed.

Lemma leaves_disk_emit ev : leaves_disk (emit ev) (λ _, True).
Proof. intros s r s' [= <- <-]. done. Qed.

Lemma leaves_disk_sleep ms : leaves_disk (sleep ms) (λ _, True).
Proof. intros s r s' [= <- <-]. done. Qed.

Lemma leaves_disk_get_world : leaves_disk get_world (λ _, True).
Proof. intros s r s' [= <- <-]. done. Qed.

Lemma leaves_disk_fs_do op : leaves_disk (fs_do op) (λ _, True).
Proof.
  intros s r s'. unfold fs_do. destruct (op (world s)); intros [= <- <-]; done.
Qed.

Lemma exchange_disk req s : disk (exchange req s).2 = disk s.
Proof. unfold exchange. by destruct (https_request req (world s)). Qed.

Lemma leaves_disk_notionRequestWithRetry req attempt :
  leaves_disk (notionRequestWithRetry req attempt) (λ _, True).
Proof.
  unfold leaves_disk. intros s.
  funelim (notionRequestWithRetry req attempt s); intros r s'.
  - intros [= <- <-]. split; [| done].
    rewrite <- (exchange_disk req s). by rewrite Heq.
  - intros Hrun.
    match goal with IH : ∀ r s', _ = (r, s') → _ |- _ =>
      destruct (IH _ _ Hrun) as [Hdisk _] end.
    split; [| done].
    rewrite Hdisk. cbn. rewrite <- (exchange_disk req s). by rewrite Heq0.
  - intros [= <- <-]. split; [| done].
    rewrite <- (exchange_disk req s). by rewrite Heq0.
Qed.

Lemma leaves_disk_notionRequest method endpoint body apiKey :
  leaves_disk (notionRequest method endpoint body apiKey) (λ _, True).
Proof. apply leaves_disk_notionRequestWithRetry. Qed.

Lemma leaves_disk_fetchLoop budget dbId apiKey filter startCursor pages :
  leaves_disk (fetchLoop budget dbId apiKey filter startCursor pages) (λ _, True).
Proof.
  revert startCursor pages. induction budget as [|budget IH]; intros startCursor pages; cbn.
  - apply leaves_disk_throw.
  - eapply leaves_disk_bind; [apply leaves_disk_notionRequest |]. intros result _.
    eapply leaves_disk_bind with (Q := λ _, True).
    + destruct (res_has_more result);
        [apply leaves_disk_sleep | by apply leaves_disk_ret].
    + intros _ _. destruct (truthy _); [apply IH | by apply leaves_disk_ret].
Qed.

Lemma leaves_disk_fetchForPull flags budget dbId config syncMap :
  leaves_disk (fetchForPull flags budget dbId config syncMap) (λ _, True).
Proof.
  unfold fetchForPull, fetchAllPages, fetchChangedPages.
  destruct (_ || _); apply leaves_disk_fetchLoop.
Qed.

Lemma leaves_disk_ensureSchema db title needed apiKey :
  leaves_disk (ensureSchema db title needed apiKey) (λ _, True).
Proof.
  unfold ensureSchema. destruct (truthy db); cbn; [| by apply leaves_disk_ret].
  eapply leaves_disk_bind; [apply leaves_disk_notionRequest |]. intros result _.
  eapply leaves_disk_bind with (Q := λ _, True).
  - destruct title as [title|]; [| by apply leaves_disk_ret].
    destruct (_ && _); [| by apply leaves_disk_ret].
    eapply leaves_disk_bind; [apply leaves_disk_notionRequest |].
    intros _ _. by apply leaves_disk_ret.
  - intros existing _. destruct (filter _ needed); [by apply leaves_disk_ret |].
    eapply leaves_disk_bind; [apply leaves_disk_notionRequest |].
    intros _ _. by apply leaves_disk_ret.
Qed.

Lemma leaves_disk_ensureSchemas config :
  leaves_disk (ensureSchemas config) (λ _, True).
Proof.
  unfold ensureSchemas.
  eapply leaves_disk_bind; [apply leaves_disk_ensureSchema |]. intros _ _.
  eapply leaves_disk_bind; [apply leaves_disk_ensureSchema |]. intros _ _.
  apply leaves_disk_ensureSchema.
Qed.

End LeavesDisk.

(* ------------------------------------------------------------------------- *)
(** ** Verification: pulls that only acknowledge edit times *)
(* ------------------------------------------------------------------------- *)

Section EditTimes.
Context `{NodeRuntime} (flags : Flags).

Lemma same_but_edit_time_refl a : same_but_edit_time a a.
Proof. intros k. destruct (a !! k) as [[]|]; done. Qed.

Lemma same_but_edit_time_trans a b c :
  same_but_edit_time a b → same_but_edit_time b c → same_but_edit_time a c.
Proof.
  intros Hab Hbc k. specialize (Hab k). specialize (Hbc k).
  destruct (a !! k) as [e|], (b !! k) as [e'|], (c !! k) as [e''|]; try done.
  rewrite Hbc, Hab. by destruct e.
Qed.

Lemma same_but_edit_time_insert a k e v :
  a !! k = Some e → same_but_edit_time a (<[k := set_notionLastEdited v e]> a).
Proof.
  intros Hk k'. destruct (decide (k = k')) as [<-|Hne].
  - rewrite Hk, lookup_insert_eq. by destruct e.
  - rewrite lookup_insert_ne by done. destruct (a !! k') as [[]|]; done.
Qed.

Lemma edit_times_only_refl m : edit_times_only m m.
Proof. repeat split; apply same_but_edit_time_refl. Qed.

Lemma edit_times_only_trans m1 m2 m3 :
  edit_times_only m1 m2 → edit_times_only m2 m3 → edit_times_only m1 m3.
Proof.
  intros (? & ? & ? & ? & ?) (? & ? & ? & ? & ?).
  repeat split; try congruence; by eapply same_but_edit_time_trans.
Qed.

Lemma pull_inv_refl {L} (st : PullState L) : pull_inv st st.
Proof. repeat split; apply same_but_edit_time_refl. Qed.

Lemma pull_inv_trans {L} (st1 st2 st3 : PullState L) :
  pull_inv st1 st2 → pull_inv st2 st3 → pull_inv st1 st3.
Proof.
  intros (? & ? & ?) (? & ? & ?).
  repeat split; try congruence; by eapply edit_times_only_trans.
Qed.

Lemma syncEntry_of_lookup entries existingKey e :
  syncEntry_of entries existingKey = Some e →
  ∃ k, existingKey = Some k ∧ entries !! k = Some e.
Proof.
  destruct existingKey as [k|]; [| done]. cbn. destruct (negb _); [| done]. eauto.
Qed.

Lemma skip_pull_inv {L} (st : PullState L) m' s :
  edit_times_only (ps_syncMap st) m' →
  ∃ st', skip m' st s = (Ok st', s) ∧ pull_inv st st'.
Proof. intros Hm. eexists. split; [reflexivity |]. split; [done | split; done]. Qed.

(** In dry-run mode, and in baseline mode, a page of any of the three
    loops is skipped: the step touches nothing outside, and in the memory at
    most the edit time of the entry of the page. *)
Lemma pullJobs_page_acknowledges isBaseline page st s :
  DRY_RUN flags = true ∨ isBaseline = true →
  ∃ st', pullJobs_page flags isBaseline page st s = (Ok st', s) ∧ pull_inv st st'.
Proof.
  intros Hmode. unfold pullJobs_page.
  destruct (notionPropertiesToJob _) as [notionJob notionStatus].
  destruct (syncEntry_of _ _) as [e|] eqn:He.
  - destruct (syncEntry_of_lookup _ _ _ He) as (k & -> & Hk).
    assert (edit_times_only (ps_syncMap st)
              (set_jobs (<[k := set_notionLastEdited (Str (page_last_edited_time page)) e]>
                           (jobs (ps_syncMap st))) (ps_syncMap st))) as Htouch.
    { repeat split; try apply same_but_edit_time_refl.
      by apply same_but_edit_time_insert. }
    destruct isBaseline; [by apply skip_pull_inv |].
    destruct Hmode as [Hdry|]; [| done]. rewrite Hdry. cbn zeta.
    repeat (match goal with |- context [if ?b then _ else _] => destruct b end);
      apply skip_pull_inv; done || apply edit_times_only_refl.
  - assert (∃ st', (if isBaseline then skip (ps_syncMap st) st
                    else if DRY_RUN flags then skip (ps_syncMap st) st
                    else skip (ps_syncMap st) st) s = (Ok st', s) ∧ pull_inv st st')
      as Hskip.
    { destruct isBaseline, (DRY_RUN flags);
        apply skip_pull_inv, edit_times_only_refl. }
    destruct isBaseline; [by destruct (existingKey_of _ _ _) |].
    destruct Hmode as [Hdry|]; [| done]. rewrite Hdry in *.
    by destruct (existingKey_of _ _ _).
Qed.

Lemma pullContacts_page_acknowledges isBaseline page st s :
  DRY_RUN flags = true ∨ isBaseline = true →
  ∃ st', pullContacts_page flags isBaseline page st s = (Ok st', s) ∧ pull_inv st st'.
Proof.
  intros Hmode. unfold pullContacts_page.
  destruct (syncEntry_of _ _) as [e|] eqn:He.
  - destruct (syncEntry_of_lookup _ _ _ He) as (k & -> & Hk).
    assert (edit_times_only (ps_syncMap st)
              (set_contacts (<[k := set_notionLastEdited (Str (page_last_edited_time page)) e]>
                               (contacts_ (ps_syncMap st))) (ps_syncMap st))) as Htouch.
    { repeat split; try apply same_but_edit_time_refl.
      by apply same_but_edit_time_insert. }
    destruct isBaseline; [by apply skip_pull_inv |].
    destruct Hmode as [Hdry|]; [| done]. rewrite Hdry. cbn zeta.
    repeat (match goal with |- context [if ?b then _ else _] => destruct b end);
      apply skip_pull_inv; done || apply edit_times_only_refl.
  - destruct isBaseline; [destruct (existingKey_of _ _ _);
                          apply skip_pull_inv, edit_times_only_refl |].
    destruct Hmode as [Hdry|]; [| done]. rewrite Hdry.
    destruct (existingKey_of _ _ _); apply skip_pull_inv, edit_times_only_refl.
Qed.

Lemma pullTasks_page_acknowledges isBaseline page st s :
  DRY_RUN flags = true ∨ isBaseline = true →
  ∃ st', pullTasks_page flags isBaseline page st s = (Ok st', s) ∧ pull_inv st st'.
Proof.
  intros Hmode. unfold pullTasks_page.
  destruct (syncEntry_of _ _) as [e|] eqn:He.
  - destruct (syncEntry_of_lookup _ _ _ He) as (k & -> & Hk).
    assert (edit_times_only (ps_syncMap st)
              (set_tasks (<[k := set_notionLastEdited (Str (page_last_edited_time page)) e]>
                            (tasks_ (ps_syncMap st))) (ps_syncMap st))) as Htouch.
    { repeat split; try apply same_but_edit_time_refl.
      by apply same_but_edit_time_insert. }
    destruct isBaseline; [by apply skip_pull_inv |].
    destruct Hmode as [Hdry|]; [| done]. rewrite Hdry. cbn zeta.
    repeat (match goal with |- context [if ?b then _ else _] => destruct b end);
      apply skip_pull_inv; done || apply edit_times_only_refl.
  - destruct isBaseline; [destruct (existingKey_of _ _ _);
                          apply skip_pull_inv, edit_times_only_refl |].
    destruct Hmode as [Hdry|]; [| done]. rewrite Hdry.
    destruct (existingKey_of _ _ _); apply skip_pull_inv, edit_times_only_refl.
Qed.

End EditTimes.

Section PullPhase.
Context `{NodeRuntime} (flags : Flags).

Lemma leaves_disk_pure {A} (m : M A) (Q : A → Prop) :
  (∀ s, ∃ a, m s = (Ok a, s) ∧ Q a) → leaves_disk m Q.
Proof.
  intros Hm s r s' Hrun. destruct (Hm s) as (a & Hrun' & HQ).
  rewrite Hrun' in Hrun. injection Hrun as <- <-. split; [done |].
  by intros ? [= <-].
Qed.

Lemma leaves_disk_pull_loop {L} (body : Page → PullState L → M (PullState L)) pages st0 :
  (∀ page st s, ∃ st', body page st s = (Ok st', s) ∧ pull_inv st st') →
  leaves_disk (for_of pages body st0) (pull_inv st0).
Proof.
  intros Hbody. apply leaves_disk_for_of; [| apply pull_inv_refl].
  intros page st Hst. apply leaves_disk_pure. intros s.
  destruct (Hbody page st s) as (st' & Hrun & Hinv).
  exists st'. split; [done |]. by eapply pull_inv_trans.
Qed.

Lemma acknowledging_mode syncMap :
  acknowledging flags syncMap →
  DRY_RUN flags = true ∨ negb (truthy (lastSyncTime syncMap)) = true.
Proof. intros [?| ->]; [by left | by right]. Qed.

Lemma acknowledging_preserved m m' :
  edit_times_only m m' → acknowledging flags m → acknowledging flags m'.
Proof. intros (Htime & _) [?|?]; [by left | right; by rewrite Htime]. Qed.

Lemma leaves_disk_pullJobs budget config syncMap tracker :
  acknowledging flags syncMap →
  leaves_disk (pullJobs flags budget config syncMap tracker)
    (pull_inv (mkPull syncMap tracker 0 0)).
Proof.
  intros Hmode%acknowledging_mode. unfold pullJobs.
  destruct (negb (truthy (db_jobs config)));
    [apply leaves_disk_ret, pull_inv_refl |].
  eapply leaves_disk_bind; [apply leaves_disk_fetchForPull |]. intros pages _.
  apply leaves_disk_pull_loop. intros page st s.
  by apply pullJobs_page_acknowledges.
Qed.

Lemma leaves_disk_pullContacts budget config syncMap network :
  acknowledging flags syncMap →
  leaves_disk (pullContacts flags budget config syncMap network)
    (pull_inv (mkPull syncMap network 0 0)).
Proof.
  intros Hmode%acknowledging_mode. unfold pullContacts.
  destruct (negb (truthy (db_contacts config)));
    [apply leaves_disk_ret, pull_inv_refl |].
  eapply leaves_disk_bind; [apply leaves_disk_fetchForPull |]. intros pages _.
  eapply leaves_disk_bind.
  - apply leaves_disk_pull_loop. intros page st s.
    by apply pullContacts_page_acknowledges.
  - intros st (Hlocal & Hpulled & Hmap). apply leaves_disk_ret.
    split; [| done]. cbn in *. rewrite Hlocal. by destruct network.
Qed.

Lemma leaves_disk_pullTasks budget config syncMap tasksData :
  acknowledging flags syncMap →
  leaves_disk (pullTasks flags budget config syncMap tasksData)
    (pull_inv (mkPull syncMap tasksData 0 0)).
Proof.
  intros Hmode%acknowledging_mode. unfold pullTasks.
  destruct (negb (truthy (db_tasks config)));
    [apply leaves_disk_ret, pull_inv_refl |].
  eapply leaves_disk_bind; [apply leaves_disk_fetchForPull |]. intros pages _.
  eapply leaves_disk_bind.
  - apply leaves_disk_pull_loop. intros page st s.
    by apply pullTasks_page_acknowledges.
  - intros st (Hlocal & Hpulled & Hmap). apply leaves_disk_ret.
    split; [| done]. cbn in *. rewrite Hlocal. by destruct tasksData.
Qed.

Lemma leaves_disk_pullPhase budget config r :
  acknowledging flags (run_syncMap r) →
  leaves_disk (pullPhase flags budget config r) (acknowledged r).
Proof.
  intros Hmode. unfold pullPhase.
  destruct (PUSH_ONLY flags).
  { apply leaves_disk_ret. repeat split; apply same_but_edit_time_refl. }
  eapply leaves_disk_bind; [by apply leaves_disk_pullJobs |].
  intros jobPull (Hjobs & Hpulled1 & Hmap1). cbn in Hjobs, Hpulled1, Hmap1.
  eapply leaves_disk_bind;
    [eapply leaves_disk_pullContacts, acknowledging_preserved; done |].
  intros contactPull (Hcontacts & Hpulled2 & Hmap2). cbn in Hcontacts, Hpulled2, Hmap2.
  eapply leaves_disk_bind;
    [eapply leaves_disk_pullTasks, acknowledging_preserved; [| done];
     by eapply edit_times_only_trans |].
  intros taskPull (Htasks & Hpulled3 & Hmap3). cbn in Htasks, Hpulled3, Hmap3.
  apply leaves_disk_ret. unfold acknowledged. cbn.
  rewrite Hpulled1, Hpulled2, Hpulled3. do 4 (split; [done |]).
  eapply edit_times_only_trans; [| done]. by eapply edit_times_only_trans.
Qed.

End PullPhase.

(* ------------------------------------------------------------------------- *)
(** ** Verification: a dry run *)
(* ------------------------------------------------------------------------- *)

Section DryRun.
Context `{NodeRuntime} (flags : Flags).
Hypothesis dry_run : DRY_RUN flags = true.

Lemma on_disk_leaves {A} d (m : M A) Q : leaves_disk m Q → on_disk d m Q.
Proof. intros Hm s r s' <- Hrun. by apply Hm. Qed.

Lemma on_disk_bind {A B} d (m : M A) (k : A → M B) (Q : A → Prop) (R : B → Prop) :
  on_disk d m Q → (∀ a, Q a → on_disk d (k a) R) → on_disk d (m ≫= k) R.
Proof.
  intros Hm Hk s r s' Hd. unfold mbind, M_bind.
  destruct (m s) as [[a|e] s1] eqn:Hrun; destruct (Hm _ _ _ Hd Hrun) as [Hdisk HQ].
  - intros Hrun'. by apply (Hk a (HQ a eq_refl) _ _ _ Hdisk Hrun').
  - intros [= <- <-]. done.
Qed.

Lemma on_disk_read d : on_disk d read_disk (λ d', d' = d).
Proof. intros s r s' <- [= <- <-]. split; [done |]. by intros ? [= <-]. Qed.

Lemma pushJobs_item_dry config status job st s :
  ∃ st', pushJobs_item flags config status job st s = (Ok st', s) ∧
         push_syncMap st' = push_syncMap st.
Proof.
  unfold pushJobs_item. destruct (is_unchanged _ _ _); [by eexists |].
  rewrite dry_run. by eexists.
Qed.

Lemma pushContacts_item_dry config contact st s :
  ∃ st', pushContacts_item flags config contact st s = (Ok st', s) ∧
         push_syncMap st' = push_syncMap st.
Proof.
  unfold pushContacts_item. destruct (is_unchanged _ _ _); [by eexists |].
  rewrite dry_run. by eexists.
Qed.

Lemma pushTasks_item_dry config task st s :
  ∃ st', pushTasks_item flags config task st s = (Ok st', s) ∧
         push_syncMap st' = push_syncMap st.
Proof.
  unfold pushTasks_item. destruct (is_unchanged _ _ _); [by eexists |].
  rewrite dry_run. by eexists.
Qed.

Lemma leaves_disk_push_loop {A} (body : A → PushState → M PushState) items st0 :
  (∀ x st s, ∃ st', body x st s = (Ok st', s) ∧ push_syncMap st' = push_syncMap st) →
  leaves_disk (for_of items body st0) (λ st', push_syncMap st' = push_syncMap st0).
Proof.
  intros Hbody. apply leaves_disk_for_of; [| done].
  intros x st Hst. apply leaves_disk_pure. intros s.
  destruct (Hbody x st s) as (st' & Hrun & Hmap). exists st'. split; [done | congruence].
Qed.

Lemma leaves_disk_handleDeletions_dry deletions entityType config syncMap :
  leaves_disk (handleDeletions flags deletions entityType config syncMap)
    (λ syncMap', syncMap' = syncMap).
Proof.
  unfold handleDeletions. destruct deletions as [|d deletions]; [by apply leaves_disk_ret |].
  destruct (APPLY_DELETES flags).
  - apply leaves_disk_for_of; [| done]. intros d' m ->.
    unfold handleDeletions_item. rewrite dry_run.
    apply leaves_disk_pure. intros s. by eexists.
  - eapply leaves_disk_bind; [apply leaves_disk_emit |]. intros _ _.
    by apply leaves_disk_ret.
Qed.

Lemma leaves_disk_reconcile_dry entityType config st :
  leaves_disk (reconcile flags entityType config st)
    (λ st', push_syncMap st' = push_syncMap st).
Proof.
  unfold reconcile. eapply leaves_disk_bind; [apply leaves_disk_handleDeletions_dry |].
  intros m ->. by apply leaves_disk_ret.
Qed.

Lemma leaves_disk_pushJobs_dry config syncMap tracker :
  leaves_disk (pushJobs flags config syncMap tracker) (λ syncMap', syncMap' = syncMap).
Proof.
  unfold pushJobs. destruct (negb _); [by apply leaves_disk_ret |].
  eapply leaves_disk_bind with (Q := λ st, push_syncMap st = syncMap).
  - apply leaves_disk_for_of; [| done]. intros [jobs status] st Hst.
    eapply leaves_disk_mono.
    + apply leaves_disk_push_loop. intros job st1 s. apply pushJobs_item_dry.
    + intros st'. cbn. congruence.
  - intros st Hst. eapply leaves_disk_bind; [apply leaves_disk_reconcile_dry |].
    intros st' Hst'. apply leaves_disk_ret. congruence.
Qed.

Lemma leaves_disk_pushContacts_dry config syncMap network :
  leaves_disk (pushContacts flags config syncMap network) (λ syncMap', syncMap' = syncMap).
Proof.
  unfold pushContacts. destruct (negb _); [by apply leaves_disk_ret |].
  eapply leaves_disk_bind with (Q := λ st, push_syncMap st = syncMap).
  - apply leaves_disk_push_loop. intros contact st s. apply pushContacts_item_dry.
  - intros st Hst. eapply leaves_disk_bind; [apply leaves_disk_reconcile_dry |].
    intros st' Hst'. apply leaves_disk_ret. congruence.
Qed.

Lemma leaves_disk_pushTasks_dry config syncMap tasksData :
  leaves_disk (pushTasks flags config syncMap tasksData) (λ syncMap', syncMap' = syncMap).
Proof.
  unfold pushTasks. destruct (negb _); [by apply leaves_disk_ret |].
  eapply leaves_disk_bind with (Q := λ st, push_syncMap st = syncMap).
  - apply leaves_disk_push_loop. intros task st s. apply pushTasks_item_dry.
  - intros st Hst. eapply leaves_disk_bind; [apply leaves_disk_reconcile_dry |].
    intros st' Hst'. apply leaves_disk_ret. congruence.
Qed.

Lemma leaves_disk_pushPhase_dry config r :
  leaves_disk (pushPhase flags config r) (λ r', r' = r).
Proof.
  unfold pushPhase. destruct (PULL_ONLY flags); [by apply leaves_disk_ret |].
  eapply leaves_disk_bind; [apply leaves_disk_pushJobs_dry |]. intros ? ->.
  eapply leaves_disk_bind; [apply leaves_disk_pushContacts_dry |]. intros ? ->.
  eapply leaves_disk_bind; [apply leaves_disk_pushTasks_dry |]. intros ? ->.
  apply leaves_disk_ret. by destruct r.
Qed.

Lemma loadConfig_on_disk d : on_disk d loadConfig (λ _, True).
Proof.
  unfold loadConfig. eapply on_disk_bind; [apply on_disk_read |]. intros ? ->.
  apply on_disk_leaves. destruct (file_config d) as [config|];
    [destruct (truthy _); [by apply leaves_disk_ret |] |]; apply leaves_disk_throw.
Qed.

Lemma loadSyncMap_on_disk d :
  on_disk d loadSyncMap (λ syncMap, syncMap = run_syncMap (loaded d)).
Proof.
  unfold loadSyncMap. eapply on_disk_bind; [apply on_disk_read |]. intros ? ->.
  apply on_disk_leaves. cbn. destruct (file_syncmap d); by apply leaves_disk_ret.
Qed.

(** A dry run writes no file; what it holds in memory when it returns is
    what it loaded, up to the edit times of the sync map. *)
Lemma main_dry_run budget d :
  on_disk d (main flags budget)
    (λ r, run_tracker r = run_tracker (loaded d) ∧
          run_network r = run_network (loaded d) ∧
          run_tasksData r = run_tasksData (loaded d) ∧
          edit_times_only (run_syncMap (loaded d)) (run_syncMap r)).
Proof.
  unfold main.
  eapply on_disk_bind; [apply loadConfig_on_disk |]. intros config _.
  eapply on_disk_bind; [apply loadSyncMap_on_disk |]. intros syncMap ->.
  eapply on_disk_bind; [apply on_disk_leaves, leaves_disk_ensureSchemas |]. intros _ _.
  eapply on_disk_bind; [apply on_disk_read |]. intros ? ->.
  eapply on_disk_bind.
  { apply on_disk_leaves, leaves_disk_pullPhase. by left. }
  intros [r changed] (Hchanged & Htracker & Hnetwork & Htasks & Hmap).
  cbn in Hchanged, Htracker, Hnetwork, Htasks, Hmap. subst changed.
  eapply on_disk_bind; [apply on_disk_leaves, leaves_disk_ret with (Q := λ _, True); done |].
  intros _ _.
  eapply on_disk_bind; [apply on_disk_leaves, leaves_disk_pushPhase_dry |]. intros ? ->.
  rewrite dry_run. apply on_disk_leaves, leaves_disk_ret. done.
Qed.

End DryRun.

(** C9, as stated, fails: a dry run on a null watermark records the edit
    time of a known page in the entry it holds in memory, so the Sync State
    Entries are not exactly as loaded. *)
Lemma dry_run_acknowledges_edit_time_in_memory :
  ∃ r,
    (main dry_run_flags 3 (scripted first_run_script legacy_files)).1 = Ok r ∧
    run_syncMap r ≠ run_syncMap (loaded legacy_files).
Proof.
  eexists. split; [vm_compute; reflexivity |].
  intros Heq. apply (f_equal (λ m, notionLastEdited <$> jobs m !! "Active:Acme:Engineer")) in Heq.
  vm_compute in Heq. discriminate.
Qed.

(** C9, amended.  In dry-run mode no file is written, neither the sync map
    nor a local document, whether the run returns or fails; and when it
    returns, the local collections it holds are those it loaded, and the
    sync map is the one it loaded up to the [notionLastEdited] of its
    entries: same watermark, same reverse index, same keys, same [notionId]
    and [localHash] under each key. *)
Theorem dry_run_writes_nothing `{NodeRuntime} (flags : Flags) (budget : nat) (s : Sys)
  (outcome : Res Run) (s' : Sys) :
  DRY_RUN flags = true →
  main flags budget s = (outcome, s') →
  disk s' = disk s ∧
  ∀ r, outcome = Ok r →
    run_tracker r = run_tracker (loaded (disk s)) ∧
    run_network r = run_network (loaded (disk s)) ∧
    run_tasksData r = run_tasksData (loaded (disk s)) ∧
    edit_times_only (run_syncMap (loaded (disk s))) (run_syncMap r).
Proof.
  intros Hdry Hrun. by apply (main_dry_run flags Hdry budget (disk s) s outcome s').
Qed.

Lemma dry_run_writes_nothing_witness :
  let run := main dry_run_flags 3 (scripted first_run_script legacy_files) in
  ∃ r,
    run.1 = Ok r ∧
    disk run.2 = legacy_files ∧
    run_tracker r = mkTracker [c1_local] [] [] ∧
    edit_times_only (run_syncMap (loaded legacy_files)) (run_syncMap r).
Proof.
  intros run.
  destruct (dry_run_writes_nothing dry_run_flags 3 _ _ _ eq_refl
              (surjective_pairing run)) as [Hdisk Hr].
  assert (∃ r, run.1 = Ok r) as [r Hok] by (eexists; vm_compute; reflexivity).
  exists r. destruct (Hr r Hok) as (Htracker & _ & _ & Hmap).
  split; [exact Hok |]. split; [exact Hdisk |]. split; [exact Htracker | exact Hmap].
Defined.

(* ------------------------------------------------------------------------- *)
(** ** Verification: the baseline pull *)
(* ------------------------------------------------------------------------- *)

(** C4.  On a run with a null watermark the pull phase writes no file and
    returns the local collections as they were, with nothing to save; the
    sync map it returns has the same reverse index and the same entries up
    to their edit times.  Page by page: a known local key gets the edit time
    of the page recorded in its entry, an unknown one is skipped with no
    change at all. *)
Theorem baseline_pull_never_mutates_local `{NodeRuntime} (flags : Flags) (budget : nat)
  (config : Config) (r : Run) :
  truthy (lastSyncTime (run_syncMap r)) = false →
  leaves_disk (pullPhase flags budget config r) (acknowledged r) ∧
  baseline_step "jobs" jobs set_jobs (pullJobs_page flags true) ∧
  baseline_step "contacts" contacts_ set_contacts (pullContacts_page flags true) ∧
  baseline_step "tasks" tasks_ set_tasks (pullTasks_page flags true).
Proof.
  intros Hbaseline. split; [apply leaves_disk_pullPhase; by right |].
  repeat split.
  - intros k e Hknown. by rewrite (pullJobs_page_baseline_known flags page st k e).
  - intros Hunknown. by rewrite (pullJobs_page_baseline_unknown flags page st).
  - intros k e Hknown. by rewrite (pullContacts_page_baseline_known flags page st k e).
  - intros Hunknown. by rewrite (pullContacts_page_baseline_unknown flags page st).
  - intros k e Hknown. by rewrite (pullTasks_page_baseline_known flags page st k e).
  - intros Hunknown. by rewrite (pullTasks_page_baseline_unknown flags page st).
Qed.

Lemma baseline_pull_never_mutates_local_witness :
  let r := loaded legacy_files in
  let run := pullPhase no_flags 3 jobs_only r
               (scripted (tail first_run_script) legacy_files) in
  ∃ r',
    run.1 = Ok (r', false) ∧
    run_tracker r' = run_tracker r ∧
    notionToLocal (run_syncMap r') = notionToLocal (run_syncMap r) ∧
    disk run.2 = legacy_files.
Proof.
  intros r run.
  destruct (proj1 (baseline_pull_never_mutates_local no_flags 3 jobs_only r eq_refl)
              _ _ _ (surjective_pairing run)) as [Hdisk Hack].
  assert (∃ r', run.1 = Ok (r', false)) as [r' Hok] by (eexists; vm_compute; reflexivity).
  exists r'. destruct (Hack _ Hok) as (_ & Htracker & _ & _ & _ & Hreverse & _).
  split; [exact Hok |]. split; [exact Htracker |]. split; [exact Hreverse | exact Hdisk].
Defined.

(* ------------------------------------------------------------------------- *)
(** ** Verification: deletion handling *)
(* ------------------------------------------------------------------------- *)

Section Deletions.
Context `{NodeRuntime} (flags : Flags).

(** The candidates are the keys of the sync map that the push did not meet
    and that are mapped to a page. *)
Lemma detectLocalDeletions_spec syncMap entityType currentLocalKeys d :
  d ∈ detectLocalDeletions syncMap entityType currentLocalKeys ↔
  ∃ entry, entries_of entityType syncMap !! del_key d = Some entry ∧
           (Str (del_key d) ∉ currentLocalKeys) ∧
           truthy (notionId entry) = true ∧
           del_notionId d = ToString (notionId entry).
Proof.
  unfold detectLocalDeletions. rewrite list_elem_of_omap. split.
  - intros ([key entry] & Hin%elem_of_map_to_list & Hd).
    destruct (bool_decide (Str key ∈ currentLocalKeys)) eqn:Hkey; [done |].
    destruct (truthy (notionId entry)) eqn:Hid; [| done].
    cbn in Hd. injection Hd as <-. exists entry. cbn.
    by apply bool_decide_eq_false in Hkey.
  - intros (entry & Hentry & Hkey & Hid & Hd). exists (del_key d, entry).
    split; [by apply elem_of_map_to_list |].
    rewrite bool_decide_false, Hid by done. cbn. destruct d. cbn in *. by subst.
Qed.

Lemma forgotten_lookup entityType d syncMap :
  entityType ∈ ["jobs"; "contacts"; "tasks"] →
  entries_of entityType (forgotten entityType d syncMap) !! del_key d = None ∧
  notionToLocal (forgotten entityType d syncMap) !! del_notionId d = None.
Proof.
  intros Htype. split; [| apply lookup_delete_eq].
  repeat (apply elem_of_cons in Htype as [->|Htype]); [| | | by inversion Htype];
    apply lookup_delete_eq.
Qed.

(** Without [--apply-deletes] the candidates are listed in one warning. *)
Lemma handleDeletions_reports deletions entityType config syncMap s :
  APPLY_DELETES flags = false →
  handleDeletions flags deletions entityType config syncMap s
  = (Ok syncMap,
     match deletions with
     | [] => s
     | _ :: _ =>
         mkSys (world s) (trace s ++ [EvWarnDeletions entityType (del_key <$> deletions)])
               (disk s)
     end).
Proof. intros Hflag. unfold handleDeletions. rewrite Hflag. by destruct deletions. Qed.

(** With [--apply-deletes] every candidate is handled in turn. *)
Lemma handleDeletions_applies deletions entityType config syncMap :
  APPLY_DELETES flags = true →
  handleDeletions flags deletions entityType config syncMap
  = for_of deletions (handleDeletions_item flags entityType config) syncMap.
Proof. intros Hflag. unfold handleDeletions. rewrite Hflag. by destruct deletions. Qed.

Lemma handleDeletions_item_archived entityType config d syncMap s result s1 :
  DRY_RUN flags = false →
  archive config d s = (Ok result, s1) →
  handleDeletions_item flags entityType config d syncMap s
  = (Ok (forgotten entityType d syncMap), (sleep (Some 350) s1).2).
Proof.
  intros Hdry Harchive. unfold handleDeletions_item, try_catch, mbind, M_bind.
  rewrite Hdry. unfold archive in Harchive. by rewrite Harchive.
Qed.

Lemma handleDeletions_item_failed entityType config d syncMap s err s1 :
  DRY_RUN flags = false →
  archive config d s = (Throw err, s1) →
  handleDeletions_item flags entityType config d syncMap s = (Ok syncMap, s1).
Proof.
  intros Hdry Harchive. unfold handleDeletions_item, try_catch, mbind, M_bind.
  rewrite Hdry. unfold archive in Harchive. by rewrite Harchive.
Qed.

End Deletions.

(** C7.  Without the apply-deletes flag the deletion candidates are only
    reported: the sync map is returned as it is, no request is sent and the
    outside world is the same.  With the flag (and no dry run) each candidate
    is handled by one archive request: when it succeeds, the entry and the
    reverse-index entry of the candidate are removed; when it fails, the sync
    map is returned unchanged and the loop goes on. *)
Theorem deletions_opt_in_and_atomic `{NodeRuntime} (flags : Flags) (entityType : string)
  (config : Config) (syncMap : SyncMap) (s : Sys) :
  (APPLY_DELETES flags = false →
   ∀ deletions, ∃ s',
     handleDeletions flags deletions entityType config syncMap s = (Ok syncMap, s') ∧
     world s' = world s ∧ disk s' = disk s ∧
     requests (trace s') = requests (trace s) ∧
     (deletions ≠ [] →
      trace s' = trace s ++ [EvWarnDeletions entityType (del_key <$> deletions)])) ∧
  (APPLY_DELETES flags = true → DRY_RUN flags = false →
   (∀ deletions,
      handleDeletions flags deletions entityType config syncMap
      = for_of deletions (handleDeletions_item flags entityType config) syncMap) ∧
   ∀ d,
     (∀ result s1,
        archive config d s = (Ok result, s1) →
        handleDeletions_item flags entityType config d syncMap s
        = (Ok (forgotten entityType d syncMap), (sleep (Some 350) s1).2) ∧
        (entityType ∈ ["jobs"; "contacts"; "tasks"] →
         entries_of entityType (forgotten entityType d syncMap) !! del_key d = None ∧
         notionToLocal (forgotten entityType d syncMap) !! del_notionId d = None)) ∧
     (∀ err s1,
        archive config d s = (Throw err, s1) →
        handleDeletions_item flags entityType config d syncMap s = (Ok syncMap, s1))).
Proof.
  split.
  - intros Hflag deletions. eexists. split; [by apply handleDeletions_reports |].
    destruct deletions as [|d deletions]; cbn; [done |].
    split; [done |]. split; [done |]. split; [| done].
    unfold requests. rewrite omap_app. cbn. by rewrite app_nil_r.
  - intros Hflag Hdry. split; [intros; by apply handleDeletions_applies |].
    intros d. split.
    + intros result s1 Harchive.
      split; [by eapply handleDeletions_item_archived | apply forgotten_lookup].
    + intros err s1 Harchive. by eapply handleDeletions_item_failed.
Qed.

Lemma deletions_opt_in_and_atomic_witness :
  let s := scripted [] no_files in
  let deletions := detectLocalDeletions c7_syncMap "jobs" ∅ in
  deletions = [mkDeletion "Active:Initech:Analyst" "page-3"] ∧
  ∃ s',
    handleDeletions no_flags deletions "jobs" jobs_only c7_syncMap s = (Ok c7_syncMap, s') ∧
    world s' = world s ∧ disk s' = disk s ∧
    requests (trace s') = requests (trace s) ∧
    (deletions ≠ [] →
     trace s' = trace s ++ [EvWarnDeletions "jobs" (del_key <$> deletions)]).
Proof.
  intros s deletions. split; [vm_compute; reflexivity |].
  exact (proj1 (deletions_opt_in_and_atomic no_flags "jobs" jobs_only c7_syncMap s)
           eq_refl deletions).
Defined.

Lemma archive_failure_keeps_entries :
  let s := scripted [rate_limited None; rate_limited None; rate_limited None;
                     rate_limited None] no_files in
  let d := mkDeletion "Active:Initech:Analyst" "page-3" in
  ∃ err,
    (archive jobs_only d s).1 = Throw err ∧
    (handleDeletions_item apply_deletes_flags "jobs" jobs_only d c7_syncMap s).1
    = Ok c7_syncMap.
Proof.
  intros s d. eexists. split; vm_compute; reflexivity.
Qed.

(* ------------------------------------------------------------------------- *)
(** ** Verification: pushing twice *)
(* ------------------------------------------------------------------------- *)

Section PushTwice.
Context `{NodeRuntime} (flags : Flags) (config : Config).

Lemma is_unchanged_synced entries localId hash :
  FULL_SYNC flags = false → synced entries localId hash →
  is_unchanged flags (entries !! localId) hash = true.
Proof.
  intros Hfull (e & -> & Hhash & Hid). unfold is_unchanged.
  rewrite Hfull, Hhash, Hid. cbn. by rewrite String.eqb_refl.
Qed.

Lemma for_of_app {A S} (xs ys : list A) (body : A → S → M S) st s :
  for_of (xs ++ ys) body st s = (st' ← for_of xs body st; for_of ys body st') s.
Proof.
  revert st s. induction xs as [|x xs IH]; intros st s; cbn; [done |].
  unfold mbind, M_bind in *. destruct (body x st s) as [[st1|e] s1]; [apply IH | done].
Qed.

Lemma for_of_fmap {A B S} (f : A → B) (xs : list A) (body : B → S → M S) st s :
  for_of (f <$> xs) body st s = for_of xs (λ x, body (f x)) st s.
Proof.
  revert st s. induction xs as [|x xs IH]; intros st s; cbn; [done |].
  unfold mbind, M_bind. destruct (body (f x) st s) as [[st1|e] s1]; [apply IH | done].
Qed.

(** The case analysis of the body of a push loop. *)
Ltac push_item_cases :=
  unfold try_catch, count_error, mbind, M_bind, mret, M_ret, sleep;
  repeat match goal with
         | |- context [is_unchanged ?f ?e ?h] => destruct (is_unchanged f e h) eqn:?
         | |- context [DRY_RUN ?f] => destruct (DRY_RUN f) eqn:?
         | |- context [truthy (notionId_of ?e)] => destruct (truthy (notionId_of e)) eqn:?
         | |- context [notionRequest ?m ?p ?b ?k ?s] =>
             destruct (notionRequest m p b k s) as [[?result|?err] ?s1] eqn:?
         end;
  cbn.

Lemma notionId_of_truthy (entry : option SyncEntry) :
  truthy (notionId_of entry) = true → ∃ e, entry = Some e.
Proof. destruct entry; [eauto | done]. Qed.

Lemma pushTasks_step :
  push_step flags tasks_ task_key (λ task, hashItem (Task.toObject task))
    (pushTasks_item flags config).
Proof.
  split.
  - intros task st s. unfold pushTasks_item. push_item_cases; eauto.
  - intros task st s st' s' k. unfold pushTasks_item. fold (task_key task).
    push_item_cases; intros [= <- <-] Hne; cbn; try done;
      by rewrite lookup_insert_ne.
  - intros task st s st' s' Hdry. unfold pushTasks_item. fold (task_key task).
    rewrite Hdry. push_item_cases; intros [= <- <-] Hcount; cbn in *; try done;
      eexists; (split; [apply lookup_insert_eq |]); (split; [done |]); done.
  - intros task st s Hfull Hsynced. unfold pushTasks_item. fold (task_key task).
    by rewrite (is_unchanged_synced _ _ _ Hfull Hsynced).
Qed.

Lemma pushContacts_step :
  push_step flags contacts_ contact_key (λ contact, hashItem (Contact.toObject contact))
    (pushContacts_item flags config).
Proof.
  split.
  - intros contact st s. unfold pushContacts_item. push_item_cases; eauto.
  - intros contact st s st' s' k. unfold pushContacts_item. fold (contact_key contact).
    push_item_cases; intros [= <- <-] Hne; cbn; try done;
      by rewrite lookup_insert_ne.
  - intros contact st s st' s' Hdry. unfold pushContacts_item. fold (contact_key contact).
    rewrite Hdry. push_item_cases; intros [= <- <-] Hcount; cbn in *; try done;
      eexists; (split; [apply lookup_insert_eq |]); (split; [done |]); done.
  - intros contact st s Hfull Hsynced. unfold pushContacts_item. fold (contact_key contact).
    by rewrite (is_unchanged_synced _ _ _ Hfull Hsynced).
Qed.

Lemma pushJobs_step :
  push_step flags jobs job_key (λ item, hashItem (Job.toObject item.1))
    (λ item, pushJobs_item flags config item.2 item.1).
Proof.
  split.
  - intros [job status] st s. unfold pushJobs_item. push_item_cases; eauto.
  - intros [job status] st s st' s' k. unfold pushJobs_item, job_key. cbn [fst snd].
    push_item_cases; intros [= <- <-] Hne; cbn; try done;
      by rewrite lookup_insert_ne.
  - intros [job status] st s st' s' Hdry. unfold pushJobs_item, job_key. cbn [fst snd].
    rewrite Hdry. push_item_cases; intros [= <- <-] Hcount; cbn in *; try done;
      eexists; (split; [apply lookup_insert_eq |]); (split; [done |]); done.
  - intros [job status] st s Hfull Hsynced. unfold pushJobs_item, job_key in *.
    cbn [fst snd ToString] in *. by rewrite (is_unchanged_synced _ _ _ Hfull Hsynced).
Qed.

End PushTwice.

Section PushLoops.
Context `{NodeRuntime} (flags : Flags) (config : Config).


(** A loop over records that are all [synced] counts them, and does nothing
    else. *)
Lemma push_loop_silent {A} entries key hash (step : A → PushState → M PushState)
  (items : list A) st s :
  push_step flags entries key hash step →
  FULL_SYNC flags = false →
  Forall (λ x, synced (entries (push_syncMap st)) (ToString (key x)) (hash x)) items →
  ∃ st',
    for_of items step st s = (Ok st', s) ∧
    push_syncMap st' = push_syncMap st ∧
    created st' = created st ∧ updated st' = updated st ∧ errors st' = errors st.
Proof.
  intros Hstep Hfull. revert st. induction items as [|x items IH]; intros st Hsynced; cbn.
  - by eexists.
  - apply Forall_cons in Hsynced as [Hx Hitems]. unfold mbind, M_bind.
    rewrite (step_skips _ _ _ _ _ Hstep) by done.
    destruct (IH (counted_unchanged (key x) st) Hitems) as (st' & -> & ? & ? & ? & ?).
    by exists st'.
Qed.

(** The nested loops of [pushJobs] meet the jobs in the order of [job_items]. *)
Lemma pushJobs_loop_flat tracker st s :
  for_of [(active tracker, "Active"); (skipped tracker, "Skipped");
          (closed tracker, "Closed")]
    (λ '(jobs, status), for_of jobs (pushJobs_item flags config status)) st s
  = for_of (job_items tracker) (λ item, pushJobs_item flags config item.2 item.1) st s.
Proof.
  unfold job_items. cbn [for_of]. unfold mbind, M_bind, mret, M_ret.
  rewrite for_of_app. unfold mbind, M_bind. rewrite for_of_fmap. cbn [fst snd].
  destruct (for_of (active tracker) _ st s) as [[st1|e] s1]; [| done].
  rewrite for_of_app. unfold mbind, M_bind. rewrite for_of_fmap. cbn [fst snd].
  destruct (for_of (skipped tracker) _ st1 s1) as [[st2|e] s2]; [| done].
  rewrite for_of_fmap. cbn [fst snd].
  by destruct (for_of (closed tracker) _ st2 s2) as [[st3|e] s3].
Qed.

End PushLoops.



(* ------------------------------------------------------------------------- *)
(** ** Verification: retry on a capacity-exceeded response *)
(* ------------------------------------------------------------------------- *)

Section Retry.
Context `{NodeRuntime}.

Lemma notionRequestWithRetry_retry req attempt s retry_after data parsed s1 :
  exchange req s = (Response 429 retry_after data parsed, s1) →
  (attempt < MAX_RETRIES)%nat →
  notionRequestWithRetry req attempt s
  = notionRequestWithRetry req (attempt + 1) (sleep (waitMs retry_after attempt) s1).2.
Proof.
  intros Hex Hlt. rewrite notionRequestWithRetry_equation_1. rewrite Hex. cbn.
  destruct (decide _) as [Hyes|Hno]; [done |]. by destruct Hno.
Qed.

Lemma notionRequestWithRetry_settle req attempt s statusCode retry_after data parsed s1 :
  exchange req s = (Response statusCode retry_after data parsed, s1) →
  ¬ (statusCode = 429 ∧ (attempt < MAX_RETRIES)%nat) →
  notionRequestWithRetry req attempt s = (settle statusCode data parsed, s1).
Proof.
  intros Hex Hno. rewrite notionRequestWithRetry_equation_1. rewrite Hex. cbn.
  by destruct (decide _).
Qed.

Lemma notionRequestWithRetry_error req attempt s s1 :
  exchange req s = (RequestError, s1) →
  notionRequestWithRetry req attempt s = (Throw NetworkError, s1).
Proof. intros Hex. rewrite notionRequestWithRetry_equation_1. by rewrite Hex. Qed.







(** An error of the first request of a page of the query ends the fetch. *)
Lemma fetchLoop_throws budget dbId apiKey filter startCursor pages s err s1 :
  notionRequest "POST" ("/databases/" +:+ dbId +:+ "/query")
    (Some (JObj ([("page_size", JNum 100)] ++ filter
                 ++ (if truthy startCursor then member "start_cursor" startCursor else []))))
    apiKey s = (Throw err, s1) →
  fetchLoop (S budget) dbId apiKey filter startCursor pages s = (Throw err, s1).
Proof. intros Hreq. cbn [fetchLoop]. unfold mbind, M_bind. by rewrite Hreq. Qed.


Lemma pullPhase_throws flags budget config r s err s1 :
  PUSH_ONLY flags = false →
  pullJobs flags budget config (run_syncMap r) (run_tracker r) s = (Throw err, s1) →
  pullPhase flags budget config r s = (Throw err, s1).
Proof.
  intros Hflag Hpull. unfold pullPhase, mbind, M_bind. by rewrite Hflag, Hpull.
Qed.

End Retry.


(** The same responses to the query of the pull phase end the run. *)
Lemma rate_limited_fetch_is_fatal :
  let run := main no_flags 3
               (scripted (take 1 first_run_script ++ replicate 4 (rate_limited (Some "2")))
                  legacy_files) in
  run.1 = Throw (NotionApiError 429 "Rate limited") ∧
  disk run.2 = legacy_files ∧
  waits run.2 = [2500; 3000; 3500].
Proof. intros run. repeat split; vm_compute; reflexivity. Qed.

Section RetryClaim.
Context `{NodeRuntime} (flags : Flags) (config : Config).

Lemma handleDeletions_item_total entityType d syncMap s :
  ∃ syncMap' s',
    handleDeletions_item flags entityType config d syncMap s = (Ok syncMap', s').
Proof.
  unfold handleDeletions_item, try_catch, mbind, M_bind.
  destruct (DRY_RUN flags); [by eexists _, _ |].
  destruct (notionRequest _ _ _ _ s) as [[result|err] s1]; by eexists _, _.
Qed.

End RetryClaim.



(* ------------------------------------------------------------------------- *)
(** ** Verification: the merge of interactions *)
(* ------------------------------------------------------------------------- *)

Section Merge.
Context `{NodeRuntime}.

(** Interactions with the same date, type and summary have the same key. *)
Lemma interaction_key_triple a b :
  Interaction.date a = Interaction.date b →
  Interaction.type a = Interaction.type b →
  Interaction.summary a = Interaction.summary b →
  interaction_key a = interaction_key b.
Proof. unfold interaction_key. by intros -> -> ->. Qed.

(** The loop appends a duplicate-free selection of the parsed entries, none
    of which has a key of [existingKeys]. *)
Lemma merge_loop_appends parsed (existingKeys : gset string) merged :
  ∃ added,
    merge_loop parsed existingKeys merged = merged ++ added ∧
    sublist added parsed ∧
    Forall (λ a, interaction_key a ∉ existingKeys) added ∧
    NoDup (interaction_key <$> added).
Proof.
  revert existingKeys merged.
  induction parsed as [|interaction parsed IH]; intros existingKeys merged; cbn.
  - exists []. rewrite app_nil_r. repeat split; constructor.
  - case_bool_decide as Hkey.
    + destruct (IH existingKeys merged) as (added & -> & Hsub & Hfresh & Hnodup).
      exists added. repeat split; [by apply sublist_cons | done | done].
    + destruct (IH ({[interaction_key interaction]} ∪ existingKeys)
                   (merged ++ [interaction]))
        as (added & -> & Hsub & Hfresh & Hnodup).
      exists (interaction :: added). rewrite <- app_assoc. cbn.
      repeat split; [by apply sublist_skip | |].
      * constructor; [done |]. eapply Forall_impl; [done |]. set_solver.
      * apply NoDup_cons. split; [| done].
        rewrite list_elem_of_fmap. intros (a & Heq & Hin).
        rewrite Forall_forall in Hfresh. specialize (Hfresh a Hin). set_solver.
Qed.

Lemma insert_sorted_Permutation {A} (cmp : A → A → Z) x l :
  insert_sorted cmp x l ≡ₚ x :: l.
Proof.
  induction l as [|y l IH]; cbn; [done |].
  case_bool_decide; [done |]. rewrite IH. apply Permutation_swap.
Qed.

Lemma Array_sort_Permutation {A} (cmp : A → A → Z) l : Array_sort cmp l ≡ₚ l.
Proof.
  induction l as [|x l IH]; cbn; [done |].
  by rewrite insert_sorted_Permutation, IH.
Qed.

Lemma insert_sorted_Sorted {A} (cmp : A → A → Z) x l :
  (∀ a b, cmp a b ≤ 0 ∨ cmp b a ≤ 0) →
  Sorted (λ a b, cmp a b ≤ 0) l →
  Sorted (λ a b, cmp a b ≤ 0) (insert_sorted cmp x l).
Proof.
  intros Htotal. induction 1 as [|y l Hsorted IH Hhd]; cbn.
  - repeat constructor.
  - case_bool_decide as Hxy.
    + constructor; [by constructor | by constructor].
    + constructor; [done |].
      destruct Hhd as [|z l Hyz]; cbn.
      * constructor. destruct (Htotal x y); [done | done].
      * case_bool_decide; constructor; [| done].
        destruct (Htotal x y); done.
Qed.

Lemma Array_sort_Sorted {A} (cmp : A → A → Z) l :
  (∀ a b, cmp a b ≤ 0 ∨ cmp b a ≤ 0) →
  Sorted (λ a b, cmp a b ≤ 0) (Array_sort cmp l).
Proof.
  intros Htotal. induction l as [|x l IH]; cbn; [constructor |].
  by apply insert_sorted_Sorted.
Qed.

End Merge.

(** C5, as stated, fails: when no line of the notes parses, the existing
    sequence is returned as it is, also when it is not ordered by date. *)
Lemma merge_without_parsed_lines_keeps_order :
  mergeInteractions c5_existing "Met at the conference" = c5_existing ∧
  ¬ date_ascending (mergeInteractions c5_existing "Met at the conference").
Proof.
  split; [vm_compute; reflexivity |].
  intros Hsorted. apply Sorted_inv in Hsorted as [_ Hhd].
  apply HdRel_inv in Hhd. vm_compute in Hhd. by apply Hhd.
Qed.

(** C5, amended.  The merged sequence is a rearrangement of the existing
    sequence followed by some of the parsed entries: every existing element
    is kept, an added entry has a (date, type, summary) key that no existing
    entry has, and no two added entries have the same key.  When at least
    one entry is parsed from the notes, the merged sequence is ordered by
    date ascending (for a collation that compares any two dates); when none
    is parsed, the existing sequence is returned unchanged. *)
Theorem merge_is_append_only `{NodeRuntime} (existing : list Interaction.t)
  (notesText : string) :
  (∀ a b : string, localeCompare a b ≤ 0 ∨ localeCompare b a ≤ 0) →
  let parsed := parseInteractionsFromNotes notesText in
  let merged := mergeInteractions existing notesText in
  (∃ added,
     merged ≡ₚ existing ++ added ∧
     sublist added parsed ∧
     Forall (λ a, interaction_key a ∉ interaction_key <$> existing) added ∧
     NoDup (interaction_key <$> added)) ∧
  (parsed ≠ [] → date_ascending merged) ∧
  (parsed = [] → merged = existing).
Proof.
  intros Htotal. cbn zeta. unfold mergeInteractions.
  destruct (parseInteractionsFromNotes notesText) as [|interaction rest] eqn:Hparsed.
  - split; [| done]. exists []. rewrite app_nil_r.
    split; [done |]. split; [constructor |]. split; constructor.
  - destruct (merge_loop_appends (interaction :: rest)
                (list_to_set (interaction_key <$> existing)) existing)
      as (added & Hloop & Hsub & Hfresh & Hnodup).
    rewrite Hloop. split; [| split; [| done]].
    + exists added. split; [apply Array_sort_Permutation |]. split; [done |].
      split; [| done]. eapply Forall_impl; [done |]. cbn. intros a Ha Hin.
      apply Ha. by apply elem_of_list_to_set.
    + intros _. apply Array_sort_Sorted. intros a b. apply Htotal.
Qed.

Lemma compare_code_units_total (a b : string) :
  compare_code_units a b ≤ 0 ∨ compare_code_units b a ≤ 0.
Proof.
  unfold compare_code_units. rewrite (String.compare_antisym b a).
  destruct (String.compare a b); cbn; lia.
Qed.

Lemma merge_is_append_only_witness :
  let notes := "[2026-01-20] call: Intro call" +:+ chr 10
               +:+ "[2026-01-05] email: Sent resume" +:+ chr 10 +:+ "[2026-03-0" in
  mergeInteractions c5_existing notes
  = [Interaction.mk "2026-01-05" "email" "Sent resume" None;
     Interaction.mk "2026-01-20" "call" "Intro call" None;
     Interaction.mk "2026-02-01" "call" "Discussed referral" None] ∧
  date_ascending (mergeInteractions c5_existing notes).
Proof.
  intros notes. split; [vm_compute; reflexivity |].
  refine (proj1 (proj2 (merge_is_append_only c5_existing notes compare_code_units_total)) _).
  vm_compute. discriminate.
Defined.

(* ------------------------------------------------------------------------- *)
(** ** Verification: the hash and the order of the keys *)
(* ------------------------------------------------------------------------- *)

Section Canonical.
Context `{NodeRuntime}.

Lemma String_leb_trans (a b c : string) :
  String.leb a b = true → String.leb b c = true → String.leb a c = true.
Proof.
  unfold String.leb. revert b c.
  induction a as [|x a IH]; intros [|y b] [|z c]; cbn; try done.
  unfold Ascii.compare.
  destruct (N.compare_spec (N_of_ascii x) (N_of_ascii y)) as [Hxy|Hxy|Hxy];
    destruct (N.compare_spec (N_of_ascii y) (N_of_ascii z)) as [Hyz|Hyz|Hyz];
    try done.
  - rewrite Hxy, Hyz, N.compare_refl. apply IH.
  - intros _ _. rewrite Hxy. by apply N.compare_lt_iff in Hyz as ->.
  - intros _ _. rewrite <- Hyz. by apply N.compare_lt_iff in Hxy as ->.
  - intros _ _. assert (N_of_ascii x < N_of_ascii z)%N as Hxz by lia.
    by apply N.compare_lt_iff in Hxz as ->.
Qed.

Lemma sort_strings_Permutation (l l' : list string) :
  l ≡ₚ l' → sort_strings l = sort_strings l'.
Proof.
  intros Hperm. unfold sort_strings.
  set (R := λ a b : string, String.leb a b : Prop).
  assert (Total R) as Htotal.
  { intros a b. unfold R. destruct (String.leb_total a b) as [->| ->]; [by left | by right]. }
  assert (Transitive R) as Htrans.
  { intros a b c Hab Hbc. apply Is_true_true.
    eapply String_leb_trans; by apply Is_true_true. }
  assert (AntiSymm eq R) as Hanti.
  { intros a b Hab Hba. apply String.leb_antisym; by apply Is_true_true. }
  apply (@Sorted_unique _ R Htrans Hanti).
  - by apply Sorted_merge_sort.
  - by apply Sorted_merge_sort.
  - by rewrite !merge_sort_Permutation.
Qed.

Lemma assoc_Some {A} (k : string) (l : list (string * A)) v :
  NoDup l.*1 → assoc k l = Some v ↔ (k, v) ∈ l.
Proof.
  induction l as [|[k' v'] l IH]; cbn; intros Hnodup.
  - split; [done | by intros ?%elem_of_nil].
  - apply NoDup_cons in Hnodup as [Hk' Hnodup].
    destruct (String.eqb_spec k' k) as [->|Hne].
    + split; [intros [= ->]; left |].
      intros [[= ->]|Hin]%elem_of_cons; [done |].
      destruct Hk'. apply list_elem_of_fmap. by exists (k, v).
    + rewrite (IH Hnodup). split; [by right |].
      by intros [[= -> ->]|Hin]%elem_of_cons.
Qed.

Lemma assoc_Permutation {A} (k : string) (l l' : list (string * A)) :
  NoDup l.*1 → l ≡ₚ l' → assoc k l = assoc k l'.
Proof.
  intros Hnodup Hperm.
  assert (NoDup l'.*1) as Hnodup' by by rewrite <- Hperm.
  apply option_eq. intros v.
  by rewrite !assoc_Some, Hperm.
Qed.

Lemma omap_pointwise {A B} (f g : A → option B) (l : list A) :
  (∀ x, f x = g x) → omap f l = omap g l.
Proof. intros Hfg. induction l as [|x l IH]; cbn; [done |]. by rewrite Hfg, IH. Qed.

(** X1.  The canonical hash of a record does not depend on the order of its
    properties: two objects with the same properties, each name once, in
    whatever order, have the same hash. *)
Theorem hashItem_ignores_key_order (item item' : list (string * json)) :
  NoDup (Object_keys item) → item ≡ₚ item' → hashItem item = hashItem item'.
Proof.
  intros Hnodup Hperm. unfold hashItem, JSON_stringify, Object_keys in *.
  rewrite <- (sort_strings_Permutation (map fst item) (map fst item'))
    by by apply Permutation_map.
  do 2 f_equal. cbn [SerializeJSONProperty]. do 3 f_equal.
  apply omap_pointwise. intros P. f_equal.
  apply assoc_Permutation; [| by apply Permutation_map].
  change (NoDup (map fst (map (λ kv : string * json,
            let '(k, x) := kv in
            (k, SerializeJSONProperty (PropertyList [] (sort_strings (map fst item))) x))
            item))).
  rewrite map_map. erewrite map_ext; [done |]. by intros [k x].
Qed.
End Canonical.

Lemma hashItem_ignores_key_order_witness :
  hashItem [("role", JStr "Engineer"); ("company", JStr "Acme")]
  = hashItem [("company", JStr "Acme"); ("role", JStr "Engineer")].
Proof.
  apply hashItem_ignores_key_order; [| apply perm_swap].
  apply NoDup_cons. split; [| apply NoDup_singleton].
  intros Hin%list_elem_of_singleton. discriminate Hin.
Defined.

(* ------------------------------------------------------------------------- *)
(** ** Verification: splitting and joining lines *)
(* ------------------------------------------------------------------------- *)

Section Strings.

Lemma list_ascii_of_string_app (a b : string) :
  list_ascii_of_string (a +:+ b) = list_ascii_of_string a ++ list_ascii_of_string b.
Proof. induction a as [|c a IH]; simpl; [done |]. by f_equal. Qed.

Lemma split_chars_no_sep sep (cs : list ascii) :
  forallb (λ c, negb (ascii_is sep c)) cs = true → split_chars sep cs = [cs].
Proof.
  induction cs as [|c cs IH]; cbn; [done |].
  intros [Hc Hcs]%andb_true_iff. apply negb_true_iff in Hc. rewrite Hc.
  by rewrite (IH Hcs).
Qed.

Lemma split_chars_app sep (cs rest : list ascii) (s : ascii) :
  forallb (λ c, negb (ascii_is sep c)) cs = true → ascii_is sep s = true →
  split_chars sep (cs ++ s :: rest) = cs :: split_chars sep rest.
Proof.
  intros Hcs Hs. induction cs as [|c cs IH]; cbn.
  - by rewrite Hs.
  - cbn in Hcs. apply andb_true_iff in Hcs as [Hc Hcs]. apply negb_true_iff in Hc.
    rewrite Hc. by rewrite (IH Hcs).
Qed.

Lemma split_concat (lines : list string) :
  lines ≠ [] →
  Forall (λ line, forallb (λ c, negb (ascii_is 10 c)) (list_ascii_of_string line) = true)
         lines →
  split 10 (String.concat (chr 10) lines) = lines.
Proof.
  intros Hne Hlines. unfold split.
  induction Hlines as [|line lines Hline Hlines IH]; [done |].
  destruct lines as [|line' lines].
  - cbn. rewrite split_chars_no_sep by done. cbn.
    by rewrite string_of_list_ascii_of_string.
  - cbn [String.concat]. rewrite !list_ascii_of_string_app.
    change (list_ascii_of_string (chr 10)) with [ascii_of_nat 10]. cbn [app].
    rewrite split_chars_app by done. cbn [fmap list_fmap].
    rewrite string_of_list_ascii_of_string. f_equal. by apply IH.
Qed.

End Strings.

(* ------------------------------------------------------------------------- *)
(** ** Verification: merging twice *)
(* ------------------------------------------------------------------------- *)

Section MergeTwice.
Context `{NodeRuntime}.

Lemma merge_loop_known (parsed : list Interaction.t) (existingKeys : gset string) merged :
  Forall (λ i, interaction_key i ∈ existingKeys) parsed →
  merge_loop parsed existingKeys merged = merged.
Proof.
  induction 1 as [|i parsed Hi Hparsed IH]; cbn; [done |].
  by rewrite bool_decide_eq_true_2.
Qed.

(** After the loop every parsed key is a key of [existingKeys] or of an
    element of the result. *)
Lemma merge_loop_covers (parsed : list Interaction.t) (existingKeys : gset string) merged :
  Forall (λ i, interaction_key i ∈ existingKeys
               ∨ interaction_key i ∈ interaction_key <$> merge_loop parsed existingKeys merged)
         parsed.
Proof.
  revert existingKeys merged.
  induction parsed as [|i parsed IH]; intros existingKeys merged; [constructor |].
  cbn. case_bool_decide as Hkey.
  - constructor; [by left | apply IH].
  - destruct (merge_loop_appends parsed ({[interaction_key i]} ∪ existingKeys)
                (merged ++ [i])) as (added & Hloop & _).
    assert (interaction_key i
            ∈ interaction_key <$> merge_loop parsed ({[interaction_key i]} ∪ existingKeys)
                                    (merged ++ [i])) as Hi.
    { rewrite Hloop. apply list_elem_of_fmap. exists i. split; [done |].
      set_solver. }
    constructor; [by right |].
    eapply Forall_impl; [apply IH |]. cbn. intros x [Hx|Hx]; [| by right].
    apply elem_of_union in Hx as [Hx%elem_of_singleton|Hx]; [| by left].
    right. by rewrite Hx.
Qed.

Lemma Array_sort_sorted {A} (cmp : A → A → Z) (l : list A) :
  Sorted (λ a b, cmp a b ≤ 0) l → Array_sort cmp l = l.
Proof.
  induction 1 as [|x l Hsorted IH Hhd]; cbn; [done |].
  fold (Array_sort cmp l). rewrite IH.
  destruct Hhd as [|y l Hxy]; cbn; [done |]. by rewrite bool_decide_eq_true_2.
Qed.

Lemma merge_loop_again (existing : list Interaction.t) (i : Interaction.t) parsed :
  let merged := Array_sort by_date
                  (merge_loop (i :: parsed) (list_to_set (interaction_key <$> existing))
                     existing) in
  merge_loop (i :: parsed) (list_to_set (interaction_key <$> merged)) merged = merged.
Proof.
  intros merged. apply merge_loop_known.
  eapply Forall_impl; [apply (merge_loop_covers (i :: parsed)
                                (list_to_set (interaction_key <$> existing)) existing) |].
  cbn beta. intros x Hx. apply elem_of_list_to_set. unfold merged.
  rewrite Array_sort_Permutation. destruct Hx as [Hx|Hx]; [| done].
  apply elem_of_list_to_set in Hx.
  destruct (merge_loop_appends (i :: parsed) (list_to_set (interaction_key <$> existing))
              existing) as (added & Hloop & _).
  rewrite Hloop, fmap_app, elem_of_app. by left.
Qed.

(** X3.  Merging the same notes again adds nothing: the result of a second
    merge is a rearrangement of the result of the first, and it is the same
    sequence when the collation compares any two dates. *)
Theorem mergeInteractions_twice (existing : list Interaction.t) (notesText : string) :
  let merged := mergeInteractions existing notesText in
  mergeInteractions merged notesText ≡ₚ merged ∧
  ((∀ a b : string, localeCompare a b ≤ 0 ∨ localeCompare b a ≤ 0) →
   mergeInteractions merged notesText = merged).
Proof.
  unfold mergeInteractions.
  destruct (parseInteractionsFromNotes notesText) as [|i parsed] eqn:Hparsed; [done |].
  cbn zeta. rewrite merge_loop_again. split; [apply Array_sort_Permutation |].
  intros Htotal. apply Array_sort_sorted, Array_sort_Sorted.
  intros a b. apply Htotal.
Qed.

End MergeTwice.

Lemma mergeInteractions_twice_witness :
  let notes := "[2026-01-20] call: Intro call" in
  mergeInteractions (mergeInteractions c5_existing notes) notes
  = mergeInteractions c5_existing notes.
Proof.
  intros notes.
  exact (proj2 (mergeInteractions_twice c5_existing notes) compare_code_units_total).
Defined.

(* ------------------------------------------------------------------------- *)
(** ** Verification: interactions through the Notes property *)
(* ------------------------------------------------------------------------- *)

Section Notes.
Context `{NodeRuntime}.

Lemma trim_chars_id (cs : list ascii) :
  match cs with c :: _ => is_white_space c = false | [] => True end →
  match rev cs with c :: _ => is_white_space c = false | [] => True end →
  trim_chars cs = cs.
Proof.
  intros Hfirst Hlast. unfold trim_chars.
  assert (drop_while is_white_space cs = cs) as ->.
  { destruct cs as [|c cs]; [done |]. cbn. by rewrite Hfirst. }
  assert (drop_while is_white_space (rev cs) = rev cs) as ->.
  { destruct (rev cs) as [|c cs']; [done |]. cbn. by rewrite Hlast. }
  apply rev_involutive.
Qed.

Lemma take_while_app {A} (p : A → bool) (l r : list A) (x : A) :
  forallb p l = true → p x = false → take_while p (l ++ x :: r) = l.
Proof.
  intros Hl Hx. induction l as [|y l IH]; cbn; [by rewrite Hx |].
  cbn in Hl. apply andb_true_iff in Hl as [-> Hl]. by rewrite IH.
Qed.

Lemma drop_while_app {A} (p : A → bool) (l r : list A) (x : A) :
  forallb p l = true → p x = false → drop_while p (l ++ x :: r) = x :: r.
Proof.
  intros Hl Hx. induction l as [|y l IH]; cbn; [by rewrite Hx |].
  cbn in Hl. apply andb_true_iff in Hl as [-> Hl]. by rewrite IH.
Qed.

Lemma word_char_not_white_space (c : ascii) :
  is_word_char c = true → is_white_space c = false.
Proof.
  unfold is_word_char, is_white_space, is_digit. intros Hc.
  apply bool_decide_eq_false. intros Hin.
  repeat (apply elem_of_cons in Hin as [Heq|Hin];
          [rewrite Heq in Hc; vm_compute in Hc; discriminate |]).
  by apply elem_of_nil in Hin.
Qed.

Lemma forallb_weaken {A} (p q : A → bool) (l : list A) :
  (∀ x, p x = true → q x = true) → forallb p l = true → forallb q l = true.
Proof.
  intros Hpq. induction l as [|x l IH]; cbn; [done |].
  intros [Hx Hl]%andb_true_iff. by rewrite (Hpq x Hx), IH.
Qed.

Lemma match_summary_space (cs : list ascii) :
  is_summary cs = true → match_summary (" "%char :: cs) = Some cs.
Proof.
  unfold is_summary, match_summary. destruct cs as [|c cs]; [done |].
  destruct (rev (c :: cs)) as [|l r]; [done |].
  intros [[Hc%negb_true_iff _]%andb_true_iff Hall]%andb_true_iff.
  cbn [take_while drop_while]. change (is_white_space " ") with true.
  cbn [take_while drop_while]. rewrite Hc.
  by rewrite (forallb_weaken _ (λ c, negb (is_line_terminator c)) _
                (λ x Hx, proj1 (proj1 (andb_true_iff _ _) Hx)) Hall).
Qed.

Lemma match_interaction_line (i : Interaction.t) :
  loggable i →
  match_interaction (trim_chars (list_ascii_of_string (interaction_line i)))
  = Some (logged i).
Proof.
  destruct i as [date type summary links].
  intros (Hdate & Htype_ne & Htype & Hsummary). cbn in Hdate, Htype_ne, Htype, Hsummary.
  unfold interaction_line, logged. cbn [Interaction.date Interaction.type Interaction.summary].
  rewrite <- (string_of_list_ascii_of_string date) at 2.
  rewrite <- (string_of_list_ascii_of_string type) at 2.
  rewrite <- (string_of_list_ascii_of_string summary) at 2.
  rewrite !list_ascii_of_string_app.
  unfold is_iso_date in Hdate.
  destruct (list_ascii_of_string date)
    as [|y1 [|y2 [|y3 [|y4 [|h1 [|m1 [|m2 [|h2 [|d1 [|d2 [|? ?]]]]]]]]]]]; try done.
  destruct (list_ascii_of_string type) as [|t0 tchars] eqn:Htchars.
  { destruct type; done. }
  set (schars := list_ascii_of_string summary) in *.
  cbn [list_ascii_of_string app].
  rewrite trim_chars_id.
  2: { done. }
  2: { cbn [rev]. rewrite rev_app_distr. cbn [rev].
       unfold is_summary in Hsummary. destruct schars as [|c cs]; [done |].
       destruct (rev (c :: cs)) as [|l r]; [done |]. cbn.
       apply andb_true_iff in Hsummary as [[_ Hl]%andb_true_iff _].
       by apply negb_true_iff. }
  unfold match_interaction.
  cbn [forallb] in Hdate. rewrite !andb_true_iff in Hdate.
  destruct Hdate as [[(? & ? & ? & ? & ? & ? & ? & ? & _) ?] ?].
  cbn [forallb].
  repeat match goal with Hc : _ = true |- _ => rewrite Hc; clear Hc end.
  change (ascii_is 91 "[") with true. change (ascii_is 93 "]") with true.
  cbn [andb].
  assert (is_white_space t0 = false) as Ht0.
  { apply word_char_not_white_space. cbn in Htype. by apply andb_true_iff in Htype as [? _]. }
  cbn [take_while drop_while]. change (is_white_space " ") with true.
  cbn [take_while drop_while]. rewrite Ht0.
  rewrite (app_comm_cons tchars).
  rewrite (take_while_app is_word_char), (drop_while_app is_word_char) by done.
  change (ascii_is 58 ":") with true. cbn iota.
  by rewrite (match_summary_space schars Hsummary).
Qed.

Lemma forallb_app_true {A} (p : A → bool) (l r : list A) :
  forallb p l = true → forallb p r = true → forallb p (l ++ r) = true.
Proof. intros Hl Hr. by rewrite forallb_app, Hl, Hr. Qed.

Lemma interaction_line_one_line (i : Interaction.t) :
  loggable i →
  forallb (λ c, negb (ascii_is 10 c)) (list_ascii_of_string (interaction_line i)) = true.
Proof.
  destruct i as [date type summary links].
  intros (Hdate & _ & Htype & Hsummary). cbn in Hdate, Htype, Hsummary.
  unfold interaction_line. cbn [Interaction.date Interaction.type Interaction.summary].
  rewrite !list_ascii_of_string_app.
  repeat apply forallb_app_true; try done.
  - unfold is_iso_date in Hdate.
    destruct (list_ascii_of_string date)
      as [|y1 [|y2 [|y3 [|y4 [|h1 [|m1 [|m2 [|h2 [|d1 [|d2 [|? ?]]]]]]]]]]]; try done.
    cbn [forallb] in Hdate. rewrite !andb_true_iff in Hdate.
    destruct Hdate as [[(? & ? & ? & ? & ? & ? & ? & ? & _) ?] ?].
    assert (∀ c, is_digit c = true → negb (ascii_is 10 c) = true) as Hdigit.
    { intros c Hc. unfold is_digit, ascii_is in *. 
      destruct (Nat.eqb_spec (nat_of_ascii c) 10) as [Heq|]; [| done].
      rewrite Heq in Hc. done. }
    assert (∀ c, ascii_is 45 c = true → negb (ascii_is 10 c) = true) as Hhyphen.
    { intros c Hc. unfold ascii_is in *. apply Nat.eqb_eq in Hc. by rewrite Hc. }
    cbn [forallb].
    repeat (apply andb_true_intro; split);
      first [done | by apply Hdigit | by apply Hhyphen].
  - eapply forallb_weaken; [| exact Htype]. intros c Hc.
    unfold is_word_char, is_digit, ascii_is in *.
    destruct (Nat.eqb_spec (nat_of_ascii c) 10) as [Heq|]; [| done].
    rewrite Heq in Hc. done.
  - unfold is_summary in Hsummary.
    destruct (list_ascii_of_string summary) as [|c cs]; [done |].
    destruct (rev (c :: cs)); [done |].
    apply andb_true_iff in Hsummary as [_ Hall].
    eapply forallb_weaken; [| exact Hall]. intros x [Hx _]%andb_true_iff.
    unfold is_line_terminator, ascii_is in *.
    by destruct (Nat.eqb_spec (nat_of_ascii x) 10).
Qed.

Lemma parse_interaction_lines (l : list Interaction.t) :
  l ≠ [] → Forall loggable l →
  parseInteractionsFromNotes (String.concat (chr 10) (interaction_line <$> l))
  = logged <$> l.
Proof.
  intros Hne Hl. unfold parseInteractionsFromNotes.
  assert (String.concat (chr 10) (interaction_line <$> l) ≠ EmptyString) as Htext.
  { destruct l as [|i [|i' l]]; [done | |]; by destruct i. }
  apply String.eqb_neq in Htext as ->.
  rewrite split_concat.
  - clear Hne. induction Hl as [|i l Hi Hl IH]; [done |]. cbn.
    by rewrite (match_interaction_line i Hi), IH.
  - by destruct l.
  - clear Hne. induction Hl as [|i l Hi Hl IH]; constructor; [| done].
    by apply interaction_line_one_line.
Qed.

Lemma assoc_prop_if_other (k k' : string) (v : jsval) (mk : string → json) rest :
  k ≠ k' → assoc k (prop_if k' v mk ++ rest) = assoc k rest.
Proof.
  intros Hne. unfold prop_if. destruct (truthy v); [| done]. cbn.
  by destruct (String.eqb_spec k' k).
Qed.

Lemma substring_whole (s : string) (n : nat) :
  (String.length s ≤ n)%nat → String.substring 0 n s = s.
Proof.
  revert n. induction s as [|c s IH]; intros [|n]; cbn; try done; [lia |].
  intros Hn. rewrite IH; [done | lia].
Qed.

(** X2.  The interaction log survives the trip through the Notes property:
    for a contact whose interactions all fit the line format and whose
    notes stay within 2000 characters, the Notes that the push sends parse
    back to the same interactions (without their job links), and merging
    them into the log adds nothing. *)
Theorem interactions_survive_notes (contact : Contact.t) (l : list Interaction.t) :
  Contact.interactions contact = Some l → l ≠ [] → Forall loggable l →
  (String.length (String.concat (chr 10) (interaction_line <$> l)) ≤ 2000)%nat →
  ∃ props notes,
    contactToNotionProperties contact = JObj props ∧
    assoc "Notes" props = Some (rich_text notes) ∧
    parseInteractionsFromNotes notes = logged <$> l ∧
    mergeInteractions l notes ≡ₚ l.
Proof.
  intros Hl Hne Hloggable Hlength. unfold contactToNotionProperties. rewrite Hl.
  destruct l as [|i l]; [done |].
  eexists _, (String.concat (chr 10) (interaction_line <$> i :: l)).
  split; [done |]. split.
  { cbn [app assoc]. rewrite !assoc_prop_if_other by done.
    rewrite substring_whole by done. done. }
  split; [by apply parse_interaction_lines |].
  unfold mergeInteractions. rewrite parse_interaction_lines by done.
  assert (merge_loop (logged <$> i :: l) (list_to_set (interaction_key <$> i :: l)) (i :: l)
          = i :: l) as Hloop.
  { apply merge_loop_known, Forall_fmap, Forall_forall. intros x Hx.
    apply elem_of_list_to_set, list_elem_of_fmap. by exists x. }
  cbn [fmap list_fmap] in *. rewrite Hloop. apply Array_sort_Permutation.
Qed.

End Notes.

Lemma interactions_survive_notes_witness :
  ∃ props notes,
    contactToNotionProperties (jane "Sent resume") = JObj props ∧
    assoc "Notes" props = Some (rich_text notes) ∧
    parseInteractionsFromNotes notes
    = [Interaction.mk "2026-01-26" "email" "Sent resume" None] ∧
    mergeInteractions [Interaction.mk "2026-01-26" "email" "Sent resume" None] notes
    ≡ₚ [Interaction.mk "2026-01-26" "email" "Sent resume" None].
Proof.
  apply (interactions_survive_notes (jane "Sent resume")
           [Interaction.mk "2026-01-26" "email" "Sent resume" None]).
  - reflexivity.
  - discriminate.
  - constructor; [| constructor]. repeat split; [discriminate].
  - apply Nat.leb_le. vm_compute. reflexivity.
Defined.

(* ------------------------------------------------------------------------- *)
(** ** Verification: finding a job by its local id *)
(* ------------------------------------------------------------------------- *)

Section FindJob.
Context `{NodeRuntime}.

Lemma split_key (status company role : string) :
  colon_free status → colon_free company → colon_free role →
  split 58 (status +:+ ":" +:+ company +:+ ":" +:+ role) = [status; company; role].
Proof.
  unfold colon_free, split. intros Hstatus Hcompany Hrole.
  rewrite !list_ascii_of_string_app. cbn [list_ascii_of_string app].
  rewrite !split_chars_app, split_chars_no_sep by done. cbn.
  by rewrite !string_of_list_ascii_of_string.
Qed.

Lemma arrayMap_Own status a :
  arrayMap status = Own a →
  colon_free status ∧ 
  status = match a with active_ => "Active" | skipped_ => "Skipped" | closed_ => "Closed" end.
Proof.
  unfold arrayMap.
  destruct (String.eqb_spec status "Active") as [->|_]; [by intros [= <-] |].
  destruct (String.eqb_spec status "Skipped") as [->|_]; [by intros [= <-] |].
  destruct (String.eqb_spec status "Closed") as [->|_]; [by intros [= <-] |].
  by case_bool_decide.
Qed.

(** X4.  What [findJobInTracker] returns is the job at the returned index of
    the returned array.  A job of the tracker whose company and role have no
    colon is found again by its local id: in its own array, at the first
    index of a job with that company and role. *)
Theorem findJobInTracker_by_local_id (tracker : Tracker) :
  (∀ localKey found,
     findJobInTracker tracker localKey = Some found →
     bucket tracker (arrayName found) !! index found = Some (job found)) ∧
  (∀ status a i j company role,
     arrayMap status = Own a →
     bucket tracker a !! i = Some j →
     Job.company j = Str company → Job.role j = Str role →
     colon_free company → colon_free role →
     ∃ found,
       findJobInTracker tracker (getJobLocalId j status) = Some found ∧
       arrayName found = a ∧ (index found ≤ i)%nat ∧
       Job.company (job found) = Str company ∧ Job.role (job found) = Str role).
Proof.
  split.
  - intros localKey found. unfold findJobInTracker.
    destruct (arrayMap _) as [a| |]; [| done | done].
    destruct (list_find _ _) as [[i j]|] eqn:Hfind; [| done].
    intros [= <-]. cbn. by apply list_find_Some in Hfind as [? _].
  - intros status a i j company role Ha Hj Hcompany Hrole Hc Hr.
    destruct (arrayMap_Own status a Ha) as [Hs _].
    unfold findJobInTracker, getJobLocalId. rewrite Hcompany, Hrole. cbn [ToString].
    rewrite split_key by done. cbn [part lookup list_lookup ToString]. rewrite Ha.
    destruct (list_find (λ j0, Job.company j0 = Str company ∧ Job.role j0 = Str role)
                (bucket tracker a)) as [[i' j']|] eqn:Hfind.
    + apply list_find_Some in Hfind as (Hi' & [Hc' Hr'] & Hfirst).
      eexists. split; [done |]. cbn. split; [done |]. split; [| done].
      destruct (decide (i' ≤ i)%nat) as [|Hlt]; [done |].
      destruct (Hfirst i j Hj); [lia | done].
    + apply list_find_None in Hfind. 
      rewrite Forall_forall in Hfind. destruct (Hfind j); [| done].
      by eapply list_elem_of_lookup_2.
Qed.

End FindJob.

Lemma findJobInTracker_by_local_id_witness :
  ∃ found,
    findJobInTracker scenario_A_tracker "Active:Acme:Engineer" = Some found ∧
    arrayName found = active_ ∧ (index found ≤ 0)%nat ∧
    Job.company (job found) = Str "Acme" ∧ Job.role (job found) = Str "Engineer".
Proof.
  apply (proj2 (findJobInTracker_by_local_id scenario_A_tracker)
           "Active" active_ 0%nat (plain_job "Acme" "Engineer") "Acme" "Engineer");
    reflexivity.
Defined.

(* ------------------------------------------------------------------------- *)
(** ** Verification: the migration of a flat sync map *)
(* ------------------------------------------------------------------------- *)

Section Migration.

Lemma assoc_snoc {A} (k k' : string) (v : A) (l : list (string * A)) :
  assoc k (l ++ [(k', v)])
  = match assoc k l with
    | Some x => Some x
    | None => if String.eqb k' k then Some v else None
    end.
Proof.
  induction l as [|[k0 v0] l IH]; cbn; [done |].
  by destruct (String.eqb k0 k).
Qed.

Lemma assoc_None {A} (k : string) (l : list (string * A)) :
  k ∉ l.*1 → assoc k l = None.
Proof.
  induction l as [|[k0 v0] l IH]; cbn; [done |].
  intros Hk. apply not_elem_of_cons in Hk as [Hne Hk].
  destruct (String.eqb_spec k0 k); [done | by apply IH].
Qed.

Lemma entries_of_set_entry type type' key entry m key' :
  entity_type type → entity_type type' →
  entries_of type' (set_entry type key entry m) !! key'
  = if decide (type' = type ∧ key' = key) then Some entry else entries_of type' m !! key'.
Proof.
  unfold entity_type. intros Ht Ht'.
  repeat (apply elem_of_cons in Ht as [->|Ht]); [| | | by apply elem_of_nil in Ht];
    (repeat (apply elem_of_cons in Ht' as [->|Ht']); [| | | by apply elem_of_nil in Ht']);
    cbn; 
    try (destruct (decide (_ ∧ _)) as [[? ?]|?]; [done | done]);
    destruct (decide (key' = key)) as [->|Hne];
    [rewrite decide_True by done; apply lookup_insert_eq
    |rewrite decide_False by (by intros [_ ?]); by apply lookup_insert_ne
    |rewrite decide_True by done; apply lookup_insert_eq
    |rewrite decide_False by (by intros [_ ?]); by apply lookup_insert_ne
    |rewrite decide_True by done; apply lookup_insert_eq
    |rewrite decide_False by (by intros [_ ?]); by apply lookup_insert_ne].
Qed.

Lemma migrate_entries_snoc type old key value m :
  migrate_entries type (old ++ [(key, value)]) m
  = let migrated := migrate_entries type old m in
    let migrated' := set_entry type key (migrated_entry value) migrated in
    match raw_page_id value with
    | Some pageId =>
        set_notionToLocal (<[pageId := mkReverse type (Str key)]> (notionToLocal migrated'))
                          migrated'
    | None => migrated'
    end.
Proof.
  unfold migrate_entries. rewrite foldl_app. cbn.
  destruct value as [pageId|entry]; cbn; [| by destruct (truthy (notionId entry))].
  f_equal. unfold set_entry. by repeat case_match.
Qed.

Lemma entries_of_set_notionToLocal type r m :
  entries_of type (set_notionToLocal r m) = entries_of type m.
Proof. unfold entries_of. by repeat case_match. Qed.

Lemma notionToLocal_set_entry type key entry m :
  notionToLocal (set_entry type key entry m) = notionToLocal m.
Proof. unfold set_entry. by repeat case_match. Qed.

Lemma lastSyncTime_set_entry type key entry m :
  lastSyncTime (set_entry type key entry m) = lastSyncTime m.
Proof. unfold set_entry. by repeat case_match. Qed.

Lemma migrate_entries_lastSyncTime type old m :
  lastSyncTime (migrate_entries type old m) = lastSyncTime m.
Proof.
  induction old as [|[key value] old IH] using rev_ind; [done |].
  rewrite migrate_entries_snoc. cbn zeta.
  destruct (raw_page_id value); cbn; by rewrite lastSyncTime_set_entry.
Qed.

Lemma migrate_entries_lookup type old m type' key :
  entity_type type → entity_type type' → NoDup old.*1 →
  entries_of type' (migrate_entries type old m) !! key
  = match (if decide (type' = type) then assoc key old else None) with
    | Some value => Some (migrated_entry value)
    | None => entries_of type' m !! key
    end.
Proof.
  intros Ht Ht'. induction old as [|[key0 value] old IH] using rev_ind; intros Hnodup.
  { cbn. by destruct (decide _). }
  rewrite fmap_app in Hnodup. apply NoDup_app in Hnodup as (Hold & Hfresh & _).
  rewrite migrate_entries_snoc. cbn zeta.
  assert (entries_of type'
            (set_entry type key0 (migrated_entry value) (migrate_entries type old m)) !! key
          = match (if decide (type' = type) then assoc key (old ++ [(key0, value)]) else None) with
            | Some value => Some (migrated_entry value)
            | None => entries_of type' m !! key
            end) as Hstep.
  { rewrite entries_of_set_entry, (IH Hold) by done.
    destruct (decide (type' = type)) as [->|Hne].
    - rewrite assoc_snoc. destruct (decide (key = key0)) as [->|Hkey].
      + rewrite decide_True by done. rewrite assoc_None, String.eqb_refl; [done |].
        intros Hin. apply (Hfresh key0 Hin). cbn. by left.
      + rewrite decide_False by (by intros [_ ?]).
        destruct (assoc key old); [done |].
        by destruct (String.eqb_spec key0 key) as [->|_].
    - by rewrite decide_False by (by intros [? _]). }
  destruct (raw_page_id value); [by rewrite entries_of_set_notionToLocal | done].
Qed.

Lemma migrate_entries_reverse type old m pageId :
  (∀ value, value ∈ old.*2 → raw_page_id value ≠ Some pageId) →
  notionToLocal (migrate_entries type old m) !! pageId = notionToLocal m !! pageId.
Proof.
  induction old as [|[key value] old IH] using rev_ind; intros Hother; [done |].
  rewrite migrate_entries_snoc. cbn zeta.
  assert (raw_page_id value ≠ Some pageId) as Hvalue.
  { apply Hother. rewrite fmap_app, elem_of_app. right. by apply list_elem_of_singleton. }
  assert (notionToLocal (migrate_entries type old m) !! pageId = notionToLocal m !! pageId)
    as Hold.
  { apply IH. intros v Hv. apply Hother. rewrite fmap_app, elem_of_app. by left. }
  destruct (raw_page_id value) as [pageId'|]; cbn.
  - rewrite lookup_insert_ne by congruence. by rewrite notionToLocal_set_entry.
  - by rewrite notionToLocal_set_entry.
Qed.

Lemma migrate_entries_reverse_own type old m key value pageId :
  NoDup (omap raw_page_id old.*2) →
  (key, value) ∈ old → raw_page_id value = Some pageId →
  notionToLocal (migrate_entries type old m) !! pageId = Some (mkReverse type (Str key)).
Proof.
  induction old as [|[key0 value0] old IH] using rev_ind; intros Hnodup Hin Hid.
  { by apply elem_of_nil in Hin. }
  rewrite fmap_app, omap_app in Hnodup. apply NoDup_app in Hnodup as (Hold & Hfresh & _).
  rewrite migrate_entries_snoc. cbn zeta.
  apply elem_of_app in Hin as [Hin|Hin].
  - assert (raw_page_id value0 ≠ Some pageId) as Hne.
    { intros Heq. apply (Hfresh pageId).
      - apply list_elem_of_omap. exists value. split; [| done].
        apply list_elem_of_fmap. by exists (key, value).
      - cbn. rewrite Heq. by left. }
    destruct (raw_page_id value0) as [pageId'|]; cbn.
    + rewrite lookup_insert_ne by congruence. rewrite notionToLocal_set_entry. by apply IH.
    + rewrite notionToLocal_set_entry. by apply IH.
  - apply list_elem_of_singleton in Hin as [= -> ->]. rewrite Hid. cbn.
    apply lookup_insert_eq.
Qed.

(** X5.  The migration of a flat sync map, whose dictionaries have each key
    once: the watermark is null, so that the next pull is a baseline; each
    dictionary has exactly the keys of the file, a page id becoming an entry
    with that id and neither hash nor edit time; and, the page ids of the
    file being distinct, the reverse index maps each of them to its entity
    type and key. *)
Theorem migrateSyncMap_of_flat_file (raw : LegacySyncMap) :
  let migrated := migrateSyncMap (Legacy raw) in
  Forall (λ file, NoDup file.2.*1) (legacy_files_of raw) →
  lastSyncTime migrated = Null ∧
  (∀ type old key,
     (type, old) ∈ legacy_files_of raw →
     entries_of type migrated !! key = migrated_entry <$> assoc key old) ∧
  (NoDup (omap raw_page_id (raw_jobs raw ++ raw_contacts raw ++ raw_tasks raw).*2) →
   ∀ type old key value pageId,
     (type, old) ∈ legacy_files_of raw →
     (key, value) ∈ old → raw_page_id value = Some pageId →
     notionToLocal migrated !! pageId = Some (mkReverse type (Str key))).
Proof.
  intros migrated Hfiles. unfold legacy_files_of in *.
  apply Forall_cons in Hfiles as [Hjobs Hfiles].
  apply Forall_cons in Hfiles as [Hcontacts Hfiles].
  apply Forall_cons in Hfiles as [Htasks _]. cbn in Hjobs, Hcontacts, Htasks.
  assert (entity_type "jobs" ∧ entity_type "contacts" ∧ entity_type "tasks")
    as (Hj & Hc & Ht) by (unfold entity_type; set_solver).
  unfold migrated, migrateSyncMap. split; [by rewrite !migrate_entries_lastSyncTime |].
  split.
  - intros type old key Hin.
    repeat (apply elem_of_cons in Hin as [[= -> ->]|Hin]); [| | | by apply elem_of_nil in Hin];
      rewrite !migrate_entries_lookup by done; cbn;
      by repeat (destruct (assoc key _); cbn).
  - intros Hids type old key value pageId Hin Hvalue Hid.
    rewrite !fmap_app, !omap_app in Hids.
    apply NoDup_app in Hids as (Hjobs' & Hjc & Hids).
    apply NoDup_app in Hids as (Hcontacts' & Hct & Htasks').
    assert (pageId ∈ omap raw_page_id old.*2) as Hmine.
    { apply list_elem_of_omap. exists value. split; [| done].
      apply list_elem_of_fmap. by exists (key, value). }
    repeat (apply elem_of_cons in Hin as [[= -> ->]|Hin]); [| | | by apply elem_of_nil in Hin].
    + rewrite (migrate_entries_reverse "tasks").
      2: { intros v Hv Heq. apply (Hjc pageId Hmine), elem_of_app. right.
           apply list_elem_of_omap. by exists v. }
      rewrite (migrate_entries_reverse "contacts").
      2: { intros v Hv Heq. apply (Hjc pageId Hmine), elem_of_app. left.
           apply list_elem_of_omap. by exists v. }
      by eapply migrate_entries_reverse_own.
    + rewrite (migrate_entries_reverse "tasks").
      * by eapply migrate_entries_reverse_own.
      * intros v Hv Heq. apply (Hct pageId Hmine).
        apply list_elem_of_omap. by exists v.
    + by eapply migrate_entries_reverse_own.
Qed.

End Migration.

Lemma migrateSyncMap_of_flat_file_witness :
  let migrated := migrateSyncMap (Legacy flat_file) in
  lastSyncTime migrated = Null ∧
  jobs migrated !! "Active:Acme:Engineer"
  = Some (mkEntry (Str "page-1") Null Null Undefined Undefined) ∧
  notionToLocal migrated !! "page-2" = Some (mkReverse "contacts" (Str "jane-doe")).
Proof.
  intros migrated.
  assert (Forall (λ file : string * list (string * RawValue), NoDup file.2.*1)
            (legacy_files_of flat_file)) as Hkeys.
  { repeat constructor; by intros ?%elem_of_nil. }
  destruct (migrateSyncMap_of_flat_file flat_file Hkeys) as (Htime & Hentries & Hreverse).
  assert (NoDup (omap raw_page_id
                   (raw_jobs flat_file ++ raw_contacts flat_file ++ raw_tasks flat_file).*2))
    as Hids.
  { apply NoDup_cons. split; [| apply NoDup_singleton].
    intros Hin%list_elem_of_singleton. discriminate Hin. }
  split; [exact Htime |]. split.
  - apply (Hentries "jobs" (raw_jobs flat_file)). by left.
  - apply (Hreverse Hids "contacts" (raw_contacts flat_file)
             "jane-doe" (RawString "page-2")); [by right; left | by left | reflexivity].
Defined.

(* ------------------------------------------------------------------------- *)
(** ** Verification: the requests that a run sends *)
(* ------------------------------------------------------------------------- *)

(** The case analysis of a step of a push loop, along its branches. *)
Ltac push_item_runs :=
  unfold try_catch, count_error, mbind, M_bind, mret, M_ret, sleep;
  repeat match goal with
         | |- context [is_unchanged ?f ?e ?h] => destruct (is_unchanged f e h) eqn:?
         | |- context [DRY_RUN ?f] => destruct (DRY_RUN f) eqn:?
         | |- context [truthy (notionId_of ?e)] => destruct (truthy (notionId_of e)) eqn:?
         | |- context [notionRequest ?m ?p ?b ?k ?s] =>
             destruct (notionRequest m p b k s) as [[?result|?err] ?s1] eqn:?
         end;
  cbn.

Section Tame.
Context `{NodeRuntime}.

Lemma requests_app t1 t2 : requests (t1 ++ t2) = requests t1 ++ requests t2.
Proof. apply omap_app. Qed.

Lemma tame_ret {A} P (a : A) : tame P (mret a).
Proof.
  intros s r s' [= <- <-]. split; [done |]. exists []. by rewrite app_nil_r.
Qed.

Lemma tame_throw {A} P e : tame P (throw e : M A).
Proof.
  intros s r s' [= <- <-]. split; [done |]. exists []. by rewrite app_nil_r.
Qed.

Lemma tame_mono {A} (P Q : Request → Prop) (m : M A) :
  (∀ r, P r → Q r) → tame P m → tame Q m.
Proof.
  intros HPQ Hm s r s' Hrun. destruct (Hm _ _ _ Hrun) as (Hdisk & sent & Hsent & HP).
  split; [done |]. exists sent. split; [done |]. by eapply Forall_impl.
Qed.

Lemma tame_bind {A B} P (m : M A) (k : A → M B) :
  tame P m → (∀ a, tame P (k a)) → tame P (m ≫= k).
Proof.
  intros Hm Hk s r s'. unfold mbind, M_bind.
  destruct (m s) as [[a|e] s1] eqn:Hrun;
    destruct (Hm _ _ _ Hrun) as (Hdisk & sent & Hsent & HP).
  - intros Hrun'. destruct (Hk a _ _ _ Hrun') as (Hdisk' & sent' & Hsent' & HP').
    split; [congruence |]. exists (sent ++ sent').
    split; [by rewrite Hsent', Hsent, app_assoc | by apply Forall_app].
  - intros [= <- <-]. split; [done |]. by exists sent.
Qed.

Lemma tame_try_catch {A} P (body : M A) (handler : Error → M A) :
  tame P body → (∀ e, tame P (handler e)) → tame P (try_catch body handler).
Proof.
  intros Hbody Hhandler s r s'. unfold try_catch.
  destruct (body s) as [[a|e] s1] eqn:Hrun;
    destruct (Hbody _ _ _ Hrun) as (Hdisk & sent & Hsent & HP).
  - intros [= <- <-]. split; [done |]. by exists sent.
  - intros Hrun'. destruct (Hhandler e _ _ _ Hrun') as (Hdisk' & sent' & Hsent' & HP').
    split; [congruence |]. exists (sent ++ sent').
    split; [by rewrite Hsent', Hsent, app_assoc | by apply Forall_app].
Qed.

Lemma tame_for_of {A S} P (xs : list A) (body : A → S → M S) st :
  (∀ x st, tame P (body x st)) → tame P (for_of xs body st).
Proof.
  intros Hbody. revert st. induction xs as [|x xs IH]; intros st; cbn.
  - apply tame_ret.
  - apply tame_bind; [apply Hbody | apply IH].
Qed.

Lemma tame_emit P ev :
  match ev with EvRequest _ => False | _ => True end → tame P (emit ev).
Proof.
  intros Hev s r s' [= <- <-]. split; [done |]. exists []. cbn.
  rewrite requests_app. by destruct ev.
Qed.

Lemma tame_sleep P ms : tame P (sleep ms).
Proof.
  intros s r s' [= <- <-]. split; [done |]. exists []. cbn. by rewrite requests_app.
Qed.

Lemma tame_get_world P : tame P get_world.
Proof.
  intros s r s' [= <- <-]. split; [done |]. exists []. by rewrite app_nil_r.
Qed.

Lemma tame_read_disk P : tame P read_disk.
Proof.
  intros s r s' [= <- <-]. split; [done |]. exists []. by rewrite app_nil_r.
Qed.

Lemma tame_fs_do P op : tame P (fs_do op).
Proof.
  intros s r s'. unfold fs_do.
  destruct (op (world s)); intros [= <- <-]; (split; [done |]);
    exists []; by rewrite app_nil_r.
Qed.

Lemma exchange_requests req s :
  requests (trace (exchange req s).2) = requests (trace s) ++ [req].
Proof.
  unfold exchange. destruct (https_request req (world s)). cbn.
  by rewrite requests_app.
Qed.

Lemma sleep_requests ms s : requests (trace (sleep ms s).2) = requests (trace s).
Proof. cbn. rewrite requests_app. cbn. by rewrite app_nil_r. Qed.

(** The attempts of a request send the same request again: between one and
    [MAX_RETRIES + 1 - attempt] times, with one timer before each retry. *)
Lemma exchange_waits req s : waits (exchange req s).2 = waits s.
Proof.
  unfold exchange, waits. destruct (https_request req (world s)). cbn.
  rewrite omap_app. cbn. by rewrite app_nil_r.
Qed.

Lemma sleep_waits ms s : waits (sleep ms s).2 = waits s ++ [timerDelay ms].
Proof. unfold waits. cbn. by rewrite omap_app. Qed.

Lemma notionRequestWithRetry_resends req attempt s :
  let s' := (notionRequestWithRetry req attempt s).2 in
  disk s' = disk s ∧
  ∃ n, (1 ≤ n ≤ S (MAX_RETRIES - attempt))%nat ∧
       requests (trace s') = requests (trace s) ++ replicate n req ∧
       length (waits s') = (length (waits s) + (n - 1))%nat.
Proof.
  cbn zeta. funelim (notionRequestWithRetry req attempt s).
  - pose proof (exchange_disk req s) as Hdisk.
    pose proof (exchange_requests req s) as Hreq.
    pose proof (exchange_waits req s) as Hwaits.
    rewrite Heq in Hdisk, Hreq, Hwaits. cbn in *.
    split; [done |]. exists 1%nat. split; [lia |]. split; [done |]. rewrite Hwaits. lia.
  - pose proof (exchange_disk req s) as Hdisk.
    pose proof (exchange_requests req s) as Hreq.
    pose proof (exchange_waits req s) as Hwaits.
    rewrite Heq0 in Hdisk, Hreq, Hwaits. cbn [snd] in *.
    assert (attempt < MAX_RETRIES)%nat as Hlt by apply a.
    match goal with IH : _ ∧ _ |- _ => destruct IH as (Hdisk' & n & Hn & Hreq' & Hwaits') end.
    rewrite sleep_requests in Hreq'. rewrite sleep_waits, length_app in Hwaits'.
    split; [by rewrite Hdisk' |]. exists (S n). split; [lia |].
    split; [rewrite Hreq', Hreq, <- app_assoc; done |].
    rewrite Hwaits', Hwaits. cbn. lia.
  - pose proof (exchange_disk req s) as Hdisk.
    pose proof (exchange_requests req s) as Hreq.
    pose proof (exchange_waits req s) as Hwaits.
    rewrite Heq0 in Hdisk, Hreq, Hwaits. cbn in *.
    split; [done |]. exists 1%nat. split; [lia |]. split; [done |]. rewrite Hwaits. lia.
Qed.

(** X6.  The attempts of a request send the same request again: at least
    once and at most [MAX_RETRIES + 1 - attempt] times, with one timer
    before each retry, and without writing a file. *)
Theorem request_is_resent_verbatim (req : Request) (attempt : nat) (s : Sys) :
  let s' := (notionRequestWithRetry req attempt s).2 in
  disk s' = disk s ∧
  ∃ n, (1 ≤ n ≤ S (MAX_RETRIES - attempt))%nat ∧
       requests (trace s') = requests (trace s) ++ replicate n req ∧
       length (waits s') = (length (waits s) + (n - 1))%nat.
Proof. apply notionRequestWithRetry_resends. Qed.

Lemma tame_notionRequest (P : Request → Prop) method endpoint body apiKey :
  P (mkRequest method endpoint body apiKey) →
  tame P (notionRequest method endpoint body apiKey).
Proof.
  intros HP s r s' Hrun. unfold notionRequest in Hrun.
  destruct (notionRequestWithRetry_resends (mkRequest method endpoint body apiKey) 0 s)
    as (Hdisk & n & _ & Hreq & _).
  rewrite Hrun in Hdisk, Hreq. cbn in Hdisk, Hreq. split; [done |].
  eexists. split; [done |]. by apply Forall_replicate.
Qed.

Ltac tame_step :=
  lazymatch goal with
  | |- tame _ (mret _) => apply tame_ret
  | |- tame _ (throw _) => apply tame_throw
  | |- tame _ (skip _ _) => apply tame_ret
  | |- tame _ (count_error _ _) => apply tame_ret
  | |- tame _ (sleep _) => apply tame_sleep
  | |- tame _ get_world => apply tame_get_world
  | |- tame _ read_disk => apply tame_read_disk
  | |- tame _ (fs_do _) => apply tame_fs_do
  | |- tame _ (try_catch _ _) => apply tame_try_catch; [| intros ?]
  | |- tame _ (_ ≫= _) => apply tame_bind; [| intros ?]
  | |- tame _ (for_of _ _ _) => apply tame_for_of; intros ? ?
  | |- tame _ (if ?b then _ else _) => destruct b
  | |- tame _ (match ?x with _ => _ end) => destruct x
  | |- tame _ ((match ?x with _ => _ end) _) => destruct x
  end.

Section Pull.
Context (flags : Flags).

Lemma tame_moveFolder P found notionJob notionStatus :
  tame P (moveFolder found notionJob notionStatus).
Proof. unfold moveFolder. repeat tame_step. Qed.

Lemma tame_push_to_target P notionStatus notionJob tracker :
  tame P (push_to_target notionStatus notionJob tracker).
Proof. unfold push_to_target. repeat tame_step. Qed.

Lemma tame_pullJobs_page P isBaseline page st :
  tame P (pullJobs_page flags isBaseline page st).
Proof.
  unfold pullJobs_page.
  repeat first [apply tame_moveFolder | apply tame_push_to_target | tame_step].
Qed.

Lemma tame_pullContacts_page P isBaseline page st :
  tame P (pullContacts_page flags isBaseline page st).
Proof. unfold pullContacts_page. repeat tame_step. Qed.

Lemma tame_pullTasks_page P isBaseline page st :
  tame P (pullTasks_page flags isBaseline page st).
Proof. unfold pullTasks_page. repeat tame_step. Qed.

Lemma tame_fetchLoop budget dbId apiKey filter startCursor pages :
  tame (is_query apiKey dbId) (fetchLoop budget dbId apiKey filter startCursor pages).
Proof.
  revert startCursor pages. induction budget as [|budget IH]; intros startCursor pages;
    cbn [fetchLoop]; [apply tame_throw |].
  apply tame_bind; [by apply tame_notionRequest |]. intros result.
  apply tame_bind; [destruct (res_has_more result); [apply tame_sleep | apply tame_ret] |].
  intros _. destruct (truthy _); [apply IH | apply tame_ret].
Qed.

Lemma tame_fetchForPull budget dbId config syncMap :
  tame (is_query (apiKey config) (ToString dbId))
       (fetchForPull flags budget dbId config syncMap).
Proof.
  unfold fetchForPull, fetchAllPages, fetchChangedPages.
  destruct (_ || _); apply tame_fetchLoop.
Qed.

Lemma tame_pullJobs budget config syncMap tracker :
  tame (queries config) (pullJobs flags budget config syncMap tracker).
Proof.
  unfold pullJobs. cbn zeta. destruct (truthy (db_jobs config)) eqn:Hdb; cbn [negb];
    [| apply tame_ret].
  apply tame_bind; [| intros pages; apply tame_for_of; intros; apply tame_pullJobs_page].
  eapply tame_mono; [| apply tame_fetchForPull]. intros r Hr.
  exists (ToString (db_jobs config)). split; [| done].
  unfold databases. cbn. rewrite Hdb. by left.
Qed.

Lemma tame_pullContacts budget config syncMap network :
  tame (queries config) (pullContacts flags budget config syncMap network).
Proof.
  unfold pullContacts. cbn zeta. destruct (truthy (db_contacts config)) eqn:Hdb; cbn [negb];
    [| apply tame_ret].
  apply tame_bind.
  - eapply tame_mono; [| apply tame_fetchForPull]. intros r Hr.
    exists (ToString (db_contacts config)). split; [| done].
    unfold databases. cbn. rewrite Hdb. destruct (truthy (db_jobs config)); set_solver.
  - intros pages. apply tame_bind; [| intros; apply tame_ret].
    apply tame_for_of. intros. apply tame_pullContacts_page.
Qed.

Lemma tame_pullTasks budget config syncMap tasksData :
  tame (queries config) (pullTasks flags budget config syncMap tasksData).
Proof.
  unfold pullTasks. cbn zeta. destruct (truthy (db_tasks config)) eqn:Hdb; cbn [negb];
    [| apply tame_ret].
  apply tame_bind.
  - eapply tame_mono; [| apply tame_fetchForPull]. intros r Hr.
    exists (ToString (db_tasks config)). split; [| done].
    unfold databases. cbn. rewrite Hdb.
    destruct (truthy (db_jobs config)), (truthy (db_contacts config)); set_solver.
  - intros pages. apply tame_bind; [| intros; apply tame_ret].
    apply tame_for_of. intros. apply tame_pullTasks_page.
Qed.

Lemma tame_pullPhase budget config r :
  tame (queries config) (pullPhase flags budget config r).
Proof.
  unfold pullPhase. destruct (PUSH_ONLY flags); [apply tame_ret |].
  apply tame_bind; [apply tame_pullJobs |]. intros jobPull.
  apply tame_bind; [apply tame_pullContacts |]. intros contactPull.
  apply tame_bind; [apply tame_pullTasks |]. intros taskPull. apply tame_ret.
Qed.

(** X8.  The pull phase writes no file, and the only requests it sends are
    queries of the configured databases: it changes nothing in Notion. *)
Theorem pull_only_queries budget config r s out s' :
  pullPhase flags budget config r s = (out, s') →
  disk s' = disk s ∧
  ∃ sent, requests (trace s') = requests (trace s) ++ sent ∧
          Forall (queries config) sent.
Proof. apply tame_pullPhase. Qed.

End Pull.

Ltac page_write :=
  split; [first [left; split; reflexivity
                | right; split; [reflexivity | eexists; reflexivity]]
         | reflexivity].

Section Push.
Context (flags : Flags) (config : Config).

Lemma tame_pushJobs_item status job st :
  tame (is_page_write (apiKey config)) (pushJobs_item flags config status job st).
Proof.
  unfold pushJobs_item.
  repeat first [apply tame_notionRequest; page_write | tame_step].
Qed.

Lemma tame_pushContacts_item contact st :
  tame (is_page_write (apiKey config)) (pushContacts_item flags config contact st).
Proof.
  unfold pushContacts_item.
  repeat first [apply tame_notionRequest; page_write | tame_step].
Qed.

Lemma tame_pushTasks_item task st :
  tame (is_page_write (apiKey config)) (pushTasks_item flags config task st).
Proof.
  unfold pushTasks_item.
  repeat first [apply tame_notionRequest; page_write | tame_step].
Qed.

Lemma tame_handleDeletions deletions entityType syncMap :
  tame (is_page_write (apiKey config))
       (handleDeletions flags deletions entityType config syncMap).
Proof.
  unfold handleDeletions. destruct deletions as [|d deletions]; [apply tame_ret |].
  destruct (APPLY_DELETES flags).
  - apply tame_for_of. intros d' syncMap'. unfold handleDeletions_item.
    repeat first [apply tame_notionRequest; page_write | tame_step].
  - apply tame_bind; [by apply tame_emit | intros; apply tame_ret].
Qed.

Lemma tame_reconcile entityType st :
  tame (is_page_write (apiKey config)) (reconcile flags entityType config st).
Proof.
  unfold reconcile. apply tame_bind; [apply tame_handleDeletions | intros; apply tame_ret].
Qed.

Lemma tame_pushPhase r :
  tame (is_page_write (apiKey config)) (pushPhase flags config r).
Proof.
  unfold pushPhase, pushJobs, pushContacts, pushTasks.
  repeat first [apply tame_reconcile | apply tame_pushJobs_item
               | apply tame_pushContacts_item | apply tame_pushTasks_item | tame_step].
Qed.

Lemma returns_ret {A} (a : A) : returns (mret a).
Proof. intros s. by eexists _, _. Qed.

Lemma returns_bind {A B} (m : M A) (k : A → M B) :
  returns m → (∀ a, returns (k a)) → returns (m ≫= k).
Proof.
  intros Hm Hk s. unfold mbind, M_bind. destruct (Hm s) as (a & s1 & ->). apply Hk.
Qed.

Lemma returns_for_of {A S} (xs : list A) (body : A → S → M S) st :
  (∀ x st, returns (body x st)) → returns (for_of xs body st).
Proof.
  intros Hbody. revert st. induction xs as [|x xs IH]; intros st; cbn.
  - apply returns_ret.
  - apply returns_bind; [apply Hbody | apply IH].
Qed.

Lemma returns_reconcile entityType st : returns (reconcile flags entityType config st).
Proof.
  unfold reconcile. apply returns_bind; [| intros; apply returns_ret].
  unfold handleDeletions. destruct (detectLocalDeletions _ _ _); [apply returns_ret |].
  destruct (APPLY_DELETES flags).
  - apply returns_for_of. intros d' syncMap' s. apply handleDeletions_item_total.
  - apply returns_bind; [| intros; apply returns_ret]. intros s. by eexists _, _.
Qed.

Lemma returns_pushPhase r : returns (pushPhase flags config r).
Proof.
  unfold pushPhase. destruct (PULL_ONLY flags); [apply returns_ret |].
  apply returns_bind.
  { unfold pushJobs. destruct (negb _); [apply returns_ret |].
    apply returns_bind; [| intros; apply returns_bind;
                                    [apply returns_reconcile | intros; apply returns_ret]].
    apply returns_for_of. intros [jobs status] st. apply returns_for_of.
    intros job st' s.
    apply (step_total _ _ _ _ _ (pushJobs_step flags config) (job, status)). }
  intros syncMap. apply returns_bind.
  { unfold pushContacts. destruct (negb _); [apply returns_ret |].
    apply returns_bind; [| intros; apply returns_bind;
                                    [apply returns_reconcile | intros; apply returns_ret]].
    apply returns_for_of. intros contact st s.
    apply (step_total _ _ _ _ _ (pushContacts_step flags config)). }
  intros syncMap'. apply returns_bind; [| intros; apply returns_ret].
  unfold pushTasks. destruct (negb _); [apply returns_ret |].
  apply returns_bind; [| intros; apply returns_bind;
                                  [apply returns_reconcile | intros; apply returns_ret]].
  apply returns_for_of. intros task st s.
  apply (step_total _ _ _ _ _ (pushTasks_step flags config)).
Qed.

Lemma tame_pushPhase_dry r :
  DRY_RUN flags = true → tame (λ _, False) (pushPhase flags config r).
Proof.
  intros Hdry.
  unfold pushPhase, pushJobs, pushContacts, pushTasks, reconcile, handleDeletions,
    handleDeletions_item, pushJobs_item, pushContacts_item, pushTasks_item.
  rewrite Hdry. repeat first [by apply tame_emit | tame_step].
Qed.

Lemma tame_pushPhase_pull_only r :
  PULL_ONLY flags = true → tame (λ _, False) (pushPhase flags config r).
Proof. intros Hpull. unfold pushPhase. rewrite Hpull. apply tame_ret. Qed.

Lemma tame_ensureSchema db title needed :
  tame (is_schema_request (apiKey config) (ToString db))
       (ensureSchema db title needed (apiKey config)).
Proof.
  unfold ensureSchema.
  repeat first [apply tame_notionRequest; (split; [set_solver | done]) | tame_step].
Qed.

End Push.

Lemma tame_ensureSchema_configured config db title needed :
  db ∈ [db_jobs config; db_contacts config; db_tasks config] →
  tame (schema_requests config) (ensureSchema db title needed (apiKey config)).
Proof.
  intros Hdb. destruct (truthy db) eqn:Htruthy.
  - eapply tame_mono; [| apply tame_ensureSchema]. intros r Hr.
    exists (ToString db). split; [| done].
    unfold databases. apply list_elem_of_omap. exists db. by rewrite Htruthy.
  - unfold ensureSchema. rewrite Htruthy. apply tame_ret.
Qed.

Lemma tame_ensureSchemas config :
  tame (schema_requests config) (ensureSchemas config).
Proof.
  unfold ensureSchemas.
  repeat (apply tame_bind; [| intros ?]);
    apply tame_ensureSchema_configured; set_solver.
Qed.

Lemma loadConfig_inv s r s' :
  loadConfig s = (r, s') →
  s' = s ∧ ∀ config, r = Ok config → file_config (disk s) = Some config.
Proof.
  unfold loadConfig, read_disk, mbind, M_bind.
  destruct (file_config (disk s)) as [config|]; [| by intros [= <- <-]].
  destruct (truthy _); intros [= <- <-]; (split; [done |]); by intros ? [= <-].
Qed.

Lemma loadSyncMap_inv s r s' :
  loadSyncMap s = (r, s') → s' = s ∧ ∃ syncMap, r = Ok syncMap.
Proof.
  unfold loadSyncMap, read_disk, mbind, M_bind.
  destruct (file_syncmap (disk s)); intros [= <- <-]; eauto.
Qed.

Section Main.
Context (flags : Flags) (budget : nat).

(** What [main] has done when it ends, stage by stage. *)
Lemma main_stages s out s' :
  main flags budget s = (out, s') →
  (* the configuration is refused *)
  (out = Throw ConfigError ∧ s' = s ∧
   ∀ config, file_config (disk s) = Some config → truthy (Str (apiKey config)) = false) ∨
  ∃ config syncMap,
    file_config (disk s) = Some config ∧
    loadSyncMap s = (Ok syncMap, s) ∧
    ((* the schema check fails *)
     (∃ e, ensureSchemas config s = (Throw e, s') ∧ out = Throw e) ∨
     ∃ s1, ensureSchemas config s = (Ok tt, s1) ∧
       let r0 := mkRun syncMap (default (mkTracker [] [] []) (file_tracker (disk s1)))
                       (default (mkNetwork []) (file_network (disk s1)))
                       (default (mkTasksData []) (file_tasks (disk s1))) in
       ((* the pull fails *)
        (∃ e, pullPhase flags budget config r0 s1 = (Throw e, s') ∧ out = Throw e) ∨
        ∃ r1 localDataChanged s2 s3 r2 s4,
          pullPhase flags budget config r0 s1 = (Ok (r1, localDataChanged), s2) ∧
          (if localDataChanged
           then saveLocal (run_tracker r1) (run_network r1) (run_tasksData r1)
           else mret tt) s2 = (Ok tt, s3) ∧
          pushPhase flags config r1 s3 = (Ok r2, s4) ∧
          if DRY_RUN flags then out = Ok r2 ∧ s' = s4
          else
            let syncMap' := set_lastSyncTime (Str (toISOString (world s4))) (run_syncMap r2) in
            out = Ok (mkRun syncMap' (run_tracker r2) (run_network r2) (run_tasksData r2)) ∧
            (Ok tt, s') = saveSyncMap syncMap' s4)).
Proof.
  unfold main, mbind, M_bind. intros Hrun.
  destruct (loadConfig s) as [[config|e] s0] eqn:Hconfig.
  2: { left. unfold loadConfig, read_disk, mbind, M_bind, throw, mret, M_ret in Hconfig.
       destruct (file_config (disk s)) as [config|];
         [destruct (truthy _) eqn:Hkey |]. all: inversion Hconfig; inversion Hrun; subst.
       all: split; [done |]; split; [done |]; intros ? [= <-]; done. }
  right. destruct (loadConfig_inv _ _ _ Hconfig) as [-> Hfile].
  destruct (loadSyncMap s) as [r s0] eqn:HsyncMap.
  destruct (loadSyncMap_inv _ _ _ HsyncMap) as [-> [syncMap ->]].
  exists config, syncMap. split; [by apply Hfile |]. split; [done |].
  destruct (ensureSchemas config s) as [[[]|e] s1] eqn:Hschema.
  2: { left. injection Hrun as Hout Hs. subst. by exists e. }
  right. exists s1. split; [done |]. cbn [read_disk] in Hrun. cbn zeta.
  destruct (pullPhase flags budget config _ s1) as [[[r1 changed]|e] s2] eqn:Hpull.
  2: { left. injection Hrun as Hout Hs. subst. by exists e. }
  right.
  destruct ((if changed then saveLocal _ _ _ else mret tt) s2) as [[[]|e] s3] eqn:Hsave.
  2: { destruct changed; discriminate. }
  destruct (returns_pushPhase flags config r1 s3) as (r2 & s4 & Hpush).
  rewrite Hpush in Hrun.
  exists r1, changed, s2, s3, r2, s4. repeat (split; [done |]).
  destruct (DRY_RUN flags); [by injection Hrun as <- <- |].
  cbn in Hrun. injection Hrun as Hout Hs. by subst.
Qed.

Lemma pushPhase_keeps_local config r s r' s' :
  pushPhase flags config r s = (Ok r', s') →
  run_tracker r' = run_tracker r ∧ run_network r' = run_network r ∧
  run_tasksData r' = run_tasksData r.
Proof.
  unfold pushPhase, mbind, M_bind, mret, M_ret. destruct (PULL_ONLY flags).
  - by intros [= <- <-].
  - destruct (pushJobs _ _ _ _ _) as [[m1|e] s1]; [| done].
    destruct (pushContacts _ _ _ _ _) as [[m2|e] s2]; [| done].
    destruct (pushTasks _ _ _ _ _) as [[m3|e] s3]; [| done].
    by intros [= <- <-].
Qed.

End Main.


(** X14.  Every request of a run is authenticated with the configured key and
    is a read or an update of the schema of a configured database, a query
    of a configured database, or the creation or update of a page.  A
    push-only run sends no query; a dry run and a pull-only run send no
    creation and no update of a page. *)
Theorem requests_of_a_run (flags : Flags) (budget : nat) (s : Sys) out s' :
  main flags budget s = (out, s') →
  ∃ sent,
    requests (trace s') = requests (trace s) ++ sent ∧
    Forall (λ r, ∃ config,
              file_config (disk s) = Some config ∧
              (schema_requests config r
               ∨ (PUSH_ONLY flags = false ∧ queries config r)
               ∨ (DRY_RUN flags = false ∧ PULL_ONLY flags = false ∧
                  is_page_write (apiKey config) r))) sent.
Proof.
  intros Hrun. apply main_stages in Hrun as [(_ & -> & _)|Hrun].
  { exists []. by rewrite app_nil_r. }
  destruct Hrun as (config & syncMap & Hconfig & _ & Hrun).
  set (P := λ r, ∃ config, file_config (disk s) = Some config ∧ _).
  assert (∀ r, schema_requests config r → P r) as Hschema_P.
  { intros r Hr. exists config. split; [done |]. by left. }
  assert (PUSH_ONLY flags = false → ∀ r, queries config r → P r) as Hquery_P.
  { intros Hflag r Hr. exists config. split; [done |]. right. by left. }
  assert (DRY_RUN flags = false → PULL_ONLY flags = false →
          ∀ r, is_page_write (apiKey config) r → P r) as Hwrite_P.
  { intros Hdry Hpull r Hr. exists config. split; [done |]. right. by right. }
  assert (∀ r0, tame P (pullPhase flags budget config r0)) as Hpull_P.
  { intros r0. destruct (PUSH_ONLY flags) eqn:Hflag.
    - unfold pullPhase. rewrite Hflag. apply tame_ret.
    - eapply tame_mono; [by apply Hquery_P | apply tame_pullPhase]. }
  assert (∀ r1, tame P (pushPhase flags config r1)) as Hpush_P.
  { intros r1. destruct (DRY_RUN flags) eqn:Hdry.
    - eapply tame_mono; [| by apply tame_pushPhase_dry]. done.
    - destruct (PULL_ONLY flags) eqn:Hpull.
      + eapply tame_mono; [| by apply tame_pushPhase_pull_only]. done.
      + eapply tame_mono; [by apply Hwrite_P | apply tame_pushPhase]. }
  destruct Hrun as [(e' & Hschema & _)|Hrun].
  { destruct (tame_ensureSchemas config _ _ _ Hschema) as (_ & sent & Hsent & HP).
    exists sent. split; [done |]. by eapply Forall_impl. }
  destruct Hrun as (s1 & Hschema & Hrun).
  destruct (tame_ensureSchemas config _ _ _ Hschema) as (_ & sent1 & Hsent1 & HP1).
  eapply Forall_impl in HP1; [| exact Hschema_P].
  destruct Hrun as [(e' & Hpull & _)|Hrun].
  { destruct (Hpull_P _ _ _ _ Hpull) as (_ & sent2 & Hsent2 & HP2).
    exists (sent1 ++ sent2). split; [by rewrite Hsent2, Hsent1, app_assoc |].
    by apply Forall_app. }
  destruct Hrun as (r1 & changed & s2 & s3 & r2 & s4 & Hpull & Hsave & Hpush & Hend).
  destruct (Hpull_P _ _ _ _ Hpull) as (_ & sent2 & Hsent2 & HP2).
  destruct (Hpush_P _ _ _ _ Hpush) as (_ & sent3 & Hsent3 & HP3).
  assert (trace s3 = trace s2) as Hs3.
  { destruct changed; by injection Hsave as <-. }
  assert (trace s' = trace s4) as Hs'.
  { destruct (DRY_RUN flags); [by destruct Hend as [_ ->] |].
    destruct Hend as [_ Hend]. by injection Hend as ->. }
  exists (sent1 ++ sent2 ++ sent3).
  split; [| rewrite !Forall_app; by repeat split].
  by rewrite Hs', Hsent3, Hs3, Hsent2, Hsent1, !app_assoc.
Qed.


Section PushRequests.
Context (flags : Flags) (config : Config).

Ltac tame_push_item entry :=
  unfold push_request;
  destruct (is_unchanged _ _ _); [apply tame_ret |];
  apply tame_try_catch; [| intros; apply tame_ret];
  destruct (DRY_RUN flags); [apply tame_ret |];
  destruct entry as [?e|]; cbn [notionId_of];
  [destruct (truthy (notionId _)) |];
  (apply tame_bind; [by apply tame_notionRequest |]); intros;
  (apply tame_bind; [apply tame_sleep | intros; apply tame_ret]).

(** X9.  What a step of a push loop sends for a record is determined by the
    entry of the record: the update of its page when the entry has a page
    id, the creation of a page in the configured database otherwise (sent
    again on a retry, and not at all in a dry run or for an unchanged
    record); the step writes no file, and an entry that has a page id keeps
    it. *)
Theorem push_request_of_a_record :
  (∀ status job st,
     let entry := jobs (push_syncMap st) !! getJobLocalId job status in
     tame (λ r, r = push_request (apiKey config) (db_jobs config) entry
                      (jobToNotionProperties job status))
          (pushJobs_item flags config status job st) ∧
     ∀ s st' s', pushJobs_item flags config status job st s = (Ok st', s') →
                 keeps_page_id jobs (getJobLocalId job status) st st') ∧
  (∀ contact st,
     let entry := contacts_ (push_syncMap st) !! ToString (contact_key contact) in
     tame (λ r, r = push_request (apiKey config) (db_contacts config) entry
                      (contactToNotionProperties contact))
          (pushContacts_item flags config contact st) ∧
     ∀ s st' s', pushContacts_item flags config contact st s = (Ok st', s') →
                 keeps_page_id contacts_ (ToString (contact_key contact)) st st') ∧
  (∀ task st,
     let entry := tasks_ (push_syncMap st) !! ToString (task_key task) in
     tame (λ r, r = push_request (apiKey config) (db_tasks config) entry
                      (taskToNotionProperties task))
          (pushTasks_item flags config task st) ∧
     ∀ s st' s', pushTasks_item flags config task st s = (Ok st', s') →
                 keeps_page_id tasks_ (ToString (task_key task)) st st').
Proof.
  split; [| split].
  - intros status job st entry. split.
    + unfold pushJobs_item. fold entry. tame_push_item entry.
    + intros s st' s' Hrun e He Hid. revert Hrun. unfold pushJobs_item.
      rewrite He. cbn [notionId_of]. rewrite Hid.
      push_item_runs; intros [= <- <-]; cbn; eauto;
        (eexists; split; [apply lookup_insert_eq | done]).
  - intros contact st entry. split.
    + unfold pushContacts_item. fold (contact_key contact). fold entry.
      tame_push_item entry.
    + intros s st' s' Hrun e He Hid. revert Hrun. unfold pushContacts_item.
      fold (contact_key contact). rewrite He. cbn [notionId_of]. rewrite Hid.
      push_item_runs; intros [= <- <-]; cbn; eauto;
        (eexists; split; [apply lookup_insert_eq | done]).
  - intros task st entry. split.
    + unfold pushTasks_item. fold (task_key task). fold entry. tame_push_item entry.
    + intros s st' s' Hrun e He Hid. revert Hrun. unfold pushTasks_item.
      fold (task_key task). rewrite He. cbn [notionId_of]. rewrite Hid.
      push_item_runs; intros [= <- <-]; cbn; eauto;
        (eexists; split; [apply lookup_insert_eq | done]).
Qed.

End PushRequests.

End Tame.

Lemma pull_only_queries_witness :
  let r := mkRun empty_syncMap scenario_A_tracker (mkNetwork []) (mkTasksData []) in
  let s := scripted [ok_response (body_of_query [])] no_files in
  let run := pullPhase no_flags 1 jobs_only r s in
  disk run.2 = disk s ∧
  ∃ sent, requests (trace run.2) = requests (trace s) ++ sent ∧
          Forall (queries jobs_only) sent.
Proof.
  intros r s run.
  exact (pull_only_queries no_flags 1 jobs_only r s run.1 run.2 (surjective_pairing run)).
Defined.


Lemma requests_of_a_run_witness :
  let run := main dry_run_flags 1 first_push in
  ∃ sent,
    requests (trace run.2) = requests (trace first_push) ++ sent ∧
    Forall (λ r, ∃ config,
              file_config (disk first_push) = Some config ∧
              (schema_requests config r
               ∨ (PUSH_ONLY dry_run_flags = false ∧ queries config r)
               ∨ (DRY_RUN dry_run_flags = false ∧ PULL_ONLY dry_run_flags = false ∧
                  is_page_write (apiKey config) r))) sent.
Proof.
  intros run.
  exact (requests_of_a_run dry_run_flags 1 first_push run.1 run.2 (surjective_pairing run)).
Defined.


(* ------------------------------------------------------------------------- *)
(** ** Verification: the schema check and the Retry-After header *)
(* ------------------------------------------------------------------------- *)

Section Schema.
Context `{NodeRuntime}.

Lemma notionRequest_ok method endpoint body apiKey s statusCode retry_after data result s1 :
  exchange (mkRequest method endpoint body apiKey) s
  = (Response statusCode retry_after data (Some result), s1) →
  statusCode < 400 →
  notionRequest method endpoint body apiKey s = (Ok result, s1).
Proof.
  intros Hex Hcode. unfold notionRequest.
  rewrite (notionRequestWithRetry_settle _ _ _ _ _ _ _ _ Hex) by lia.
  unfold settle. by rewrite bool_decide_eq_false_2 by lia.
Qed.

(** X11.  A database whose schema is complete is only read: when the
    database has every needed property, and its title property needs no
    renaming, the schema check returns after its one request. *)
Theorem ensureSchema_reads_a_complete_schema (db : jsval) (title : option string)
  (needed : list (string * json)) (apiKey : string) (s : Sys)
  statusCode retry_after data result s1 :
  truthy db = true →
  exchange (mkRequest "GET" ("/databases/" +:+ ToString db) None apiKey) s
  = (Response statusCode retry_after data (Some result), s1) →
  statusCode < 400 →
  Forall (λ kv, kv.1 ∈ res_properties result) needed →
  (∀ t, title = Some t → "Name" ∉ res_properties result ∨ t ∈ res_properties result) →
  ensureSchema db title needed apiKey s = (Ok tt, s1) ∧
  requests (trace s1) = requests (trace s)
                        ++ [mkRequest "GET" ("/databases/" +:+ ToString db) None apiKey].
Proof.
  intros Hdb Hex Hcode Hneeded Htitle. split.
  - unfold ensureSchema. rewrite Hdb. cbn [negb]. unfold mbind, M_bind.
    rewrite (notionRequest_ok _ _ _ _ _ _ _ _ _ _ Hex Hcode).
    assert (filter (λ kv : string * json, kv.1 ∉ (list_to_set (res_properties result) : gset string))
              needed = []) as Hnone.
    { induction Hneeded as [|kv needed Hkv Hneeded IH]; [done |].
      rewrite filter_cons_False; [done |]. intros Hnot. apply Hnot.
      by apply elem_of_list_to_set. }
    destruct title as [t|].
    + destruct (Htitle t eq_refl) as [Hno|Hyes].
      * rewrite bool_decide_eq_false_2 by (by rewrite elem_of_list_to_set). cbn.
        by rewrite Hnone.
      * rewrite (bool_decide_eq_true_2 (t ∈ _)) by (by rewrite elem_of_list_to_set).
        rewrite andb_false_r. cbn. by rewrite Hnone.
    + cbn. by rewrite Hnone.
  - unfold exchange in Hex. destruct (https_request _ _) as [out w]. 
    injection Hex as _ <-. cbn. unfold requests. by rewrite omap_app.
Qed.

(** X7.  A retry-after header that is not a number, such as a date, makes
    the wait NaN, and the timer of the retry runs after 1 ms. *)
Theorem retry_after_not_a_number (req : Request) (attempt : nat) (s : Sys)
  hint data parsed s1 :
  exchange req s = (Response 429 (Some hint) data parsed, s1) →
  (attempt < MAX_RETRIES)%nat →
  hint ≠ EmptyString → parseInt hint = None →
  notionRequestWithRetry req attempt s
  = notionRequestWithRetry req (attempt + 1)
      (mkSys (setTimeout 1 (world s1)) (trace s1 ++ [EvSleep 1]) (disk s1)).
Proof.
  intros Hex Hlt Hhint Hnan.
  rewrite (notionRequestWithRetry_retry _ _ _ _ _ _ _ Hex Hlt).
  unfold waitMs, retry_after_header.
  destruct (String.eqb_spec hint EmptyString); [done |]. by rewrite Hnan.
Qed.

End Schema.

Lemma ensureSchema_reads_a_complete_schema_witness :
  let s := scripted [ok_response (body_of_database ("Role" :: needed_jobs.*1))] no_files in
  let s1 := (exchange (mkRequest "GET" "/databases/db-jobs" None "secret_key") s).2 in
  ensureSchema (Str "db-jobs") (Some "Role") needed_jobs "secret_key" s = (Ok tt, s1) ∧
  requests (trace s1)
  = requests (trace s) ++ [mkRequest "GET" "/databases/db-jobs" None "secret_key"].
Proof.
  intros s s1.
  apply (ensureSchema_reads_a_complete_schema (Str "db-jobs") (Some "Role") needed_jobs
           "secret_key" s 200 None "{}" (body_of_database ("Role" :: needed_jobs.*1)) s1).
  - reflexivity.
  - reflexivity.
  - reflexivity.
  - apply Forall_forall. intros kv Hkv. apply elem_of_cons. right.
    apply list_elem_of_fmap. by exists kv.
  - intros t [= <-]. right. by left.
Defined.

Lemma retry_after_not_a_number_witness :
  let req := mkRequest "GET" "/databases/db-jobs" None "secret_key" in
  let s := scripted [rate_limited (Some http_date)] no_files in
  parseInt http_date = None ∧
  notionRequestWithRetry req 0 s
  = notionRequestWithRetry req 1
      (mkSys (setTimeout 1 (world (exchange req s).2))
             (trace (exchange req s).2 ++ [EvSleep 1]) (disk (exchange req s).2)).
Proof.
  intros req s. split; [reflexivity |].
  apply (retry_after_not_a_number req 0 s http_date "{}"
           (Some (mkNotionJson Undefined Undefined [] false Null (Str "Rate limited") [])));
    [reflexivity | unfold MAX_RETRIES; lia | discriminate | reflexivity].
Defined.

(* ------------------------------------------------------------------------- *)
(** ** Verification: a pulled page is handled once *)
(* ------------------------------------------------------------------------- *)

Section Settles.
Context `{NodeRuntime} (flags : Flags).

Lemma str_gt_irrefl (a : string) : str_gt a a = false.
Proof.
  unfold str_gt, String.ltb. pose proof (String.compare_antisym a a) as Hc.
  by destruct (String.compare a a).
Qed.

Lemma truthy_Str_ne (s : string) : s ≠ EmptyString → truthy (Str s) = true.
Proof. intros Hs. cbn. by destruct (String.eqb_spec s EmptyString). Qed.

Lemma getJobLocalId_truthy job status : truthy (Str (getJobLocalId job status)) = true.
Proof.
  apply truthy_Str_ne. unfold getJobLocalId. by destruct status.
Qed.

(** A page whose entry already carries the edit time of the page is skipped. *)
Lemma pullJobs_page_seen page st s k e :
  FULL_SYNC flags = false →
  page_last_edited_time page ≠ EmptyString →
  notionToLocal (ps_syncMap st) !! page_id page = Some (mkReverse "jobs" (Str k)) →
  truthy (Str k) = true →
  jobs (ps_syncMap st) !! k = Some e →
  notionLastEdited e = Str (page_last_edited_time page) →
  pullJobs_page flags false page st s
  = (Ok (mkPull (ps_syncMap st) (ps_local st) (pulled st) (S (skipped_count st))), s).
Proof.
  intros Hfull Hedited Hreverse Hk He Hseen. unfold pullJobs_page.
  destruct (notionPropertiesToJob _) as [notionJob notionStatus].
  unfold existingKey_of. rewrite Hreverse. cbn [rev_type rev_key].
  change (String.eqb "jobs" "jobs") with true. cbn iota.
  unfold syncEntry_of. rewrite Hk, He. cbn iota.
  unfold notionChanged. rewrite Hseen, Hfull. cbn [ToString].
  by rewrite truthy_Str_ne, str_gt_irrefl.
Qed.

Lemma existingKey_of_Some type syncMap pageId k :
  existingKey_of type syncMap pageId = Some k →
  ∃ reverseEntry, notionToLocal syncMap !! pageId = Some reverseEntry ∧
                  rev_type reverseEntry = type ∧ rev_key reverseEntry = Str k.
Proof.
  unfold existingKey_of. destruct (notionToLocal syncMap !! pageId) as [r|]; [| done].
  destruct (String.eqb_spec (rev_type r) type); [| done].
  destruct (rev_key r) eqn:Hr; try done. intros [= ->]. by exists r.
Qed.

Lemma pullJobs_page_settles page st s st1 s1 :
  FULL_SYNC flags = false →
  page_last_edited_time page ≠ EmptyString →
  pullJobs_page flags false page st s = (Ok st1, s1) →
  pullJobs_page flags false page st1 s1
  = (Ok (mkPull (ps_syncMap st1) (ps_local st1) (pulled st1) (S (skipped_count st1))), s1).
Proof.
  intros Hfull Hedited. unfold pullJobs_page at 1.
  destruct (notionPropertiesToJob (page_properties page)) as [notionJob notionStatus] eqn:Hjob.
  destruct (existingKey_of "jobs" (ps_syncMap st) (page_id page)) as [k|] eqn:Hkey;
    [destruct (syncEntry_of (jobs (ps_syncMap st)) (Some k)) as [e|] eqn:He |];
    cbn beta iota zeta.
  - destruct (existingKey_of_Some _ _ _ _ Hkey) as ([type key] & Hreverse & Htype & Hrevkey).
    cbn in Htype, Hrevkey. subst type key.
    assert (truthy (Str k) = true ∧ jobs (ps_syncMap st) !! k = Some e) as [Hk Hlookup].
    { unfold syncEntry_of in He. by destruct (truthy (Str k)). }
    destruct (negb (notionChanged e _) && negb (FULL_SYNC flags)) eqn:Hunchanged.
    { unfold skip, mret, M_ret. intros [= <- <-]. unfold pullJobs_page.
      cbn [ps_syncMap ps_local pulled skipped_count]. by rewrite Hjob, Hkey, He, Hunchanged. }
    destruct (truthy (localHash e) && _) eqn:Hconflict.
    { unfold skip, mret, M_ret. intros [= <- <-].
      eapply pullJobs_page_seen; cbn; [done | done | done | done | apply lookup_insert_eq | done]. }
    destruct (DRY_RUN flags) eqn:Hdry.
    { unfold skip, mret, M_ret. intros [= <- <-]. unfold pullJobs_page.
      cbn [ps_syncMap ps_local pulled skipped_count].
      by rewrite Hjob, Hkey, He, Hunchanged, Hconflict, Hdry. }
    case_bool_decide as Hmoved.
    + unfold mbind, M_bind, mret, M_ret.
      destruct (moveFolder _ _ _ s) as [[notionJob'|err] s'] eqn:Hmove; [| done].
      destruct (push_to_target _ _ _ s') as [[tracker|err] s''] eqn:Hpush; [| done].
      intros [= <- <-].
      eapply pullJobs_page_seen; cbn;
        [done | done | apply lookup_insert_eq | apply getJobLocalId_truthy
        | apply lookup_insert_eq | done].
    + unfold mret, M_ret. intros [= <- <-].
      eapply pullJobs_page_seen; cbn; [done | done | done | done | apply lookup_insert_eq | done].
  - destruct (DRY_RUN flags) eqn:Hdry.
    { unfold skip, mret, M_ret. intros [= <- <-]. unfold pullJobs_page.
      cbn [ps_syncMap ps_local pulled skipped_count]. by rewrite Hjob, Hkey, He, Hdry. }
    unfold mbind, M_bind, mret, M_ret, get_world.
    destruct (push_to_target _ _ _ s) as [[tracker|err] s'] eqn:Hpush; [| done].
    intros [= <- <-].
    eapply pullJobs_page_seen; cbn;
      [done | done | apply lookup_insert_eq | apply getJobLocalId_truthy
      | apply lookup_insert_eq | done].
  - cbn [syncEntry_of]. destruct (DRY_RUN flags) eqn:Hdry.
    { unfold skip, mret, M_ret. intros [= <- <-]. unfold pullJobs_page.
      cbn [ps_syncMap ps_local pulled skipped_count]. by rewrite Hjob, Hkey, Hdry. }
    unfold mbind, M_bind, mret, M_ret, get_world.
    destruct (push_to_target _ _ _ s) as [[tracker|err] s'] eqn:Hpush; [| done].
    intros [= <- <-].
    eapply pullJobs_page_seen; cbn;
      [done | done | apply lookup_insert_eq | apply getJobLocalId_truthy
      | apply lookup_insert_eq | done].
Qed.

Lemma pullContacts_page_seen page st s k e :
  FULL_SYNC flags = false →
  page_last_edited_time page ≠ EmptyString →
  notionToLocal (ps_syncMap st) !! page_id page = Some (mkReverse "contacts" (Str k)) →
  truthy (Str k) = true →
  contacts_ (ps_syncMap st) !! k = Some e →
  notionLastEdited e = Str (page_last_edited_time page) →
  pullContacts_page flags false page st s
  = (Ok (mkPull (ps_syncMap st) (ps_local st) (pulled st) (S (skipped_count st))), s).
Proof.
  intros Hfull Hedited Hreverse Hk He Hseen. unfold pullContacts_page.
  unfold existingKey_of. rewrite Hreverse. cbn [rev_type rev_key].
  change (String.eqb "contacts" "contacts") with true. cbn iota.
  unfold syncEntry_of. rewrite Hk, He. cbn iota.
  unfold notionChanged. rewrite Hseen, Hfull. cbn [ToString].
  by rewrite truthy_Str_ne, str_gt_irrefl.
Qed.

Lemma pullTasks_page_seen page st s k e :
  FULL_SYNC flags = false →
  page_last_edited_time page ≠ EmptyString →
  notionToLocal (ps_syncMap st) !! page_id page = Some (mkReverse "tasks" (Str k)) →
  truthy (Str k) = true →
  tasks_ (ps_syncMap st) !! k = Some e →
  notionLastEdited e = Str (page_last_edited_time page) →
  pullTasks_page flags false page st s
  = (Ok (mkPull (ps_syncMap st) (ps_local st) (pulled st) (S (skipped_count st))), s).
Proof.
  intros Hfull Hedited Hreverse Hk He Hseen. unfold pullTasks_page.
  unfold existingKey_of. rewrite Hreverse. cbn [rev_type rev_key].
  change (String.eqb "tasks" "tasks") with true. cbn iota.
  unfold syncEntry_of. rewrite Hk, He. cbn iota.
  unfold notionChanged. rewrite Hseen, Hfull. cbn [ToString].
  by rewrite truthy_Str_ne, str_gt_irrefl.
Qed.

Lemma pullTasks_page_settles page st s st1 s1 :
  FULL_SYNC flags = false →
  page_last_edited_time page ≠ EmptyString →
  pullTasks_page flags false page st s = (Ok st1, s1) →
  pullTasks_page flags false page st1 s1
  = (Ok (mkPull (ps_syncMap st1) (ps_local st1) (pulled st1) (S (skipped_count st1))), s1).
Proof.
  intros Hfull Hedited. unfold pullTasks_page at 1.
  destruct (existingKey_of "tasks" (ps_syncMap st) (page_id page)) as [k|] eqn:Hkey;
    [destruct (syncEntry_of (tasks_ (ps_syncMap st)) (Some k)) as [e|] eqn:He |];
    cbn beta iota zeta.
  - destruct (existingKey_of_Some _ _ _ _ Hkey) as ([type key] & Hreverse & Htype & Hrevkey).
    cbn in Htype, Hrevkey. subst type key.
    assert (truthy (Str k) = true ∧ tasks_ (ps_syncMap st) !! k = Some e) as [Hk Hlookup].
    { unfold syncEntry_of in He. by destruct (truthy (Str k)). }
    destruct (negb (notionChanged e _) && negb (FULL_SYNC flags)) eqn:Hunchanged.
    { unfold skip, mret, M_ret. intros [= <- <-]. unfold pullTasks_page.
      cbn [ps_syncMap ps_local pulled skipped_count]. by rewrite Hkey, He, Hunchanged. }
    destruct (truthy (localHash e) && _) eqn:Hconflict.
    { unfold skip, mret, M_ret. intros [= <- <-].
      eapply pullTasks_page_seen; cbn; [done | done | done | done | apply lookup_insert_eq | done]. }
    destruct (DRY_RUN flags) eqn:Hdry.
    { unfold skip, mret, M_ret. intros [= <- <-]. unfold pullTasks_page.
      cbn [ps_syncMap ps_local pulled skipped_count].
      by rewrite Hkey, He, Hunchanged, Hconflict, Hdry. }
    unfold mbind, M_bind, mret, M_ret, get_world. intros [= <- <-].
    eapply pullTasks_page_seen; cbn; [done | done | done | done | apply lookup_insert_eq | done].
  - destruct (DRY_RUN flags) eqn:Hdry.
    { unfold skip, mret, M_ret. intros [= <- <-]. unfold pullTasks_page.
      cbn [ps_syncMap ps_local pulled skipped_count]. by rewrite Hkey, He, Hdry. }
    unfold mbind, M_bind, mret, M_ret, get_world. intros [= <- <-].
    eapply pullTasks_page_seen; cbn;
      [done | done | apply lookup_insert_eq | done | apply lookup_insert_eq | done].
  - cbn [syncEntry_of]. destruct (DRY_RUN flags) eqn:Hdry.
    { unfold skip, mret, M_ret. intros [= <- <-]. unfold pullTasks_page.
      cbn [ps_syncMap ps_local pulled skipped_count]. by rewrite Hkey, Hdry. }
    unfold mbind, M_bind, mret, M_ret, get_world. intros [= <- <-].
    eapply pullTasks_page_seen; cbn;
      [done | done | apply lookup_insert_eq | done | apply lookup_insert_eq | done].
Qed.

Lemma pullContacts_page_settles page st s st1 s1 :
  FULL_SYNC flags = false →
  page_last_edited_time page ≠ EmptyString →
  getNotionText (page_properties page !! "Name") ≠ EmptyString →
  pullContacts_page flags false page st s = (Ok st1, s1) →
  pullContacts_page flags false page st1 s1
  = (Ok (mkPull (ps_syncMap st1) (ps_local st1) (pulled st1) (S (skipped_count st1))), s1).
Proof.
  intros Hfull Hedited Hname. unfold pullContacts_page at 1.
  assert (∃ k, Str (slug (getNotionText (page_properties page !! "Name")))
               ||| Str (getNotionText (page_properties page !! "Name")) = Str k
               ∧ truthy (Str k) = true) as (k' & Hk' & Htruthy).
  { unfold or_else.
    destruct (truthy (Str (slug _))) eqn:Hslug; eexists; (split; [done |]); [done |].
    by apply truthy_Str_ne. }
  destruct (existingKey_of "contacts" (ps_syncMap st) (page_id page)) as [k|] eqn:Hkey;
    [destruct (syncEntry_of (contacts_ (ps_syncMap st)) (Some k)) as [e|] eqn:He |];
    cbn beta iota zeta.
  - destruct (existingKey_of_Some _ _ _ _ Hkey) as ([type key] & Hreverse & Htype & Hrevkey).
    cbn in Htype, Hrevkey. subst type key.
    assert (truthy (Str k) = true ∧ contacts_ (ps_syncMap st) !! k = Some e) as [Hk Hlookup].
    { unfold syncEntry_of in He. by destruct (truthy (Str k)). }
    destruct (negb (notionChanged e _) && negb (FULL_SYNC flags)) eqn:Hunchanged.
    { unfold skip, mret, M_ret. intros [= <- <-]. unfold pullContacts_page.
      cbn [ps_syncMap ps_local pulled skipped_count]. by rewrite Hkey, He, Hunchanged. }
    destruct (truthy (localHash e) && _) eqn:Hconflict.
    { unfold skip, mret, M_ret. intros [= <- <-].
      eapply pullContacts_page_seen; cbn;
        [done | done | done | done | apply lookup_insert_eq | done]. }
    destruct (DRY_RUN flags) eqn:Hdry.
    { unfold skip, mret, M_ret. intros [= <- <-]. unfold pullContacts_page.
      cbn [ps_syncMap ps_local pulled skipped_count].
      by rewrite Hkey, He, Hunchanged, Hconflict, Hdry. }
    unfold mbind, M_bind, mret, M_ret, get_world. intros [= <- <-].
    eapply pullContacts_page_seen; cbn;
      [done | done | done | done | apply lookup_insert_eq | done].
  - destruct (DRY_RUN flags) eqn:Hdry.
    { unfold skip, mret, M_ret. intros [= <- <-]. unfold pullContacts_page.
      cbn [ps_syncMap ps_local pulled skipped_count]. by rewrite Hkey, He, Hdry. }
    unfold mbind, M_bind, mret, M_ret, get_world. intros [= <- <-].
    eapply (pullContacts_page_seen _ _ _ k'); cbn [ps_syncMap notionToLocal set_notionToLocal
                                                    set_contacts contacts_];
      [done | done | rewrite Hk'; apply lookup_insert_eq | done
      | rewrite Hk'; apply lookup_insert_eq | done].
  - cbn [syncEntry_of]. destruct (DRY_RUN flags) eqn:Hdry.
    { unfold skip, mret, M_ret. intros [= <- <-]. unfold pullContacts_page.
      cbn [ps_syncMap ps_local pulled skipped_count]. by rewrite Hkey, Hdry. }
    unfold mbind, M_bind, mret, M_ret, get_world. intros [= <- <-].
    eapply (pullContacts_page_seen _ _ _ k'); cbn [ps_syncMap notionToLocal set_notionToLocal
                                                    set_contacts contacts_];
      [done | done | rewrite Hk'; apply lookup_insert_eq | done
      | rewrite Hk'; apply lookup_insert_eq | done].
Qed.

(** X12.  An incremental pull handles a page once per edit: after the loop
    has handled a page, whatever it did with it, handling the same page
    again only counts it as skipped.  This holds for the pages of jobs and
    of tasks, and for the pages of contacts that have a name. *)
Theorem pull_handles_a_page_once page :
  FULL_SYNC flags = false →
  page_last_edited_time page ≠ EmptyString →
  (∀ st s st1 s1,
     pullJobs_page flags false page st s = (Ok st1, s1) →
     pullJobs_page flags false page st1 s1 = (Ok (skipped_once st1), s1)) ∧
  (∀ st s st1 s1,
     pullTasks_page flags false page st s = (Ok st1, s1) →
     pullTasks_page flags false page st1 s1 = (Ok (skipped_once st1), s1)) ∧
  (getNotionText (page_properties page !! "Name") ≠ EmptyString →
   ∀ st s st1 s1,
     pullContacts_page flags false page st s = (Ok st1, s1) →
     pullContacts_page flags false page st1 s1 = (Ok (skipped_once st1), s1)).
Proof.
  intros Hfull Hedited. split; [| split].
  - intros st s st1 s1. by apply pullJobs_page_settles.
  - intros st s st1 s1. by apply pullTasks_page_settles.
  - intros Hname st s st1 s1. by apply pullContacts_page_settles.
Qed.

End Settles.

Lemma pull_handles_a_page_once_witness :
  let page := job_page "page-2" "2026-03-02T10:00:00.000Z" "Globex" "Analyst"
                       (Some "Active") in
  let st := mkPull empty_syncMap scenario_A_tracker 0%nat 0%nat in
  let first := pullJobs_page no_flags false page st (scripted [] no_files) in
  ∃ st1,
    first.1 = Ok st1 ∧
    length (active (ps_local st1)) = 2%nat ∧
    pullJobs_page no_flags false page st1 first.2 = (Ok (skipped_once st1), first.2).
Proof.
  intros page st first.
  assert (∃ st1, first.1 = Ok st1 ∧ length (active (ps_local st1)) = 2%nat)
    as (st1 & Hok & Hlength) by (eexists; split; vm_compute; reflexivity).
  exists st1. split; [exact Hok |]. split; [exact Hlength |].
  apply (proj1 (pull_handles_a_page_once no_flags page eq_refl ltac:(discriminate))
           st (scripted [] no_files)).
  rewrite <- Hok. apply surjective_pairing.
Defined.

(* ------------------------------------------------------------------------- *)
(** ** Verification: the identity of pulled records *)
(* ------------------------------------------------------------------------- *)

Section Identity.
Context `{NodeRuntime}.



(** X16.  What the update of a local record by a pull keeps: of a contact,
    its id, who introduced it, and every interaction of its log; of a task,
    its id, its links to contacts and to jobs, and the date it was completed
    on when the page says it is done. *)
Theorem pull_update_keeps_local_fields (w : World) (p : gmap string NotionProp) :
  (∀ existing : Contact.t,
     let updated := notionPropertiesToContact w p (Some existing) in
     (truthy (Contact.id existing) = true → Contact.id updated = Contact.id existing) ∧
     (truthy (Contact.introducedBy existing) = true →
      Contact.introducedBy updated = Contact.introducedBy existing) ∧
     (∀ l, Contact.interactions existing = Some l →
           ∃ l', Contact.interactions updated = Some l' ∧ l ⊆ l')) ∧
  (∀ existing : Task.t,
     let updated := notionPropertiesToTask w p (Some existing) in
     (truthy (Task.id existing) = true → Task.id updated = Task.id existing) ∧
     (∀ l, Task.linkedContacts existing = Some l → Task.linkedContacts updated = Some l) ∧
     (∀ l, Task.linkedJobs existing = Some l → Task.linkedJobs updated = Some l) ∧
     (getNotionCheckbox (p !! "Done") = true → truthy (Task.completed existing) = true →
      Task.completed updated = Task.completed existing)).
Proof.
  split.
  - intros existing. cbn. split; [| split].
    + intros Hid. unfold or_else. by rewrite !Hid.
    + intros Hby. unfold or_else. by rewrite Hby.
    + intros l ->. cbn. eexists. split; [done |].
      destruct (String.eqb _ _); [done |].
      unfold mergeInteractions. destruct (parseInteractionsFromNotes _) eqn:Hparsed; [done |].
      destruct (merge_loop_appends (t :: l0) (list_to_set (interaction_key <$> l)) l)
        as (added & -> & _).
      intros x Hx. rewrite Array_sort_Permutation. apply elem_of_app. by left.
  - intros existing. cbn. split; [| split; [| split]].
    + intros Hid. unfold or_else. by rewrite !Hid.
    + by intros l ->.
    + by intros l ->.
    + intros -> Hcompleted. unfold or_else. by rewrite Hcompleted.
Qed.

End Identity.
(* ------------------------------------------------------------------------- *)
(** ** Verification: the keys that a push meets *)
(* ------------------------------------------------------------------------- *)

Section LocalKeys.
Context `{NodeRuntime} (flags : Flags) (config : Config).

Lemma pushTasks_item_localKeys task st s st' s' :
  pushTasks_item flags config task st s = (Ok st', s') →
  localKeys st' = {[task_key task]} ∪ localKeys st.
Proof.
  unfold pushTasks_item. fold (task_key task). push_item_runs; by intros [= <- <-].
Qed.

Lemma pushContacts_item_localKeys contact st s st' s' :
  pushContacts_item flags config contact st s = (Ok st', s') →
  localKeys st' = {[contact_key contact]} ∪ localKeys st.
Proof.
  unfold pushContacts_item. fold (contact_key contact). push_item_runs; by intros [= <- <-].
Qed.

Lemma pushJobs_item_localKeys status job st s st' s' :
  pushJobs_item flags config status job st s = (Ok st', s') →
  localKeys st' = {[Str (getJobLocalId job status)]} ∪ localKeys st.
Proof.
  unfold pushJobs_item. push_item_runs; by intros [= <- <-].
Qed.

Lemma for_of_localKeys {A} (key : A → jsval) (step : A → PushState → M PushState)
  (items : list A) st s st' s' :
  (∀ x st s st' s', step x st s = (Ok st', s') → localKeys st' = {[key x]} ∪ localKeys st) →
  for_of items step st s = (Ok st', s') →
  localKeys st' = list_to_set (key <$> items) ∪ localKeys st.
Proof.
  intros Hstep. revert st s. induction items as [|x items IH]; intros st s; cbn.
  - intros [= <- <-]. by rewrite (left_id_L ∅ (∪)).
  - unfold mbind, M_bind. destruct (step x st s) as [[st1|e] s1] eqn:Hx; [| done].
    intros Hrun. rewrite (IH _ _ Hrun), (Hstep _ _ _ _ _ Hx).
    by rewrite (assoc_L (∪)), (comm_L (∪) (list_to_set _)).
Qed.

(** X10.  A record that the push loop has met is no deletion candidate:
    after the loop, the candidates detected for the entity type have keys
    that are the local key of no record of the collection. *)
Theorem present_records_are_no_deletion_candidates :
  (∀ tracker st s st' s' d item,
     for_of [(active tracker, "Active"); (skipped tracker, "Skipped");
             (closed tracker, "Closed")]
       (λ '(jobs, status), for_of jobs (pushJobs_item flags config status)) st s
     = (Ok st', s') →
     d ∈ detectLocalDeletions (push_syncMap st') "jobs" (localKeys st') →
     item ∈ job_items tracker → del_key d ≠ getJobLocalId item.1 item.2) ∧
  (∀ contacts st s st' s' d contact,
     for_of contacts (pushContacts_item flags config) st s = (Ok st', s') →
     d ∈ detectLocalDeletions (push_syncMap st') "contacts" (localKeys st') →
     contact ∈ contacts → Str (del_key d) ≠ contact_key contact) ∧
  (∀ tasks st s st' s' d task,
     for_of tasks (pushTasks_item flags config) st s = (Ok st', s') →
     d ∈ detectLocalDeletions (push_syncMap st') "tasks" (localKeys st') →
     task ∈ tasks → Str (del_key d) ≠ task_key task).
Proof.
  split; [| split].
  - intros tracker st s st' s' d item Hrun Hd Hitem Heq.
    rewrite pushJobs_loop_flat in Hrun.
    apply (for_of_localKeys job_key
             (λ item, pushJobs_item flags config item.2 item.1)) in Hrun.
    2: { intros [job status] ????. by apply pushJobs_item_localKeys. }
    apply detectLocalDeletions_spec in Hd as (_ & _ & Hfresh & _).
    apply Hfresh. rewrite Hrun, Heq. apply elem_of_union_l, elem_of_list_to_set.
    apply list_elem_of_fmap. by exists item.
  - intros contacts st s st' s' d contact Hrun Hd Hcontact Heq.
    apply (for_of_localKeys contact_key (pushContacts_item flags config)) in Hrun.
    2: { intros ?????. by apply pushContacts_item_localKeys. }
    apply detectLocalDeletions_spec in Hd as (_ & _ & Hfresh & _).
    apply Hfresh. rewrite Hrun, Heq. apply elem_of_union_l, elem_of_list_to_set.
    apply list_elem_of_fmap. by exists contact.
  - intros tasks st s st' s' d task Hrun Hd Htask Heq.
    apply (for_of_localKeys task_key (pushTasks_item flags config)) in Hrun.
    2: { intros ?????. by apply pushTasks_item_localKeys. }
    apply detectLocalDeletions_spec in Hd as (_ & _ & Hfresh & _).
    apply Hfresh. rewrite Hrun, Heq. apply elem_of_union_l, elem_of_list_to_set.
    apply list_elem_of_fmap. by exists task.
Qed.

End LocalKeys.

(* ------------------------------------------------------------------------- *)
(** ** Verification: a run without configuration *)
(* ------------------------------------------------------------------------- *)

Section NoConfiguration.
Context `{NodeRuntime}.

(** X18.  Without a configuration file, or with one that has no API key, the
    run ends at once with a configuration error: nothing is sent and
    nothing is written. *)
Theorem run_without_configuration (flags : Flags) (budget : nat) (s : Sys) :
  (∀ config, file_config (disk s) = Some config → apiKey config = EmptyString) →
  main flags budget s = (Throw ConfigError, s).
Proof.
  intros Hconfig. unfold main, loadConfig, read_disk, mbind, M_bind.
  destruct (file_config (disk s)) as [config|]; [| done].
  by rewrite (Hconfig config eq_refl).
Qed.

End NoConfiguration.

Lemma run_without_configuration_witness :
  main no_flags 1 (scripted [] no_files) = (Throw ConfigError, scripted [] no_files).
Proof. apply run_without_configuration. intros config Hconfig. discriminate Hconfig. Defined.

(* ------------------------------------------------------------------------- *)
(** ** Verification: the filter of a pull *)
(* ------------------------------------------------------------------------- *)

Section Filter.
Context `{NodeRuntime} (flags : Flags).

Lemma tame_fetchLoop_body (P : Request → Prop) budget dbId apiKey filter startCursor pages :
  (∀ cursor,
     P (mkRequest "POST" ("/databases/" +:+ dbId +:+ "/query")
          (Some (JObj ([("page_size", JNum 100)] ++ filter
                       ++ (if truthy cursor then member "start_cursor" cursor else []))))
          apiKey)) →
  tame P (fetchLoop budget dbId apiKey filter startCursor pages).
Proof.
  intros HP. revert startCursor pages.
  induction budget as [|budget IH]; intros startCursor pages;
    cbn [fetchLoop]; [apply tame_throw |].
  apply tame_bind; [by apply tame_notionRequest |]. intros result.
  apply tame_bind; [destruct (res_has_more result); [apply tame_sleep | apply tame_ret] |].
  intros _. destruct (truthy _); [apply IH | apply tame_ret].
Qed.

(** X20.  What a pull asks the remote for: a full resync and a baseline (no
    watermark) query every page of the database; an incremental pull
    queries the pages edited after the watermark, on every page of
    results. *)
Theorem pull_asks_for_edits_after_the_watermark (budget : nat) (dbId : jsval)
  (config : Config) (syncMap : SyncMap) :
  (FULL_SYNC flags = true ∨ truthy (lastSyncTime syncMap) = false →
   tame asks_for_all (fetchForPull flags budget dbId config syncMap)) ∧
  (∀ since,
     FULL_SYNC flags = false → lastSyncTime syncMap = Str since → since ≠ EmptyString →
     tame (asks_for_edits_after since) (fetchForPull flags budget dbId config syncMap)).
Proof.
  split.
  - intros Hall. unfold fetchForPull, fetchAllPages, fetchChangedPages.
    assert (FULL_SYNC flags || negb (truthy (lastSyncTime syncMap)) = true) as ->.
    { destruct Hall as [-> | ->]; [done | apply orb_true_r]. }
    cbn [truthy]. apply tame_fetchLoop_body. intros cursor. eexists. split; [done |].
    cbn. by destruct (truthy cursor), cursor.
  - intros since Hfull Hsince Hne. unfold fetchForPull, fetchChangedPages.
    rewrite Hfull, Hsince. cbn [orb]. 
    assert (truthy (Str since) = true) as Htruthy.
    { cbn. by destruct (String.eqb_spec since EmptyString). }
    rewrite Htruthy. cbn [negb].
    apply tame_fetchLoop_body. intros cursor. eexists. split; [done |]. done.
Qed.

End Filter.

(* ------------------------------------------------------------------------- *)
(** ** Verification: what the hash of a contact does not see *)
(* ------------------------------------------------------------------------- *)

Section Blind.
Context `{NodeRuntime}.

Lemma PropertyList_subseteq seen names : PropertyList seen names ⊆ names.
Proof.
  revert seen. induction names as [|n names IH]; intros seen; cbn; [done |].
  case_bool_decide.
  - intros x Hx. right. by apply (IH seen).
  - intros x [->|Hx]%elem_of_cons; [by left | right; by apply (IH (n :: seen))].
Qed.

Lemma member_keys k v : (member k v).*1 ⊆ [k].
Proof. destruct v; cbn; [by intros ? ?%elem_of_nil | done | done]. Qed.

Lemma contact_keys (c : Contact.t) :
  Object_keys (Contact.toObject c)
  ⊆ ["id"; "name"; "company"; "title"; "email"; "linkedin"; "source"; "introducedBy";
     "added"; "interactions"].
Proof.
  unfold Object_keys, Contact.toObject.
  change (map fst) with (fmap (M := list) (@fst string json)).
  rewrite !fmap_app. intros k Hk.
  repeat (apply elem_of_app in Hk as [Hk%member_keys%list_elem_of_singleton|Hk];
          [subst k; repeat first [by left | right] |]).
  destruct (Contact.interactions c); cbn in Hk.
  - apply list_elem_of_singleton in Hk as ->. repeat first [by left | right].
  - by apply elem_of_nil in Hk.
Qed.

Lemma assoc_None_keys {A} (k : string) (l : list (string * A)) :
  k ∉ l.*1 → assoc k l = None.
Proof.
  induction l as [|[k0 v0] l IH]; cbn; [done |].
  intros Hk. apply not_elem_of_cons in Hk as [Hne Hk].
  destruct (String.eqb_spec k0 k); [done | by apply IH].
Qed.

Lemma omap_assoc_none {A B} (f : string → A → B) (members : list (string * A))
  (K : list string) :
  (∀ P, P ∈ K → P ∉ members.*1) →
  omap (λ P, f P <$> assoc P members) K = [].
Proof.
  induction K as [|P K IH]; intros HK; [done |]. cbn [omap list_omap].
  rewrite assoc_None_keys by (apply HK; by left). cbn.
  apply IH. intros P' HP'. apply HK. by right.
Qed.

(** Under the property list of a contact an interaction is written as the
    empty object. *)
Lemma interaction_serialised_empty (K : list string) (i : Interaction.t) :
  K ⊆ ["id"; "name"; "company"; "title"; "email"; "linkedin"; "source"; "introducedBy";
       "added"; "interactions"] →
  SerializeJSONProperty K (JObj (Interaction.toObject i)) = "{}".
Proof.
  intros HK. cbn [SerializeJSONProperty].
  rewrite (omap_assoc_none (λ P strP, QuoteJSONString P +:+ ":" +:+ strP)); [done |].
  intros P HP%HK.
  change (map ?f ?l) with (f <$> l). rewrite <- list_fmap_compose.
  unfold Interaction.toObject. rewrite fmap_app. intros Hin.
  apply elem_of_app in Hin as [Hin|Hin].
  - cbn in Hin. repeat (apply elem_of_cons in Hin as [->|Hin];
                        [repeat (apply elem_of_cons in HP as [HP|HP]; [discriminate HP |]);
                         by apply elem_of_nil in HP |]).
    by apply elem_of_nil in Hin.
  - destruct (Interaction.linkedJobs i); cbn in Hin; [| by apply elem_of_nil in Hin].
    apply list_elem_of_singleton in Hin as ->.
    repeat (apply elem_of_cons in HP as [HP|HP]; [discriminate HP |]).
    by apply elem_of_nil in HP.
Qed.

(** X19.  The canonical hash of a contact sees of its interaction log only
    how many interactions there are: the replacer that sorts the keys of
    the contact keeps none of the keys of an interaction, so every
    interaction is written as the empty object. *)
Theorem hashItem_sees_only_the_number_of_interactions (c : Contact.t)
  (l l' : list Interaction.t) :
  length l = length l' →
  hashItem (Contact.toObject (with_interactions l c))
  = hashItem (Contact.toObject (with_interactions l' c)).
Proof.
  intros Hlength. unfold hashItem, JSON_stringify.
  assert (Object_keys (Contact.toObject (with_interactions l c))
          = Object_keys (Contact.toObject (with_interactions l' c))) as Hkeys.
  { unfold Object_keys, Contact.toObject. cbn. by rewrite !map_app. }
  rewrite <- Hkeys.
  set (K := PropertyList [] (sort_strings (Object_keys (Contact.toObject (with_interactions l c))))).
  assert (K ⊆ ["id"; "name"; "company"; "title"; "email"; "linkedin"; "source";
               "introducedBy"; "added"; "interactions"]) as HK.
  { intros k Hk. apply (contact_keys (with_interactions l c)).
    apply PropertyList_subseteq in Hk. unfold sort_strings in Hk.
    by rewrite merge_sort_Permutation in Hk. }
  do 2 f_equal. cbn [SerializeJSONProperty]. do 3 f_equal.
  apply omap_pointwise. intros P. f_equal.
  unfold Contact.toObject. cbn [with_interactions Contact.id Contact.name Contact.company
    Contact.title Contact.email Contact.linkedin Contact.source Contact.introducedBy
    Contact.added Contact.interactions].
  rewrite !map_app. do 9 f_equal. cbn [map SerializeJSONProperty]. do 5 f_equal.
  rewrite !map_map. clear Hkeys. clearbody K.
  assert (map (λ x, SerializeJSONProperty K (JObj (Interaction.toObject x))) l
          = map (λ x, SerializeJSONProperty K (JObj (Interaction.toObject x))) l') as Hlog.
  { revert l' Hlength. induction l as [|i l IH]; intros [|i' l'] Hlength; try done.
    cbn [map]. rewrite !(interaction_serialised_empty K) by done.
    f_equal. apply IH. by injection Hlength. }
  by rewrite Hlog.
Qed.

End Blind.

Lemma hashItem_sees_only_the_number_of_interactions_witness :
  hashItem (Contact.toObject
              (with_interactions [Interaction.mk "2026-01-26" "email" "Sent resume" None]
                 (jane "None yet")))
  = hashItem (Contact.toObject
                (with_interactions
                   [Interaction.mk "2026-02-01" "call" "Discussed referral" (Some ["Acme"])]
                   (jane "None yet"))).
Proof. by apply hashItem_sees_only_the_number_of_interactions. Defined.

(* ------------------------------------------------------------------------- *)
(** ** Verification: what a step of a push leaves alone, and the pages it creates *)
(* ------------------------------------------------------------------------- *)

Section Frames.
Context `{NodeRuntime} (flags : Flags) (config : Config).

Ltac elsewhere :=
  split; [reflexivity |];
  let Htype := fresh in let Hne := fresh in
  intros ? Htype Hne;
  repeat (apply elem_of_cons in Htype as [->|Htype]; [first [done | reflexivity] |]);
  by apply elem_of_nil in Htype.

(** X21.  Whatever the remote answers, the push phase returns, and the local
    collections it returns are those it was given: a push changes no local
    record. *)
Theorem push_phase_returns (r : Run) (s : Sys) :
  ∃ r' s',
    pushPhase flags config r s = (Ok r', s') ∧
    run_tracker r' = run_tracker r ∧ run_network r' = run_network r ∧
    run_tasksData r' = run_tasksData r.
Proof.
  destruct (returns_pushPhase flags config r s) as (r' & s' & Hrun).
  exists r', s'. split; [done |]. by eapply pushPhase_keeps_local.
Qed.

(** X22.  A step of a push loop changes, of the sync map, only the dictionary
    of its entity type and the reverse index. *)
Theorem push_step_leaves_other_types_alone :
  (∀ status job st s st' s',
     pushJobs_item flags config status job st s = (Ok st', s') →
     same_elsewhere "jobs" (push_syncMap st) (push_syncMap st')) ∧
  (∀ contact st s st' s',
     pushContacts_item flags config contact st s = (Ok st', s') →
     same_elsewhere "contacts" (push_syncMap st) (push_syncMap st')) ∧
  (∀ task st s st' s',
     pushTasks_item flags config task st s = (Ok st', s') →
     same_elsewhere "tasks" (push_syncMap st) (push_syncMap st')).
Proof.
  split; [| split].
  - intros status job st s st' s'. unfold pushJobs_item.
    push_item_runs; intros [= <- <-]; cbn; elsewhere.
  - intros contact st s st' s'. unfold pushContacts_item.
    push_item_runs; intros [= <- <-]; cbn; elsewhere.
  - intros task st s st' s'. unfold pushTasks_item.
    push_item_runs; intros [= <- <-]; cbn; elsewhere.
Qed.

(** X23.  A page that the push creates is known to the next pull: when a step
    counts a record with a non-empty key as created, the reverse index leads
    from the id of the new page to the key of the record, and the dictionary
    holds under that key the entry with that id and the hash of the
    record. *)
Theorem created_page_is_known :
  (∀ status job st s st' s',
     pushJobs_item flags config status job st s = (Ok st', s') →
     created st' = S (created st) →
     ∃ entry,
       known_page "jobs" (push_syncMap st') (getJobLocalId job status) entry ∧
       localHash entry = Str (hashItem (Job.toObject job))) ∧
  (∀ contact key st s st' s',
     contact_key contact = Str key → key ≠ EmptyString →
     pushContacts_item flags config contact st s = (Ok st', s') →
     created st' = S (created st) →
     ∃ entry,
       known_page "contacts" (push_syncMap st') key entry ∧
       localHash entry = Str (hashItem (Contact.toObject contact))) ∧
  (∀ task key st s st' s',
     task_key task = Str key → key ≠ EmptyString →
     pushTasks_item flags config task st s = (Ok st', s') →
     created st' = S (created st) →
     ∃ entry,
       known_page "tasks" (push_syncMap st') key entry ∧
       localHash entry = Str (hashItem (Task.toObject task))).
Proof.
  split; [| split].
  - intros status job st s st' s'. unfold pushJobs_item.
    push_item_runs; intros [= <- <-]; cbn; intros Hcount; try lia.
    eexists. split; [split |].
    2: { unfold syncEntry_of. rewrite getJobLocalId_truthy. cbn.
         apply lookup_insert_eq. }
    2: { reflexivity. }
    unfold existingKey_of. cbn. by rewrite lookup_insert_eq.
  - intros contact key st s st' s' Hkey Hne. unfold pushContacts_item.
    unfold contact_key in Hkey. rewrite !Hkey.
    push_item_runs; intros [= <- <-]; cbn; intros Hcount; try lia.
    eexists. split; [split |].
    2: { unfold syncEntry_of. rewrite (truthy_Str_ne key Hne). cbn.
         apply lookup_insert_eq. }
    2: { reflexivity. }
    unfold existingKey_of. cbn. by rewrite lookup_insert_eq.
  - intros task key st s st' s' Hkey Hne. unfold pushTasks_item.
    unfold task_key in Hkey. rewrite !Hkey.
    push_item_runs; intros [= <- <-]; cbn; intros Hcount; try lia.
    eexists. split; [split |].
    2: { unfold syncEntry_of. rewrite (truthy_Str_ne key Hne). cbn.
         apply lookup_insert_eq. }
    2: { reflexivity. }
    unfold existingKey_of. cbn. by rewrite lookup_insert_eq.
Qed.

End Frames.

Lemma created_page_is_known_witness :
  let task := plain_task "t1" "Write the report" in
  let st := mkPush empty_syncMap ∅ 0 0 0 0 in
  let s := scripted [ok_response (body_of_page "page-9" "2026-03-02T12:00:01.000Z")]
                    no_files in
  let step := pushTasks_item no_flags tasks_only task st s in
  ∃ st',
    step.1 = Ok st' ∧ created st' = 1%nat ∧
    ∃ entry,
      known_page "tasks" (push_syncMap st') "t1" entry ∧
      localHash entry = Str (hashItem (Task.toObject task)).
Proof.
  intros task st s step.
  assert (∃ st', step.1 = Ok st' ∧ created st' = 1%nat) as (st' & Hok & Hcount)
    by (eexists; split; vm_compute; reflexivity).
  exists st'. split; [exact Hok |]. split; [exact Hcount |].
  apply (proj2 (proj2 (created_page_is_known no_flags tasks_only))
           task "t1" st s st' step.2);
    [reflexivity | discriminate | | exact Hcount].
  rewrite <- Hok. apply surjective_pairing.
Defined.
